(** * PDG construction and Weisfeiler-Lehman similarity

    A shallow embedding of [pdg_generator.py] (the [PDGGenerator] class with
    its nested [Visitor]) and of [wl_kernel.py]
    ([weisfeiler_lehman_kernel]), together with the two library interfaces
    they are written against: the part of [pycparser.c_ast] the visitor
    dispatches on, and the part of [networkx.DiGraph] both files call. *)

From Stdlib Require Import QArith Qpower Qround Qabs Lqa.
From stdpp Require Import gmap strings list pretty sorting.

Set Warnings "-clear-no-such-hyp".

Local Open Scope string_scope.
Local Open Scope nat_scope.

(* ===================================================================== *)
(** * Python helpers *)

(** [sep.join(parts)] *)
Definition join (sep : string) (parts : list string) : string :=
  String.concat sep parts.

(* ===================================================================== *)
(** * Python floats

    A Python [float] is an IEEE 754 binary64 number.  A finite one is
    modelled by the rational it denotes, and the result of an operation is
    the exact result rounded to the nearest double, halves to the one with
    an even significand ([fl]), or an infinity when the rounded value is
    out of range.  Zero has no sign here: the kernel computes values that
    are not negative, on which the sign of a zero cannot be observed. *)

Inductive float : Type :=
| finite (q : Q)
| inf (negative : bool)
| nan.

(** A rational rounded to an integer, halves to the even one. *)
Definition rne (v : Q) : Z :=
  let f := Qfloor v in
  match (v - inject_Z f ?= 1 # 2)%Q with
  | Lt => f
  | Gt => (f + 1)%Z
  | Eq => if Z.even f then f else (f + 1)%Z
  end.

(** The exponent [e] of a positive rational [q]: [2^e <= q < 2^(e+1)]. *)
Definition ilog2 (q : Q) : Z :=
  let l := (Z.log2 (Qnum q) - Z.log2 (Zpos (Qden q)))%Z in
  if Qle_bool (2 ^ l) q then l else (l - 1)%Z.

(** The double nearest to a positive rational: a multiple of [2^t], where
    [t] leaves 53 bits to the significand and is at least -1074 (the
    subnormal numbers). *)
Definition rnd_pos (q : Q) : Q :=
  let t := Z.max (ilog2 q - 52) (-1074) in
  Qred (inject_Z (rne (q / 2 ^ t)) * 2 ^ t).

Definition rnd (q : Q) : Q :=
  match Qnum q with
  | Z0 => 0%Q
  | Zpos _ => rnd_pos q
  | Zneg _ => (- rnd_pos (- q))%Q
  end.

Definition negative (q : Q) : bool := negb (Qle_bool 0 q).

(** The float an exact result becomes: the largest double is below
    [2^1024]. *)
Definition fl (q : Q) : float :=
  let r := rnd q in
  if Qle_bool (2 ^ 1024) (Qabs r) then inf (negative r) else finite r.

(** [a + b] *)
Definition fadd (a b : float) : float :=
  match a, b with
  | finite x, finite y => fl (x + y)
  | finite _, inf s | inf s, finite _ => inf s
  | inf s, inf s' => if Bool.eqb s s' then inf s else nan
  | _, _ => nan
  end.

(** [a * b] *)
Definition fmul (a b : float) : float :=
  match a, b with
  | finite x, finite y => fl (x * y)
  | finite x, inf s | inf s, finite x =>
      if Qeq_bool x 0 then nan else inf (xorb s (negative x))
  | inf s, inf s' => inf (xorb s s')
  | _, _ => nan
  end.

(** [a / b]: Python raises ZeroDivisionError ([None]) when [b] is zero. *)
Definition ftruediv (a b : float) : option float :=
  match b with
  | finite y =>
      if Qeq_bool y 0 then None
      else Some match a with
                | finite x => fl (x / y)
                | inf s => inf (xorb s (negative y))
                | nan => nan
                end
  | inf _ => Some match a with finite _ => finite 0 | _ => nan end
  | nan => Some nan
  end.

(** [sum(l)]: from the integer 0, left to right (CPython up to 3.11; from
    3.12 on [sum] compensates the rounding errors of floats). *)
Definition fsum (l : list float) : float := foldl fadd (finite 0) l.

(** [x ** i] is the C library's [pow]: the kernel takes it as a
    parameter.  The library returns the power rounded to the nearest
    double ([pow_nearest]) for most arguments, among them the ones the
    examples below evaluate, and a neighbour of it for the others. *)
Definition pow_nearest (x : float) (i : Z) : float :=
  match x with
  | finite q => fl (q ^ i)
  | _ => nan
  end.

(* ===================================================================== *)
(** * networkx.DiGraph

    A [DiGraph] keeps one attribute dictionary per node and one attribute
    dictionary per ordered pair of nodes: it is not a multigraph.
    [add_node] and [add_edge] update the dictionary that is already there
    ([dict.update]: the new attributes win), and [add_edge] creates missing
    end points with no attributes.  The iteration order of the dictionaries
    is not modelled: the scorer sorts what it reads from [neighbors] and
    only counts what it reads from [nodes]. *)
Module nx.

Abbreviation attrs := (gmap string string).

Record DiGraph : Type := mkDiGraph {
  nodes : gmap string attrs;
  adj : gmap (string * string) attrs
}.

(** [nx.DiGraph()] *)
Definition empty : DiGraph := {| nodes := ∅; adj := ∅ |}.

(** [d.update(new)] on attribute dictionaries *)
Definition update (new : attrs) (d : attrs) : attrs := new ∪ d.

(** [G.add_node(n, **a)] *)
Definition add_node (n : string) (a : attrs) (G : DiGraph) : DiGraph :=
  {| nodes := <[n := update a (default ∅ (nodes G !! n))]> (nodes G);
     adj := adj G |}.

(** the implicit creation of an end point by [add_edge] *)
Definition touch (n : string) (ns : gmap string attrs) : gmap string attrs :=
  match ns !! n with
  | Some _ => ns
  | None => <[n := ∅]> ns
  end.

(** [G.add_edge(u, v, **a)] *)
Definition add_edge (u v : string) (a : attrs) (G : DiGraph) : DiGraph :=
  {| nodes := touch v (touch u (nodes G));
     adj := <[(u, v) := update a (default ∅ (adj G !! (u, v)))]> (adj G) |}.

(** [G.edges[u, v].get('type')] when the edge exists *)
Definition edge_type (G : DiGraph) (u v : string) : option string :=
  adj G !! (u, v) ≫= λ a, a !! "type".

(** [G.nodes[n].get('type')] when the node exists *)
Definition node_type (G : DiGraph) (n : string) : option string :=
  nodes G !! n ≫= λ a, a !! "type".

Definition node_label (G : DiGraph) (n : string) : option string :=
  nodes G !! n ≫= λ a, a !! "label".

(** [list(G.neighbors(n))]: the successors of [n] *)
Definition neighbors (G : DiGraph) (n : string) : list string :=
  omap (λ e, if decide (e.1.1 = n) then Some e.1.2 else None)
       (map_to_list (adj G)).

(** the edges of a given kind, as [(u, v)] pairs *)
Definition edges_of_type (G : DiGraph) (k : string) : list (string * string) :=
  omap (λ e, if decide (e.2 !! "type" = Some k) then Some e.1 else None)
       (map_to_list (adj G)).

(** [list(G.nodes)] *)
Definition node_list (G : DiGraph) : list string := (map_to_list (nodes G)).*1.

(** the nodes of a given kind *)
Definition nodes_of_type (G : DiGraph) (k : string) : list string :=
  omap (λ e, if decide (e.2 !! "type" = Some k) then Some e.1 else None)
       (map_to_list (nodes G)).

End nx.

(* ===================================================================== *)
(** * pycparser.c_ast

    The node classes the visitor has a method or an [isinstance] test for,
    with the fields it reads, and [Other] for every other class (FileAST,
    FuncDef, While, For, ExprList, TypeDecl, EmptyStatement, ...), of
    which only the children matter.  An absent child is [None]. *)
Module c_ast.

Local Unset Elimination Schemes.
Inductive node : Type :=
| Constant (value : string)
| ID (name : string)
| BinaryOp (op : string) (left right : node)
| UnaryOp (op : string) (expr : node)
| Assignment (op : string) (lvalue rvalue : node)
| FuncCall (name : node) (args : option (list node))
    (* [args] is an ExprList or None; the list is [args.exprs] *)
| Decl (name : string) (type init bitsize : option node)
| If (cond : node) (iftrue iffalse : option node)
| Return (expr : option node)
| Compound (block_items : option (list node))
| Other (children : list node).
Local Set Elimination Schemes.

End c_ast.
Import c_ast.

(* ===================================================================== *)
(** * pdg_generator.py *)

(** [PDGGenerator]: the three attributes set by [__init__] *)
Record PDGGenerator : Type := mkPDGGenerator {
  pdg : nx.DiGraph;
  node_id : nat;
  last_assignment : gmap string string
}.

(** [PDGGenerator.__init__] *)
Definition new_PDGGenerator : PDGGenerator :=
  {| pdg := nx.empty; node_id := 0; last_assignment := ∅ |}.

(** [Visitor]: [outer] is the generator object itself, so what the visitor
    does to [outer] is what the generator holds afterwards. *)
Record Visitor : Type := mkVisitor {
  outer : PDGGenerator;
  current_node : option string
}.

(** [Visitor.__init__] *)
Definition new_Visitor (outer : PDGGenerator) : Visitor :=
  {| outer := outer; current_node := None |}.

(** [f"n{i}"] *)
Definition nid_of (i : nat) : string := "n" +:+ pretty i.

Definition with_pdg (f : nx.DiGraph → nx.DiGraph) (self : Visitor) : Visitor :=
  {| outer := {| pdg := f (pdg (outer self));
                 node_id := node_id (outer self);
                 last_assignment := last_assignment (outer self) |};
     current_node := current_node self |}.

(** [self.outer.pdg.add_edge(u, v, type=kind)] *)
Definition pdg_add_edge (u v kind : string) (self : Visitor) : Visitor :=
  with_pdg (nx.add_edge u v {["type" := kind]}) self.

(** [self.current_node = c] *)
Definition set_current_node (c : option string) (self : Visitor) : Visitor :=
  {| outer := outer self; current_node := c |}.

(** [self.outer.last_assignment[x] = nid] *)
Definition set_last_assignment (x nid : string) (self : Visitor) : Visitor :=
  {| outer := {| pdg := pdg (outer self);
                 node_id := node_id (outer self);
                 last_assignment := <[x := nid]> (last_assignment (outer self)) |};
     current_node := current_node self |}.

(** [Visitor.add_node] *)
Definition add_node (label node_type : string) (self : Visitor)
  : string * Visitor :=
  let nid := nid_of (node_id (outer self)) in
  let self1 :=
    with_pdg (nx.add_node nid {["label" := label; "type" := node_type]}) self in
  let self2 :=
    match current_node self1 with
    | Some c => pdg_add_edge c nid "control" self1
    | None => self1
    end in
  (nid,
   {| outer := {| pdg := pdg (outer self2);
                  node_id := S (node_id (outer self2));
                  last_assignment := last_assignment (outer self2) |};
      current_node := Some nid |}).

(** [Visitor.get_text] *)
Fixpoint get_text (n : node) : string :=
  match n with
  | Constant value => value
  | ID name => name
  | BinaryOp op l r =>
      "(" +:+ get_text l +:+ " " +:+ op +:+ " " +:+ get_text r +:+ ")"
  | Assignment op lvalue rvalue =>
      get_text lvalue +:+ " " +:+ op +:+ " " +:+ get_text rvalue
  | UnaryOp op expr => op +:+ get_text expr
  | FuncCall name args =>
      let args := match args with
                  | Some exprs => map get_text exprs
                  | None => []
                  end in
      "Call " +:+ get_text name +:+ "(" +:+ join ", " args +:+ ")"
  | _ => "?"
  end.

(** [Visitor.visit_FuncCall], on the fields of the call *)
Definition visit_FuncCall (name : node) (args : option (list node))
    (self : Visitor) : string * Visitor :=
  let func_name := get_text name in
  let args := match args with
              | Some exprs => map get_text exprs
              | None => []
              end in
  add_node ("Call " +:+ func_name +:+ "(" +:+ join ", " args +:+ ")")
           "func_call" self.

(** [Visitor.visit_Decl], on the fields of the declaration *)
Definition visit_Decl (name : string) (init : option node) (self : Visitor)
  : Visitor :=
  let '(decl_id, self) := add_node ("Decl " +:+ name) "decl" self in
  match init with
  | Some (FuncCall fname fargs) =>
      let '(call_id, self) := visit_FuncCall fname fargs self in
      let '(assign_id, self) := add_node (name +:+ " = [call]") "assign" self in
      pdg_add_edge assign_id call_id "data" self
  | Some init =>
      let init_str := get_text init in
      let '(assign_id, self) :=
        add_node (name +:+ " = " +:+ init_str) "assign" self in
      self
  | None => self
  end.

(** [Visitor.visit_Assignment] up to and including the update of
    [last_assignment]; the visit of the operands follows in [visit]. *)
Definition assign_node (op : string) (lvalue rvalue : node) (self : Visitor)
  : Visitor :=
  let lval := get_text lvalue in
  let '(nid, self) :=
    match rvalue with
    | FuncCall fname fargs =>
        let '(call_id, self) := visit_FuncCall fname fargs self in
        let '(nid, self) :=
          add_node (lval +:+ " " +:+ op +:+ " [call]") "assign" self in
        (nid, pdg_add_edge nid call_id "data" self)
    | _ =>
        let rval := get_text rvalue in
        add_node (lval +:+ " " +:+ op +:+ " " +:+ rval) "assign" self
    end in
  set_last_assignment lval nid self.

(** [Visitor.visit_ID], on the name *)
Definition visit_ID (name : string) (self : Visitor) : Visitor :=
  match last_assignment (outer self) !! name with
  | Some def =>
      let '(use_nid, self) := add_node ("Use " +:+ name) "use" self in
      pdg_add_edge def use_nid "data" self
  | None => self
  end.

(** The start of [visit_If]: the [if] node. *)
Definition if_node (cond : node) (self : Visitor) : string * Visitor :=
  add_node ("If " +:+ get_text cond +:+ "?") "if" self.

(** One branch of [visit_If]: save the cursor, move it to the [if] node,
    run the branch, link the [if] node to the cursor, restore. *)
Definition if_branch (cond_nid : string) (body : Visitor → Visitor)
    (self : Visitor) : Visitor :=
  let old := current_node self in
  let self := set_current_node (Some cond_nid) self in
  let self := body self in
  let self :=
    match current_node self with
    | Some c => pdg_add_edge cond_nid c "control" self
    | None => self (* unreachable: the cursor was set to a node above *)
    end in
  set_current_node old self.

(** The label of the node [visit_Return] emits. *)
Definition return_label (expr : option node) : string :=
  match expr with
  | Some e => "Return " +:+ get_text e
  | None => "Return"
  end.

(** [NodeVisitor.visit] (dispatch on the class of the node, with
    [generic_visit] as the default) and [NodeVisitor.generic_visit] (visit
    the children in order), together with the visitor's recursive methods. *)
Fixpoint visit (n : node) (self : Visitor) {struct n} : Visitor :=
  match n with
  | Decl name _ init _ => visit_Decl name init self
  | Assignment op lvalue rvalue =>
      generic_visit rvalue (assign_node op lvalue rvalue self)
  | FuncCall name args => (visit_FuncCall name args self).2
  | If cond iftrue iffalse =>
      let '(cond_nid, self) := if_node cond self in
      let self :=
        match iftrue with
        | Some b => if_branch cond_nid (visit b) self
        | None => self
        end in
      match iffalse with
      | Some b => if_branch cond_nid (visit b) self
      | None => self
      end
  | Return expr =>
      let self := (add_node (return_label expr) "return" self).2 in
      match expr with
      | Some e => generic_visit e self
      | None => self
      end
  | Compound block_items =>
      match block_items with
      | Some stmts => foldl (λ self stmt, visit stmt self) self stmts
      | None => self
      end
  | ID name => visit_ID name self
  (* no method of their own: generic_visit *)
  | Constant _ => self
  | BinaryOp _ l r => visit r (visit l self)
  | UnaryOp _ e => visit e self
  | Other cs => foldl (λ self c, visit c self) self cs
  end
with generic_visit (n : node) (self : Visitor) {struct n} : Visitor :=
  match n with
  | Constant _ | ID _ => self
  | BinaryOp _ l r => visit r (visit l self)
  | UnaryOp _ e => visit e self
  | Assignment _ l r => visit r (visit l self)
  | FuncCall name args =>
      let self := visit name self in
      match args with
      | Some exprs => foldl (λ self c, visit c self) self exprs
      | None => self
      end
  | Decl _ type init bitsize =>
      let vo := λ (o : option node) self,
        match o with Some c => visit c self | None => self end in
      vo bitsize (vo init (vo type self))
  | If cond iftrue iffalse =>
      let vo := λ (o : option node) self,
        match o with Some c => visit c self | None => self end in
      vo iffalse (vo iftrue (visit cond self))
  | Return expr =>
      match expr with Some c => visit c self | None => self end
  | Compound block_items =>
      match block_items with
      | Some stmts => foldl (λ self c, visit c self) self stmts
      | None => self
      end
  | Other cs => foldl (λ self c, visit c self) self cs
  end.

(** [PDGGenerator.generate]: the returned graph is the generator's own
    [pdg] object, so the pair is (returned graph, generator afterwards). *)
Definition generate (ast : node) (self : PDGGenerator)
  : nx.DiGraph * PDGGenerator :=
  let visitor := new_Visitor self in
  let visitor := visit ast visitor in
  (pdg (outer visitor), outer visitor).

(* ===================================================================== *)
(** * wl_kernel.py

    The kernel writes the [wl_label] attribute of the nodes of the two
    graph objects it is given, and the caller may pass the same object
    twice: the graphs live in a heap and the kernel takes two references.
    A failed lookup (Python's KeyError) is [None]. *)

Abbreviation loc := nat.
Abbreviation heap := (gmap nat nx.DiGraph).
Abbreviation Counter := (gmap string nat).

(** [Counter(labels)] *)
Definition Counter_of (labels : list string) : Counter :=
  foldl (λ c x, <[x := S (default 0 (c !! x))]> c) ∅ labels.

(** [h.get(l, 0)] *)
Definition count (h : Counter) (l : string) : nat := default 0 (h !! l).

(** The first loop, on one graph:
    [G.nodes[node]['wl_label'] = G.nodes[node].get('type', 'unknown')] *)
Definition init_wl_label (g : nx.DiGraph) : nx.DiGraph :=
  {| nx.nodes :=
       (λ a : nx.attrs, <["wl_label" := default "unknown" (a !! "type")]> a)
         <$> nx.nodes g;
     nx.adj := nx.adj g |}.

(** [G.nodes[n]['wl_label']] *)
Definition wl_label (g : nx.DiGraph) (n : string) : option string :=
  nx.nodes g !! n ≫= λ a, a !! "wl_label".

(** [histogram(G)] *)
Definition histogram (g : nx.DiGraph) : option Counter :=
  labels ← mapM (wl_label g) (nx.node_list g);
  Some (Counter_of labels).

(** The new label of the node [n] in [relabel]. *)
Definition new_label (g : nx.DiGraph) (n : string) : option string :=
  curr ← wl_label g n;
  neighbors ←
    mapM (λ nb, lbl ← wl_label g nb;
                Some (lbl +:+ "_" +:+ default "default" (nx.edge_type g n nb)))
         (nx.neighbors g n);
  let neighbors := merge_sort String.le neighbors in
  Some (curr +:+ "|" +:+
        match neighbors with [] => "LEAF" | _ => join "-" neighbors end).

(** [G.nodes[n]['wl_label'] = lbl] *)
Definition set_wl_label (n lbl : string) (g : nx.DiGraph) : nx.DiGraph :=
  {| nx.nodes := alter (<["wl_label" := lbl]>) n (nx.nodes g);
     nx.adj := nx.adj g |}.

(** [relabel(G)]: all new labels are computed, then all are applied. *)
Definition relabel (g : nx.DiGraph) : option nx.DiGraph :=
  new_labels ← mapM (λ n, lbl ← new_label g n; Some (n, lbl)) (nx.node_list g);
  Some (foldl (λ g (e : string * string), set_wl_label e.1 e.2 g) g new_labels).

(** An update of, and a read from, the graph object behind a reference. *)
Definition on_graph (f : nx.DiGraph → option nx.DiGraph) (G : loc) (σ : heap)
  : option heap :=
  g ← σ !! G; g' ← f g; Some (<[G := g']> σ).

Definition read_graph {A} (f : nx.DiGraph → option A) (G : loc) (σ : heap)
  : option A :=
  σ !! G ≫= f.

(** The relabeling rounds: [for _ in range(h)]. *)
Fixpoint wl_rounds (n : nat) (G1 G2 : loc) (σ : heap)
    (G1_hist G2_hist : list Counter)
  : option (heap * list Counter * list Counter) :=
  match n with
  | 0 => Some (σ, G1_hist, G2_hist)
  | S n =>
      σ ← on_graph relabel G1 σ;
      σ ← on_graph relabel G2 σ;
      h1 ← read_graph histogram G1 σ;
      h2 ← read_graph histogram G2 σ;
      wl_rounds n G1 G2 σ (G1_hist ++ [h1]) (G2_hist ++ [h2])
  end.

(** The literal [0.8]: the double nearest to 8/10. *)
Definition decay : float := fl (8 # 10).

(** The normalized weights; [pow] is the library function behind [**]. *)
Definition weights (pow : float → Z → float) (h : Z) : option (list float) :=
  let weights :=
    map (λ i : nat, pow decay (Z.of_nat i)) (seq 0 (Z.to_nat (h + 1))) in
  let total_weight := fsum weights in
  mapM (λ w, ftruediv w total_weight) weights.

(** The weighted Jaccard similarity of one round as the exact ratio of the
    two integers: [intersect / union if union > 0 else 0]. *)
Definition round_similarity (h1 h2 : Counter) : Q :=
  let all_labels := elements (dom h1 ∪ dom h2) in
  let intersect :=
    sum_list_with (λ l, count h1 l `min` count h2 l) all_labels in
  let union :=
    sum_list_with (λ l, count h1 l `max` count h2 l) all_labels in
  if decide (0 < union)
  then (inject_Z (Z.of_nat intersect) / inject_Z (Z.of_nat union))%Q
  else 0%Q.

(** The last loop: [for i in range(h+1)], from the rounds still to do and
    the sum so far.  The quotient of two integers is the float nearest to
    the exact ratio, and the integer 0 becomes the float 0.0 in the
    product. *)
Fixpoint similarity_loop (rounds : list nat) (weights : list float)
    (G1_hist G2_hist : list Counter) (similarity : float) : option float :=
  match rounds with
  | [] => Some similarity
  | i :: rounds =>
      h1 ← G1_hist !! i;
      h2 ← G2_hist !! i;
      w ← weights !! i;
      similarity_loop rounds weights G1_hist G2_hist
        (fadd similarity (fmul w (fl (round_similarity h1 h2))))
  end.

(** [weisfeiler_lehman_kernel(G1, G2, h)]: the score and the heap it
    leaves, or [None] when a lookup or a division fails. *)
Definition weisfeiler_lehman_kernel (pow : float → Z → float)
    (G1 G2 : loc) (h : Z) (σ : heap) : option (float * heap) :=
  σ ← on_graph (λ g, Some (init_wl_label g)) G1 σ;
  σ ← on_graph (λ g, Some (init_wl_label g)) G2 σ;
  h1 ← read_graph histogram G1 σ;
  h2 ← read_graph histogram G2 σ;
  r ← wl_rounds (Z.to_nat h) G1 G2 σ [h1] [h2];
  let '(σ, G1_hist, G2_hist) := r in
  weights ← weights pow h;
  similarity ←
    similarity_loop (seq 0 (Z.to_nat (h + 1))) weights G1_hist G2_hist
      (finite 0);
  Some (similarity, σ).

(* ===================================================================== *)
(** * main.py: the kernel of the one-file version

    [main.py] holds a second copy of the builder and of the kernel.  Its
    kernel initialises and counts labels as [wl_kernel.py] does
    ([init_wl_label], [histogram]) and computes the new label of a node by
    the same expression ([new_label]); it differs in the order of the
    steps of a round, in the way the weights are built and in the way a
    round is added to the score. *)
Module main.

(** The loop [for node in G.nodes()] of a round: the dictionary of the new
    labels of one graph. *)
Definition new_labels (g : nx.DiGraph) : option (list (string * string)) :=
  mapM (λ n, lbl ← new_label g n; Some (n, lbl)) (nx.node_list g).

(** [for node, label in new_labels.items(): G.nodes[node]['wl_label'] = label] *)
Definition apply_labels (new_labels : list (string * string))
    (g : nx.DiGraph) : nx.DiGraph :=
  foldl (λ g (e : string * string), set_wl_label e.1 e.2 g) g new_labels.

(** The rounds: the new labels of both graphs are computed, then both are
    applied, then both histograms are taken. *)
Fixpoint wl_rounds (n : nat) (G1 G2 : loc) (σ : heap)
    (G1_label_histograms G2_label_histograms : list Counter)
  : option (heap * list Counter * list Counter) :=
  match n with
  | 0 => Some (σ, G1_label_histograms, G2_label_histograms)
  | S n =>
      new_labels_G1 ← read_graph new_labels G1 σ;
      new_labels_G2 ← read_graph new_labels G2 σ;
      σ ← on_graph (λ g, Some (apply_labels new_labels_G1 g)) G1 σ;
      σ ← on_graph (λ g, Some (apply_labels new_labels_G2 g)) G2 σ;
      h1 ← read_graph histogram G1 σ;
      h2 ← read_graph histogram G2 σ;
      wl_rounds n G1 G2 σ
        (G1_label_histograms ++ [h1])%list (G2_label_histograms ++ [h2])%list
  end.

(** [weights = [1.0]; for i in range(h): weights.append(weights[-1] * 0.8)]
    (the list is never empty, so [weights[-1]] is its last element), then
    the normalization. *)
Definition weights (h : Z) : option (list float) :=
  let weights :=
    foldl (λ weights _,
             (weights ++ [fmul (default (finite 0) (last weights)) decay])%list)
          [finite 1] (seq 0 (Z.to_nat h)) in
  let total_weight := fsum weights in
  mapM (λ w, ftruediv w total_weight) weights.

(** The last loop: a round is added only [if union > 0], and only then is
    its weight read. *)
Fixpoint similarity_loop (rounds : list nat) (weights : list float)
    (G1_label_histograms G2_label_histograms : list Counter)
    (kernel_value : float) : option float :=
  match rounds with
  | [] => Some kernel_value
  | i :: rounds =>
      hist1 ← G1_label_histograms !! i;
      hist2 ← G2_label_histograms !! i;
      let all_labels := elements (dom hist1 ∪ dom hist2) in
      let intersection :=
        sum_list_with (λ l, count hist1 l `min` count hist2 l) all_labels in
      let union :=
        sum_list_with (λ l, count hist1 l `max` count hist2 l) all_labels in
      if decide (0 < union)
      then w ← weights !! i;
           similarity_loop rounds weights
             G1_label_histograms G2_label_histograms
             (fadd kernel_value
                (fmul w (fl (inject_Z (Z.of_nat intersection)
                             / inject_Z (Z.of_nat union)))))
      else similarity_loop rounds weights
             G1_label_histograms G2_label_histograms kernel_value
  end.

(** [main.weisfeiler_lehman_kernel(G1, G2, h)] *)
Definition weisfeiler_lehman_kernel (G1 G2 : loc) (h : Z) (σ : heap)
  : option (float * heap) :=
  σ ← on_graph (λ g, Some (init_wl_label g)) G1 σ;
  σ ← on_graph (λ g, Some (init_wl_label g)) G2 σ;
  h1 ← read_graph histogram G1 σ;
  h2 ← read_graph histogram G2 σ;
  r ← wl_rounds (Z.to_nat h) G1 G2 σ [h1] [h2];
  let '(σ, G1_label_histograms, G2_label_histograms) := r in
  weights ← weights h;
  kernel_value ←
    similarity_loop (seq 0 (Z.to_nat (h + 1))) weights
      G1_label_histograms G2_label_histograms (finite 0);
  Some (kernel_value, σ).

End main.

(* ===================================================================== *)
(** * The vocabulary of the statements

    States of a traversal, its steps, the induction principle of syntax
    trees, the properties of graphs and heaps the kernel relies on, and the
    trees and heaps the examples run on. *)

Abbreviation graph s := (pdg (outer s)).
Abbreviation counter s := (node_id (outer s)).
Abbreviation defs s := (last_assignment (outer s)).

(** States a traversal can be in: the nodes of the graph are the ids handed
    out so far, edges join nodes of the graph, the map points to [assign]
    nodes, the cursor is a node. *)
Record wf (s : Visitor) : Prop := mk_wf {
  wf_nodes u :
    u ∈ dom (nx.nodes (graph s)) ↔ ∃ j, j < counter s ∧ u = nid_of j;
  wf_edges u v :
    (u, v) ∈ dom (nx.adj (graph s)) →
    u ∈ dom (nx.nodes (graph s)) ∧ v ∈ dom (nx.nodes (graph s));
  wf_defs x d :
    defs s !! x = Some d → nx.node_type (graph s) d = Some "assign";
  wf_current c :
    current_node s = Some c → c ∈ dom (nx.nodes (graph s))
}.

(** The steps a traversal is made of.  The two steps that only [visit_If]
    takes are allowed when [br] is set. *)
Inductive step (br : bool) (s : Visitor) : Visitor → Prop :=
| step_add_node l k :
    step br s (add_node l k s).2
| step_data_edge u v :
    nx.node_type (graph s) u = Some "assign" →
    v ∈ dom (nx.nodes (graph s)) →
    step br s (pdg_add_edge u v "data" s)
| step_record x c :
    nx.node_type (graph s) c = Some "assign" →
    step br s (set_last_assignment x c s)
| step_branch_edge cond c :
    br = true →
    nx.node_type (graph s) cond = Some "if" →
    c ∈ dom (nx.nodes (graph s)) →
    step br s (pdg_add_edge cond c "control" s)
| step_cursor cond :
    br = true →
    cond ∈ dom (nx.nodes (graph s)) →
    step br s (set_current_node (Some cond) s).

Abbreviation steps br := (rtc (step br)).

(* ===================================================================== *)
(** * Induction on syntax trees *)

Section node_ind.
Context (P : node → Prop).

Definition on_child (o : option node) : Prop :=
  match o with Some c => P c | None => True end.
Definition on_children (o : option (list node)) : Prop :=
  match o with Some l => Forall P l | None => True end.

Context
  (HConstant : ∀ value, P (Constant value))
  (HID : ∀ name, P (ID name))
  (HBinaryOp : ∀ op l r, P l → P r → P (BinaryOp op l r))
  (HUnaryOp : ∀ op e, P e → P (UnaryOp op e))
  (HAssignment : ∀ op l r, P l → P r → P (Assignment op l r))
  (HFuncCall : ∀ name args, P name → on_children args → P (FuncCall name args))
  (HDecl : ∀ name type init bitsize,
      on_child type → on_child init → on_child bitsize →
      P (Decl name type init bitsize))
  (HIf : ∀ cond iftrue iffalse,
      P cond → on_child iftrue → on_child iffalse → P (If cond iftrue iffalse))
  (HReturn : ∀ expr, on_child expr → P (Return expr))
  (HCompound : ∀ block_items, on_children block_items → P (Compound block_items))
  (HOther : ∀ children, Forall P children → P (Other children)).

Fixpoint node_ind (n : node) : P n :=
  let child (o : option node) : on_child o :=
    match o with Some c => node_ind c | None => I end in
  let all : ∀ l : list node, Forall P l :=
    fix all l :=
      match l with
      | [] => @List.Forall_nil _ P
      | c :: l => @List.Forall_cons _ P c l (node_ind c) (all l)
      end in
  let children (o : option (list node)) : on_children o :=
    match o with Some l => all l | None => I end in
  match n with
  | Constant value => HConstant value
  | ID name => HID name
  | BinaryOp op l r => HBinaryOp op l r (node_ind l) (node_ind r)
  | UnaryOp op e => HUnaryOp op e (node_ind e)
  | Assignment op l r => HAssignment op l r (node_ind l) (node_ind r)
  | FuncCall name args => HFuncCall name args (node_ind name) (children args)
  | Decl name type init bitsize =>
      HDecl name type init bitsize (child type) (child init) (child bitsize)
  | If cond iftrue iffalse =>
      HIf cond iftrue iffalse (node_ind cond) (child iftrue) (child iffalse)
  | Return expr => HReturn expr (child expr)
  | Compound block_items => HCompound block_items (children block_items)
  | Other cs => HOther cs (all cs)
  end.
End node_ind.

(** No [If] node anywhere in the tree. *)
Fixpoint branch_free (n : node) : bool :=
  match n with
  | Constant _ | ID _ => true
  | BinaryOp _ l r => branch_free l && branch_free r
  | UnaryOp _ e => branch_free e
  | Assignment _ l r => branch_free l && branch_free r
  | FuncCall name args =>
      branch_free name &&
      match args with Some es => forallb branch_free es | None => true end
  | Decl _ type init bitsize =>
      match type with Some c => branch_free c | None => true end &&
      match init with Some c => branch_free c | None => true end &&
      match bitsize with Some c => branch_free c | None => true end
  | If _ _ _ => false
  | Return expr => match expr with Some c => branch_free c | None => true end
  | Compound block_items =>
      match block_items with Some l => forallb branch_free l | None => true end
  | Other cs => forallb branch_free cs
  end.

(** The pattern shared by [visit_Decl] and [visit_Assignment] for a call on
    the right: the call's node, the [assign] node, the data edge. *)
Definition call_then_assign (fname : node) (fargs : option (list node))
    (label : string) (s : Visitor) : string * Visitor :=
  let '(call_id, s) := visit_FuncCall fname fargs s in
  let '(nid, s) := add_node label "assign" s in
  (nid, pdg_add_edge nid call_id "data" s).

Definition is_call (n : node) : bool :=
  match n with FuncCall _ _ => true | _ => false end.

(** [allowed br n]: the tree [n] may be traversed with the steps of [br]. *)
Definition allowed (br : bool) (n : node) : bool := br || branch_free n.


(** A run on a newly constructed generator. *)
Abbreviation run ast := (generate ast new_PDGGenerator).

(** The scenario [int x = 5; return x;]. *)
Definition decl_then_return : node :=
  Compound (Some [Decl "x" (Some (Other [Other []])) (Some (Constant "5")) None;
                  Return (Some (ID "x"))]).

(** The statement [x = x + 1]. *)
Definition self_increment : node :=
  Assignment "=" (ID "x") (BinaryOp "+" (ID "x") (Constant "1")).


(** The state a branch of [visit_If] is entered with. *)
Definition branch_entry (cond_nid : string) (s : Visitor) : Visitor :=
  set_current_node (Some cond_nid) s.

(** The state after the true branch of [visit_If]. *)
Definition after_iftrue (cond : node) (iftrue : option node) (s : Visitor)
  : Visitor :=
  let '(cond_nid, s1) := if_node cond s in
  match iftrue with
  | Some b => if_branch cond_nid (visit b) s1
  | None => s1
  end.

(** The tree of [{ y = 1; if (c) { z = 2; } w = 3; }]. *)
Definition conditional_then_statement : node :=
  Compound (Some
    [Assignment "=" (ID "y") (Constant "1");
     If (ID "c") (Some (Compound (Some [Assignment "=" (ID "z") (Constant "2")])))
        None;
     Assignment "=" (ID "w") (Constant "3")]).

(** [quiet f]: the counter never goes down and, when [f] emits no node, it
    leaves the cursor where it was.  [grows f]: [f] emits a node. *)
Definition quiet (f : Visitor → Visitor) : Prop :=
  ∀ s, wf s →
    wf (f s) ∧ counter s ≤ counter (f s) ∧
    (counter (f s) = counter s → current_node (f s) = current_node s).

Definition grows (f : Visitor → Visitor) : Prop :=
  ∀ s, wf s → wf (f s) ∧ counter s < counter (f s).

(** The claim as stated: a run of [generate] on the generator [gen] is the
    run on a newly constructed one. *)
Definition starts_fresh (ast : node) (gen : PDGGenerator) : Prop :=
  generate ast gen = generate ast new_PDGGenerator.

(** The weights in exact arithmetic, as the description has them: the
    rationals [0.8^i], divided by their sum. *)
Definition sumQ (l : list Q) : Q := foldl Qplus 0%Q l.

Definition ideal_decay : Q := 8 # 10.

Definition ideal_raw_weights (h : Z) : list Q :=
  map (λ i : nat, (ideal_decay ^ Z.of_nat i)%Q) (seq 0 (Z.to_nat (h + 1))).

Definition ideal_total_weight (h : Z) : Q := sumQ (ideal_raw_weights h).

Definition ideal_weights (h : Z) : list Q :=
  map (λ w, (w / ideal_total_weight h)%Q) (ideal_raw_weights h).

(** A double between 0 and 1, and its value. *)
Definition unit_float (f : float) : Prop :=
  ∃ q, f = finite q ∧ (0 <= q <= 1)%Q.

Definition value (f : float) : Q :=
  match f with finite q => q | _ => 0%Q end.

(** What the statements assume of the library's [pow]: [0.8 ** 0] is 1.0
    and [0.8 ** i] is a double between 0 and 1. *)
Definition libm_pow_ok (pow : float → Z → float) : Prop :=
  pow decay 0%Z = finite 1 ∧ ∀ i, (0 ≤ i)%Z → unit_float (pow decay i).

(** [pow] returns the nearest double for the exponents [0 .. n]. *)
Definition nearest_up_to (n : Z) (pow : float → Z → float) : Prop :=
  ∀ i, (0 ≤ i ≤ n)%Z → pow decay i = pow_nearest decay i.

(** The score of a graph with a node against itself: every round counts
    for its weight times 1.0. *)
Definition self_score (pow : float → Z → float) (h : Z) : option float :=
  ws ← weights pow h;
  Some (foldl (λ s w, fadd s (fmul w (finite 1))) (finite 0) ws).


(** Sums of weights stay below [2^60], where adding a weight changes
    nothing any more. *)
Local Abbreviation big := 1152921504606846976%Q.

(** A histogram with a counted label. *)
Definition nonzero (h : Counter) : Prop := ∃ l, l ∈ dom h ∧ 0 < count h l.

Definition positive_counts (c : Counter) : Prop :=
  ∀ l n, c !! l = Some n → 0 < n.

(** Every node carries a [wl_label]. *)
Definition labelled (g : nx.DiGraph) : Prop :=
  ∀ n a, nx.nodes g !! n = Some a → is_Some (a !! "wl_label").

(** The end points of every edge are nodes of the graph (networkx keeps
    this for every graph it builds). *)
Definition closed (g : nx.DiGraph) : Prop :=
  ∀ u v, (u, v) ∈ dom (nx.adj g) →
         u ∈ dom (nx.nodes g) ∧ v ∈ dom (nx.nodes g).

Definition nonempty (g : nx.DiGraph) : Prop := nx.nodes g ≠ ∅.

(** Both references point to graphs with the property [P]. *)
Record heap_ok (P : nx.DiGraph → Prop) (G1 G2 : loc) (σ : heap) : Prop :=
  mk_heap_ok {
    heap_ok_1 : ∃ g, σ !! G1 = Some g ∧ P g;
    heap_ok_2 : ∃ g, σ !! G2 = Some g ∧ P g
  }.

(** The graphs the rounds run on; with [ne] they also have a node. *)
Definition ready (ne : bool) (g : nx.DiGraph) : Prop :=
  labelled g ∧ closed g ∧ (ne = true → nonempty g).

(** A heap with the graphs of two runs of the builder and an empty graph. *)
Definition sample_heap : heap :=
  {[ 0 := (run conditional_then_statement).1;
     1 := (run self_increment).1;
     2 := nx.empty ]}.

(** ** The traversal, method by method *)

(** The kinds [add_node] is called with outside [visit_ID]. *)
Definition statement_kinds : list string :=
  ["decl"; "assign"; "func_call"; "if"; "return"].

(** The left sides of the assignments of a tree, as [visit_Assignment]
    renders them. *)
Fixpoint assigned (n : node) : list string :=
  match n with
  | Constant _ | ID _ => []
  | BinaryOp _ l r => assigned l ++ assigned r
  | UnaryOp _ e => assigned e
  | Assignment _ l r => get_text l :: assigned l ++ assigned r
  | FuncCall name args =>
      assigned name ++
      match args with Some es => flat_map assigned es | None => [] end
  | Decl _ type init bitsize =>
      match type with Some c => assigned c | None => [] end ++
      match init with Some c => assigned c | None => [] end ++
      match bitsize with Some c => assigned c | None => [] end
  | If cond iftrue iffalse =>
      assigned cond ++
      match iftrue with Some c => assigned c | None => [] end ++
      match iffalse with Some c => assigned c | None => [] end
  | Return expr => match expr with Some c => assigned c | None => [] end
  | Compound block_items =>
      match block_items with Some l => flat_map assigned l | None => [] end
  | Other cs => flat_map assigned cs
  end.

(** The steps of a traversal with what the visitor's methods know about
    them: the kind of an emitted node, the kinds of the end points of the
    data edge of a call, the name recorded (one of [L]), the definition a
    use is linked to. *)
Inductive mstep (L : list string) (s : Visitor) : Visitor → Prop :=
| mstep_node l k :
    k ∈ statement_kinds →
    mstep L s (add_node l k s).2
| mstep_call_edge a c :
    nx.node_type (graph s) a = Some "assign" →
    nx.node_type (graph s) c = Some "func_call" →
    mstep L s (pdg_add_edge a c "data" s)
| mstep_record x c :
    x ∈ L →
    nx.node_type (graph s) c = Some "assign" →
    mstep L s (set_last_assignment x c s)
| mstep_use name def :
    defs s !! name = Some def →
    mstep L s (visit_ID name s)
| mstep_branch_edge cond c :
    nx.node_type (graph s) cond = Some "if" →
    c ∈ dom (nx.nodes (graph s)) →
    mstep L s (pdg_add_edge cond c "control" s)
| mstep_cursor cond :
    cond ∈ dom (nx.nodes (graph s)) →
    mstep L s (set_current_node (Some cond) s).

Abbreviation msteps L := (rtc (mstep L)).

(** The kinds a node can have. *)
Definition node_kinds : list string := "use" :: statement_kinds.

(** Every node has a label and one of the six kinds; every edge is a
    control or a data edge; a data edge leaves an [assign] node and enters
    a [use] or a [func_call] node; a [use] node has an incoming data edge. *)
Record typed (g : nx.DiGraph) : Prop := mk_typed {
  typed_nodes u :
    u ∈ dom (nx.nodes g) →
    ∃ l k, nx.node_label g u = Some l ∧ nx.node_type g u = Some k ∧
           k ∈ node_kinds;
  typed_edges u v :
    (u, v) ∈ dom (nx.adj g) →
    nx.edge_type g u v = Some "control" ∨ nx.edge_type g u v = Some "data";
  typed_data u v :
    nx.edge_type g u v = Some "data" →
    nx.node_type g u = Some "assign" ∧
    (nx.node_type g v = Some "use" ∨ nx.node_type g v = Some "func_call");
  typed_use v :
    nx.node_type g v = Some "use" → ∃ u, nx.edge_type g u v = Some "data"
}.

(** The names in the map are among [L], and every [use] node is labelled
    "Use x" for a name [x] of [L]. *)
Record named (L : list string) (s : Visitor) : Prop := mk_named {
  named_defs x : is_Some (defs s !! x) → x ∈ L;
  named_use v :
    nx.node_type (graph s) v = Some "use" →
    ∃ x, x ∈ L ∧ nx.node_label (graph s) v = Some ("Use " +:+ x)
}.

(** ** What a call of the kernel reads and writes *)

(** [g'] is [g] with other [wl_label]s: same edges, same nodes, same
    attributes but [wl_label]. *)
Definition keeps_but_wl_label (g g' : nx.DiGraph) : Prop :=
  nx.adj g' = nx.adj g ∧
  dom (nx.nodes g') = dom (nx.nodes g) ∧
  ∀ n k, k ≠ "wl_label" →
         nx.nodes g' !! n ≫= (.!! k) = nx.nodes g !! n ≫= (.!! k).

(** What a call leaves of the heap [σ]: the other objects as they are, the
    two graphs with other [wl_label]s. *)
Definition writes_only_wl_label (G1 G2 : loc) (σ σ' : heap) : Prop :=
  (∀ G, G ≠ G1 → G ≠ G2 → σ' !! G = σ !! G) ∧
  ∀ G g, G = G1 ∨ G = G2 → σ !! G = Some g →
         ∃ g', σ' !! G = Some g' ∧ keeps_but_wl_label g g'.

(** Two graphs with the same nodes, the same kind on every node and the
    same edges: they may differ in the text of the nodes and in the
    [wl_label]s an earlier call has left. *)
Definition same_kinds (g g' : nx.DiGraph) : Prop :=
  nx.adj g = nx.adj g' ∧
  dom (nx.nodes g) = dom (nx.nodes g') ∧
  ∀ n, nx.node_type g n = nx.node_type g' n.

Definition same_wl_labels (g g' : nx.DiGraph) : Prop :=
  nx.adj g = nx.adj g' ∧
  dom (nx.nodes g) = dom (nx.nodes g') ∧
  ∀ n, wl_label g n = wl_label g' n.

(** The graphs behind the two references are related by [R] in two
    heaps. *)
Definition heap_rel (R : nx.DiGraph → nx.DiGraph → Prop) (G1 G2 : loc)
    (σ σ' : heap) : Prop :=
  option_Forall2 R (σ !! G1) (σ' !! G1) ∧
  option_Forall2 R (σ !! G2) (σ' !! G2).

(* ===================================================================== *)
(** * Facts about the graph operations *)

Section nx_facts.
Implicit Types (G : nx.DiGraph) (n u v k : string) (a : nx.attrs).

Lemma update_type k a d : nx.update (<["type" := k]> a) d !! "type" = Some k.
Proof. unfold nx.update. apply lookup_union_Some_l, lookup_insert_eq. Qed.

Lemma type_attr_lookup k : ({["type" := k]} : nx.attrs) !! "type" = Some k.
Proof. apply lookup_singleton_eq. Qed.

Lemma node_attrs_type (label k : string) d :
  nx.update {["label" := label; "type" := k]} d !! "type" = Some k.
Proof.
  unfold nx.update. apply lookup_union_Some_l.
  rewrite lookup_insert_ne by done. apply lookup_insert_eq.
Qed.

Lemma touch_dom n (ns : gmap string nx.attrs) :
  dom (nx.touch n ns) = {[n]} ∪ dom ns.
Proof.
  unfold nx.touch. destruct (ns !! n) eqn:E.
  - apply (elem_of_dom_2 (D := gset string)) in E. set_solver.
  - by rewrite dom_insert_L.
Qed.

Lemma touch_known n (ns : gmap string nx.attrs) :
  n ∈ dom ns → nx.touch n ns = ns.
Proof. intros [x E]%elem_of_dom. unfold nx.touch. by rewrite E. Qed.

Lemma touch_lookup_Some n m (ns : gmap string nx.attrs) a :
  ns !! m = Some a → nx.touch n ns !! m = Some a.
Proof.
  intros E. unfold nx.touch. destruct (ns !! n) eqn:En; [done|].
  rewrite lookup_insert_ne; [done|]. intros ->. congruence.
Qed.

Lemma add_node_dom n a G :
  dom (nx.nodes (nx.add_node n a G)) = {[n]} ∪ dom (nx.nodes G).
Proof. simpl. by rewrite dom_insert_L. Qed.

Lemma add_node_adj n a G : nx.adj (nx.add_node n a G) = nx.adj G.
Proof. done. Qed.

Lemma add_edge_dom u v a G :
  dom (nx.nodes (nx.add_edge u v a G)) = {[u; v]} ∪ dom (nx.nodes G).
Proof. simpl. rewrite !touch_dom. set_solver. Qed.

Lemma add_edge_nodes_known u v a G :
  u ∈ dom (nx.nodes G) → v ∈ dom (nx.nodes G) →
  nx.nodes (nx.add_edge u v a G) = nx.nodes G.
Proof. intros Hu Hv. simpl. rewrite (touch_known u) by done. by apply touch_known. Qed.

Lemma add_edge_adj_dom u v a G :
  dom (nx.adj (nx.add_edge u v a G)) = {[(u, v)]} ∪ dom (nx.adj G).
Proof. simpl. by rewrite dom_insert_L. Qed.

Lemma node_type_add_node_eq n (label k : string) G :
  nx.node_type (nx.add_node n {["label" := label; "type" := k]} G) n = Some k.
Proof.
  unfold nx.node_type. simpl. rewrite lookup_insert_eq. simpl.
  apply node_attrs_type.
Qed.

Lemma node_label_add_node_eq n (label k : string) G :
  nx.node_label (nx.add_node n {["label" := label; "type" := k]} G) n
  = Some label.
Proof.
  unfold nx.node_label. simpl. rewrite lookup_insert_eq. simpl.
  unfold nx.update. apply lookup_union_Some_l, lookup_insert_eq.
Qed.

Lemma node_type_add_node_ne n m a G :
  n ≠ m → nx.node_type (nx.add_node n a G) m = nx.node_type G m.
Proof. intros. unfold nx.node_type. simpl. by rewrite lookup_insert_ne. Qed.

Lemma node_type_add_edge u v a G m k :
  nx.node_type G m = Some k → nx.node_type (nx.add_edge u v a G) m = Some k.
Proof.
  unfold nx.node_type. simpl. destruct (nx.nodes G !! m) as [d|] eqn:E; [|done].
  intros Hk. by rewrite (touch_lookup_Some _ _ _ d) by by apply touch_lookup_Some.
Qed.

(** The kind of the edge just added is the kind given, whatever edge was
    there before. *)
Lemma edge_type_add_edge_eq u v k G :
  nx.edge_type (nx.add_edge u v {["type" := k]} G) u v = Some k.
Proof.
  unfold nx.edge_type. simpl. rewrite lookup_insert_eq. simpl.
  apply update_type.
Qed.

Lemma edge_type_add_edge_ne u v a G u' v' :
  (u, v) ≠ (u', v') →
  nx.edge_type (nx.add_edge u v a G) u' v' = nx.edge_type G u' v'.
Proof. intros. unfold nx.edge_type. simpl. by rewrite lookup_insert_ne. Qed.

Lemma edge_type_add_node n a G u v :
  nx.edge_type (nx.add_node n a G) u v = nx.edge_type G u v.
Proof. done. Qed.

Lemma elem_of_edges_of_type G k u v :
  (u, v) ∈ nx.edges_of_type G k ↔ nx.edge_type G u v = Some k.
Proof.
  unfold nx.edges_of_type, nx.edge_type. rewrite list_elem_of_omap. split.
  - intros [[e d] [Hin Hd]]. simpl in Hd. case_decide; [|done].
    simplify_eq. apply elem_of_map_to_list in Hin. by rewrite Hin.
  - destruct (nx.adj G !! (u, v)) as [d|] eqn:E; [|done]. simpl. intros Hd.
    exists ((u, v), d). rewrite elem_of_map_to_list. split; [done|].
    simpl. by rewrite decide_True.
Qed.


End nx_facts.

(* ===================================================================== *)
(** * The builder: well-formed states and the steps of a traversal *)

Lemma nid_of_inj i j : nid_of i = nid_of j → i = j.
Proof.
  unfold nid_of. intros H. apply (inj (String.app "n")) in H.
  by apply (inj pretty) in H.
Qed.

(** What [add_node] returns and what it does to the counter, the cursor and
    the map. *)
Lemma add_node_fst l k s : (add_node l k s).1 = nid_of (counter s).
Proof. done. Qed.

Lemma add_node_counter l k s : counter (add_node l k s).2 = S (counter s).
Proof. unfold add_node. simpl. by destruct (current_node s). Qed.

Lemma add_node_current l k s :
  current_node (add_node l k s).2 = Some (nid_of (counter s)).
Proof. done. Qed.

Lemma add_node_defs l k s : defs (add_node l k s).2 = defs s.
Proof. unfold add_node. simpl. by destruct (current_node s). Qed.

Lemma add_node_graph l k s :
  graph (add_node l k s).2 =
  let nid := nid_of (counter s) in
  let g := nx.add_node nid {["label" := l; "type" := k]} (graph s) in
  match current_node s with
  | Some c => nx.add_edge c nid {["type" := "control"]} g
  | None => g
  end.
Proof. unfold add_node. simpl. by destruct (current_node s). Qed.

Global Arguments add_node : simpl never.

Lemma wf_new : wf (new_Visitor new_PDGGenerator).
Proof.
  split; simpl.
  - intros u. rewrite dom_empty_L. split; [set_solver|]. intros (j & ? & _). lia.
  - intros u v. rewrite dom_empty_L. set_solver.
  - intros x d. by rewrite lookup_empty.
  - done.
Qed.

Lemma node_type_dom G u k :
  nx.node_type G u = Some k → u ∈ dom (nx.nodes G).
Proof.
  unfold nx.node_type. destruct (nx.nodes G !! u) eqn:E; [|done].
  intros _. by apply elem_of_dom.
Qed.

Lemma edge_type_dom G u v k :
  nx.edge_type G u v = Some k → (u, v) ∈ dom (nx.adj G).
Proof.
  unfold nx.edge_type. destruct (nx.adj G !! (u, v)) eqn:E; [|done].
  intros _. by apply elem_of_dom.
Qed.

Lemma wf_fresh s : wf s → nid_of (counter s) ∉ dom (nx.nodes (graph s)).
Proof.
  intros H. rewrite (wf_nodes _ H). intros (j & Hj & E).
  apply nid_of_inj in E. lia.
Qed.

Section add_node_wf.
Context (l k : string) (s : Visitor) (Hwf : wf s).
Local Abbreviation nid := (nid_of (counter s)).
Local Abbreviation s' := ((add_node l k s).2).

Lemma add_node_nodes_dom :
  dom (nx.nodes (graph s')) = {[nid]} ∪ dom (nx.nodes (graph s)).
Proof.
  rewrite add_node_graph. cbv zeta.
  destruct (current_node s) as [c|] eqn:E.
  - rewrite add_edge_dom, add_node_dom. apply (wf_current _ Hwf) in E.
    set_solver.
  - by rewrite add_node_dom.
Qed.

Lemma add_node_type_new : nx.node_type (graph s') nid = Some k.
Proof.
  rewrite add_node_graph. cbv zeta.
  destruct (current_node s); [apply node_type_add_edge|];
    apply node_type_add_node_eq.
Qed.

Lemma add_node_type_old u t :
  nx.node_type (graph s) u = Some t → nx.node_type (graph s') u = Some t.
Proof.
  intros Hu. rewrite add_node_graph. cbv zeta.
  assert (nid ≠ u) as Hne.
  { intros <-. by apply (wf_fresh _ Hwf), (node_type_dom _ _ _ Hu). }
  destruct (current_node s); [apply node_type_add_edge|];
    by rewrite node_type_add_node_ne.
Qed.

Lemma add_node_adj_dom :
  dom (nx.adj (graph s')) =
  match current_node s with
  | Some c => {[(c, nid)]} ∪ dom (nx.adj (graph s))
  | None => dom (nx.adj (graph s))
  end.
Proof.
  rewrite add_node_graph. cbv zeta.
  destruct (current_node s); [|done]. by rewrite add_edge_adj_dom.
Qed.

(** The one edge [add_node] adds is the control edge from the cursor. *)
Lemma add_node_edge_new c :
  current_node s = Some c → nx.edge_type (graph s') c nid = Some "control".
Proof.
  intros E. rewrite add_node_graph, E. cbv zeta.
  apply edge_type_add_edge_eq.
Qed.

Lemma add_node_edge_old u v :
  nx.edge_type (graph s) u v ≠ None →
  nx.edge_type (graph s') u v = nx.edge_type (graph s) u v.
Proof.
  intros Hu. rewrite add_node_graph. cbv zeta.
  destruct (current_node s) as [c|]; [|done].
  rewrite edge_type_add_edge_ne; [done|]. intros [= <- <-].
  destruct (nx.edge_type (graph s) c nid) eqn:E; [|done].
  apply edge_type_dom, (wf_edges _ Hwf) in E as [_ E].
  by apply (wf_fresh _ Hwf).
Qed.

Lemma add_node_edge_inv u v t :
  nx.edge_type (graph s') u v = Some t →
  (current_node s = Some u ∧ v = nid ∧ t = "control")
  ∨ nx.edge_type (graph s) u v = Some t.
Proof.
  rewrite add_node_graph. cbv zeta.
  destruct (current_node s) as [c|]; [|by right].
  destruct (decide ((c, nid) = (u, v))) as [[= <- <-]|Hne].
  - rewrite edge_type_add_edge_eq. intros [= <-]. by left.
  - rewrite edge_type_add_edge_ne by done. by right.
Qed.

Lemma wf_add_node : wf s'.
Proof.
  split.
  - intros u. rewrite add_node_nodes_dom.
    rewrite add_node_counter, elem_of_union, elem_of_singleton,
      (wf_nodes _ Hwf). split.
    + intros [->|(j & ? & ->)]; [exists (counter s)|exists j]; split; (lia || done).
    + intros (j & Hj & ->). destruct (decide (j = counter s)) as [->|];
        [by left|right; exists j; split; [lia|done]].
  - intros u v. rewrite add_node_adj_dom, add_node_nodes_dom.
    destruct (current_node s) as [c|] eqn:E.
    + rewrite elem_of_union, elem_of_singleton. intros [[= -> ->]|H].
      * apply (wf_current _ Hwf) in E. set_solver.
      * apply (wf_edges _ Hwf) in H. set_solver.
    + intros H. apply (wf_edges _ Hwf) in H. set_solver.
  - intros x d. rewrite add_node_defs. intros H.
    apply add_node_type_old, (wf_defs _ Hwf _ _ H).
  - intros c. rewrite add_node_current, add_node_nodes_dom.
    intros [= <-]. set_solver.
Qed.

End add_node_wf.

Lemma wf_pdg_add_edge u v k s :
  wf s → u ∈ dom (nx.nodes (graph s)) → v ∈ dom (nx.nodes (graph s)) →
  wf (pdg_add_edge u v k s).
Proof.
  intros H Hu Hv.
  assert (nx.nodes (graph (pdg_add_edge u v k s)) = nx.nodes (graph s)) as Hn
    by by apply add_edge_nodes_known.
  split; unfold nx.node_type; rewrite ?Hn.
  - apply (wf_nodes _ H).
  - intros u' v'. simpl. rewrite dom_insert_L, elem_of_union, elem_of_singleton.
    intros [[= -> ->]|E]; [done|]. by apply (wf_edges _ H).
  - apply (wf_defs _ H).
  - apply (wf_current _ H).
Qed.

Lemma wf_set_last_assignment x c s :
  wf s → nx.node_type (graph s) c = Some "assign" →
  wf (set_last_assignment x c s).
Proof.
  intros H Hc. split; simpl; [apply H..| |apply H].
  intros y d. rewrite lookup_insert. case_decide; [by intros [= <-]|].
  apply (wf_defs _ H).
Qed.

Lemma wf_set_current_node c s :
  wf s → c ∈ dom (nx.nodes (graph s)) → wf (set_current_node (Some c) s).
Proof. intros H Hc. split; simpl; [apply H..|]. by intros ? [= <-]. Qed.

Lemma step_wf br s s' : wf s → step br s s' → wf s'.
Proof.
  intros H [l k|u v Hu Hv|x c Hc|cond c _ Hcond Hc|cond _ Hcond].
  - by apply wf_add_node.
  - apply wf_pdg_add_edge; eauto using node_type_dom.
  - by apply wf_set_last_assignment.
  - apply wf_pdg_add_edge; eauto using node_type_dom.
  - by apply wf_set_current_node.
Qed.

Lemma steps_wf br s s' : wf s → steps br s s' → wf s'.
Proof. intros H Hs. induction Hs; eauto using step_wf. Qed.

(** A property of states that every step keeps is kept by a traversal. *)
Lemma steps_preserve br (P : Visitor → Prop) :
  (∀ s s', wf s → P s → step br s s' → P s') →
  ∀ s s', wf s → P s → steps br s s' → P s'.
Proof.
  intros HP s s' Hwf Hs Hsteps. induction Hsteps as [|s1 s2 s3 H12 _ IH]; [done|].
  apply IH; eauto using step_wf.
Qed.

Lemma steps_counter br s s' : wf s → steps br s s' → counter s ≤ counter s'.
Proof.
  intros Hwf. apply (steps_preserve br (λ s', counter s ≤ counter s')); [|done..].
  intros s1 s2 _ Hle [l k| | | |]; [|done..].
  rewrite add_node_counter. lia.
Qed.

Lemma steps_is_Some_current br s s' :
  wf s → steps br s s' → is_Some (current_node s) → is_Some (current_node s').
Proof.
  intros Hwf Hs Hc. revert Hs.
  apply (steps_preserve br (λ s', is_Some (current_node s'))); [|done..].
  intros s1 s2 _ H1 [l k| | | |]; [by rewrite add_node_current|done..].
Qed.

Lemma steps_node_type br s s' u t :
  wf s → steps br s s' →
  nx.node_type (graph s) u = Some t → nx.node_type (graph s') u = Some t.
Proof.
  intros Hwf Hs Hc. revert Hs.
  apply (steps_preserve br (λ s', nx.node_type (graph s') u = Some t));
    [|done..].
  intros s1 s2 H1 Hu [l k|u' v' Hu' Hv'|x c Hc'|cond c _ Hcond Hc'|cond _ Hcond];
    [by apply add_node_type_old|by apply node_type_add_edge|done
    |by apply node_type_add_edge|done].
Qed.

Lemma steps_nodes br s s' u :
  wf s → steps br s s' →
  u ∈ dom (nx.nodes (graph s)) → u ∈ dom (nx.nodes (graph s')).
Proof.
  intros Hwf Hs. rewrite !wf_nodes by eauto using steps_wf.
  intros (j & Hj & ->). exists j. split; [|done].
  pose proof (steps_counter _ _ _ Hwf Hs). lia.
Qed.

Lemma steps_edges br s s' :
  wf s → steps br s s' →
  dom (nx.adj (graph s)) ⊆ dom (nx.adj (graph s')).
Proof.
  intros Hwf.
  apply (steps_preserve br
    (λ s', dom (nx.adj (graph s)) ⊆ dom (nx.adj (graph s')))); [|done..].
  intros s1 s2 H1 Hsub [l k|u' v' Hu' Hv'|x c Hc'|cond c _ Hcond Hc'|cond _ Hcond];
    [|simpl; rewrite dom_insert_L; set_solver|done
     |simpl; rewrite dom_insert_L; set_solver|done].
  rewrite add_node_adj_dom by done. destruct (current_node s1); set_solver.
Qed.

Lemma steps_defs br s s' :
  wf s → steps br s s' → dom (defs s) ⊆ dom (defs s').
Proof.
  intros Hwf.
  apply (steps_preserve br (λ s', dom (defs s) ⊆ dom (defs s'))); [|done..].
  intros s1 s2 H1 Hsub [l k|u' v' Hu' Hv'|x c Hc'|cond c _ Hcond Hc'|cond _ Hcond];
    [by rewrite add_node_defs|done|simpl; rewrite dom_insert_L; set_solver|done..].
Qed.

(** A control edge that leaves a node which is not an [assign] node stays
    a control edge: data edges leave [assign] nodes only. *)
Lemma steps_control_edge br s s' u v t :
  wf s → steps br s s' →
  nx.node_type (graph s) u = Some t → t ≠ "assign" →
  nx.edge_type (graph s) u v = Some "control" →
  nx.edge_type (graph s') u v = Some "control".
Proof.
  intros Hwf Hs Hu Ht He. revert Hs.
  apply (steps_preserve br (λ s',
    nx.node_type (graph s') u = Some t ∧
    nx.edge_type (graph s') u v = Some "control")); [|done..].
  intros s1 s2 H1 [Hu1 He1] Hstep. split.
  { by apply (steps_node_type br s1 s2); [|apply rtc_once|]. }
  destruct Hstep as
    [l k|u' v' Hu' Hv'|x c Hc'|cond c _ Hcond Hc'|cond _ Hcond]; [| |done| |done].
  - rewrite add_node_edge_old by (done || congruence). done.
  - simpl. rewrite edge_type_add_edge_ne; [done|]. intros [= -> ->]. congruence.
  - simpl. destruct (decide ((cond, c) = (u, v))) as [[= -> ->]|Hne].
    + apply edge_type_add_edge_eq.
    + by rewrite edge_type_add_edge_ne.
Qed.

(* ===================================================================== *)
(** * Every traversal is a sequence of steps *)

Lemma visit_Decl_call name f a s :
  visit_Decl name (Some (FuncCall f a)) s =
  (call_then_assign f a (name +:+ " = [call]")
     (add_node ("Decl " +:+ name) "decl" s).2).2.
Proof. done. Qed.

Lemma visit_Decl_other name init s :
  is_call init = false →
  visit_Decl name (Some init) s =
  (add_node (name +:+ " = " +:+ get_text init) "assign"
     (add_node ("Decl " +:+ name) "decl" s).2).2.
Proof. intros H. destruct init; try discriminate H; reflexivity. Qed.

Lemma assign_node_other op l r s :
  is_call r = false →
  assign_node op l r s =
  set_last_assignment (get_text l) (nid_of (counter s))
    (add_node (get_text l +:+ " " +:+ op +:+ " " +:+ get_text r) "assign" s).2.
Proof. intros H. destruct r; try discriminate H; reflexivity. Qed.

Lemma assign_node_call op l f a s :
  assign_node op l (FuncCall f a) s =
  let r := call_then_assign f a (get_text l +:+ " " +:+ op +:+ " [call]") s in
  set_last_assignment (get_text l) r.1 r.2.
Proof. done. Qed.

Section steps_of_methods.
Context (br : bool).

Lemma steps_add_node l k s : steps br s (add_node l k s).2.
Proof. apply rtc_once, step_add_node. Qed.

Lemma steps_visit_FuncCall f a s : steps br s (visit_FuncCall f a s).2.
Proof. apply steps_add_node. Qed.

Lemma call_then_assign_spec f a la s :
  wf s →
  let r := call_then_assign f a la s in
  steps br s r.2 ∧ nx.node_type (graph r.2) r.1 = Some "assign".
Proof.
  intros Hwf. unfold call_then_assign, visit_FuncCall.
  set (lc := "Call " +:+ _).
  change (let s1 := (add_node lc "func_call" s).2 in
          let s2 := (add_node la "assign" s1).2 in
          let r := (nid_of (counter s1),
                    pdg_add_edge (nid_of (counter s1)) (nid_of (counter s))
                                 "data" s2) in
          steps br s r.2 ∧ nx.node_type (graph r.2) r.1 = Some "assign").
  intros s1 s2 r.
  assert (wf s1) as H1 by by apply wf_add_node.
  assert (nx.node_type (graph s2) (nid_of (counter s1)) = Some "assign")
    as Ht by by apply add_node_type_new.
  split.
  - trans s1; [apply steps_add_node|]. trans s2; [apply steps_add_node|].
    apply rtc_once. unfold r, snd.
    apply (step_data_edge br s2 _ _ Ht).
    subst s2. rewrite add_node_nodes_dom by done. subst s1.
    rewrite add_node_nodes_dom by done. set_solver.
  - subst r. simpl. by apply node_type_add_edge.
Qed.

Lemma steps_visit_Decl name init s :
  wf s → steps br s (visit_Decl name init s).
Proof.
  intros Hwf.
  assert (wf (add_node ("Decl " +:+ name) "decl" s).2) as H1
    by by apply wf_add_node.
  destruct init as [init|]; [|apply steps_add_node].
  destruct (is_call init) eqn:E.
  - destruct init as [| | | | |f a| | | | |]; try discriminate E.
    rewrite visit_Decl_call.
    etrans; [apply steps_add_node|]. by apply call_then_assign_spec.
  - rewrite visit_Decl_other by done.
    etrans; [apply steps_add_node|apply steps_add_node].
Qed.

Lemma steps_assign_node op l r s :
  wf s → steps br s (assign_node op l r s).
Proof.
  intros Hwf.
  destruct (is_call r) eqn:E.
  - destruct r as [| | | | |f a| | | | |]; try discriminate E.
    rewrite assign_node_call. cbv zeta.
    destruct (call_then_assign_spec f a
      (get_text l +:+ " " +:+ op +:+ " [call]") s Hwf) as [Hs Ht].
    etrans; [apply Hs|]. by apply rtc_once, step_record.
  - rewrite assign_node_other by done.
    etrans; [apply steps_add_node|].
    by apply rtc_once, step_record, add_node_type_new.
Qed.

Lemma steps_visit_ID name s : wf s → steps br s (visit_ID name s).
Proof.
  intros Hwf. unfold visit_ID.
  destruct (defs s !! name) as [def|] eqn:E; [|done].
  change (steps br s
    (pdg_add_edge def (nid_of (counter s)) "data"
       (add_node ("Use " +:+ name) "use" s).2)).
  etrans; [apply steps_add_node|]. apply rtc_once, step_data_edge.
  - apply add_node_type_old; [done|]. by apply (wf_defs _ Hwf name).
  - rewrite add_node_nodes_dom by done. set_solver.
Qed.

Lemma steps_foldl (l : list node) :
  Forall (λ c, ∀ s, wf s → steps br s (visit c s)) l →
  ∀ s, wf s → steps br s (foldl (λ s c, visit c s) s l).
Proof.
  induction 1 as [|c l Hc _ IH]; intros s Hwf; simpl; [done|].
  etrans; [by apply Hc|]. apply IH. eauto using steps_wf.
Qed.

Lemma steps_visit_child (o : option node) :
  on_child (λ c, ∀ s, wf s → steps br s (visit c s)) o →
  ∀ s, wf s → steps br s (match o with Some c => visit c s | None => s end).
Proof. destruct o; simpl; [by auto|done]. Qed.

End steps_of_methods.

Lemma if_branch_current cond body s :
  current_node (if_branch cond body s) = current_node s.
Proof. done. Qed.

Lemma if_branch_steps cond body s c0 :
  wf s → current_node s = Some c0 →
  nx.node_type (graph s) cond = Some "if" →
  (∀ s, wf s → steps true s (body s)) →
  steps true s (if_branch cond body s).
Proof.
  intros Hwf Hc0 Hcond Hbody. unfold if_branch. rewrite Hc0.
  set (s1 := set_current_node (Some cond) s).
  assert (steps true s s1) as H01.
  { apply rtc_once, step_cursor; [done|]. by eapply node_type_dom. }
  assert (wf s1) as Hwf1 by eauto using steps_wf.
  pose proof (Hbody s1 Hwf1) as H12.
  assert (wf (body s1)) as Hwf2 by eauto using steps_wf.
  destruct (steps_is_Some_current _ _ _ Hwf1 H12) as [c Hc]; [done|].
  rewrite Hc.
  assert (steps true (body s1) (pdg_add_edge cond c "control" (body s1))) as H23.
  { apply rtc_once, step_branch_edge; [done| |by apply (wf_current _ Hwf2)].
    by apply (steps_node_type true s1). }
  etrans; [apply H01|]. etrans; [apply H12|]. etrans; [apply H23|].
  apply rtc_once, step_cursor; [done|].
  apply (steps_nodes true s (pdg_add_edge cond c "control" (body s1)));
    [done| |by apply (wf_current _ Hwf)].
  etrans; [apply H01|]. etrans; [apply H12|]. done.
Qed.

Global Arguments visit_Decl : simpl never.
Global Arguments assign_node : simpl never.
Global Arguments visit_ID : simpl never.
Global Arguments visit_FuncCall : simpl never.
Global Arguments if_node : simpl never.
Global Arguments if_branch : simpl never.

Lemma visit_If_eq cond iftrue iffalse s :
  visit (If cond iftrue iffalse) s =
  let cond_nid := nid_of (counter s) in
  let s1 := (if_node cond s).2 in
  let s2 := match iftrue with
            | Some b => if_branch cond_nid (visit b) s1
            | None => s1
            end in
  match iffalse with
  | Some b => if_branch cond_nid (visit b) s2
  | None => s2
  end.
Proof. done. Qed.

Lemma allowed_all br (l : list node) :
  br || forallb branch_free l = true → Forall (λ c, allowed br c = true) l.
Proof.
  unfold allowed. destruct br; simpl.
  - intros _. by apply Forall_true.
  - intros H. apply Forall_forall. intros c Hc%list_elem_of_In.
    by eapply forallb_forall in H.
Qed.

Lemma Forall_modus (P Q : node → Prop) (l : list node) :
  Forall (λ c, P c → Q c) l → Forall P l → Forall Q l.
Proof. induction 1; inversion 1; subst; constructor; auto. Qed.

(** Both [visit] and [generic_visit] take steps only; without an [If] in
    the tree they take none of the two steps of [visit_If]. *)
Lemma visit_steps br n :
  allowed br n = true →
  ∀ s, wf s → steps br s (visit n s) ∧ steps br s (generic_visit n s).
Proof.
  induction n as
    [value|name|op l r IHl IHr|op e IHe|op l r IHl IHr|name args IHn IHa
    |name type init bitsize IHt IHi IHb|cond iftrue iffalse IHc IHt IHf
    |expr IHe|block_items IHb|cs IHcs] using node_ind;
    intros Hbr s Hwf.
  - by split.
  - split; [by apply steps_visit_ID|done].
  - assert (allowed br l = true ∧ allowed br r = true) as [Hl Hr].
    { revert Hbr. unfold allowed. destruct br; simpl; [done|]. apply andb_prop. }
    assert (steps br s (visit r (visit l s))); [|done].
    destruct (IHl Hl s Hwf) as [H1 _]. etrans; [exact H1|].
    apply IHr; eauto using steps_wf.
  - assert (steps br s (visit e s)); [by apply IHe|done].
  - assert (allowed br l = true ∧ allowed br r = true) as [Hl Hr].
    { revert Hbr. unfold allowed. destruct br; simpl; [done|]. apply andb_prop. }
    split.
    + change (steps br s (generic_visit r (assign_node op l r s))).
      pose proof (steps_assign_node br op l r s Hwf) as H1.
      etrans; [exact H1|]. apply IHr; eauto using steps_wf.
    + change (steps br s (visit r (visit l s))).
      destruct (IHl Hl s Hwf) as [H1 _]. etrans; [exact H1|].
      apply IHr; eauto using steps_wf.
  - split; [apply steps_visit_FuncCall|].
    assert (allowed br name = true ∧
            on_children (λ c, allowed br c = true) args) as [Hn Ha].
    { revert Hbr. unfold allowed. destruct br; simpl.
      - intros _. split; [done|]. destruct args; simpl; [|done].
        by apply Forall_true.
      - intros [? H]%andb_prop. split; [done|]. destruct args; simpl; [|done].
        by apply (allowed_all false). }
    destruct (IHn Hn s Hwf) as [H1 _].
    change (steps br s
      (match args with
       | Some exprs => foldl (λ self c, visit c self) (visit name s) exprs
       | None => visit name s
       end)).
    destruct args as [exprs|]; [|done]. simpl in IHa, Ha.
    etrans; [exact H1|]. apply steps_foldl; [|eauto using steps_wf].
    eapply Forall_impl; [exact (Forall_modus _ _ _ IHa Ha)|].
    intros c Hc s' Hs'. by apply Hc.
  - split; [by apply steps_visit_Decl|].
    assert (on_child (λ c, allowed br c = true) type ∧
            on_child (λ c, allowed br c = true) init ∧
            on_child (λ c, allowed br c = true) bitsize) as (Ht & Hi & Hb).
    { revert Hbr. unfold allowed. destruct br; simpl.
      - intros _. by destruct type, init, bitsize.
      - intros [[? ?]%andb_prop ?]%andb_prop. by destruct type, init, bitsize. }
    change (steps br s
      (match bitsize with
       | Some c =>
           visit c (match init with
                    | Some c => visit c (match type with
                                         | Some c => visit c s | None => s end)
                    | None => match type with
                              | Some c => visit c s | None => s end
                    end)
       | None => match init with
                 | Some c => visit c (match type with
                                      | Some c => visit c s | None => s end)
                 | None => match type with
                           | Some c => visit c s | None => s end
                 end
       end)).
    assert (∀ o s, on_child (λ c, allowed br c = true →
              ∀ s, wf s → steps br s (visit c s) ∧ steps br s (generic_visit c s)) o →
            on_child (λ c, allowed br c = true) o → wf s →
            steps br s (match o with Some c => visit c s | None => s end)) as Hvo.
    { intros [c|] s0 H1 H2 H3; simpl in *; [by apply H1|done]. }
    pose proof (Hvo type s IHt Ht Hwf) as H1.
    pose proof (Hvo init _ IHi Hi (steps_wf _ _ _ Hwf H1)) as H2.
    pose proof (Hvo bitsize _ IHb Hb
                  (steps_wf _ _ _ (steps_wf _ _ _ Hwf H1) H2)) as H3.
    destruct type, init, bitsize; simpl in *;
      repeat (etrans; [eassumption|]); done.
  - assert (br = true) as ->.
    { revert Hbr. unfold allowed. by destruct br. }
    assert (∀ o s, on_child (λ c, allowed true c = true →
              ∀ s, wf s → steps true s (visit c s) ∧
                           steps true s (generic_visit c s)) o →
            wf s →
            steps true s (match o with Some c => visit c s | None => s end)) as Hvo.
    { intros [c|] s0 H1 H3; simpl in *; [by apply H1|done]. }
    split.
    + rewrite visit_If_eq. cbv zeta. unfold if_node.
      set (cond_nid := nid_of (counter s)).
      set (s1 := (add_node _ "if" s).2).
      assert (steps true s s1) as H01 by apply steps_add_node.
      assert (wf s1) as Hwf1 by eauto using steps_wf.
      assert (nx.node_type (graph s1) cond_nid = Some "if") as Hty
        by by apply add_node_type_new.
      assert (current_node s1 = Some cond_nid) as Hcur by done.
      set (s2 := match iftrue with
                 | Some b => if_branch cond_nid (visit b) s1
                 | None => s1
                 end).
      assert (steps true s1 s2) as H12.
      { subst s2. destruct iftrue as [b|]; [|done]. simpl in IHt.
        eapply if_branch_steps; [done..|]. intros s' Hs'. by apply IHt. }
      assert (wf s2) as Hwf2 by eauto using steps_wf.
      assert (current_node s2 = Some cond_nid) as Hcur2.
      { subst s2. destruct iftrue; [|done]. by rewrite if_branch_current. }
      etrans; [exact H01|]. etrans; [exact H12|].
      destruct iffalse as [b|]; [|done]. simpl in IHf.
      eapply if_branch_steps; [done..| |].
      * by apply (steps_node_type true s1).
      * intros s' Hs'. by apply IHf.
    + change (steps true s
        (match iffalse with
         | Some c => visit c (match iftrue with
                              | Some c => visit c (visit cond s)
                              | None => visit cond s end)
         | None => match iftrue with
                   | Some c => visit c (visit cond s)
                   | None => visit cond s end
         end)).
      destruct (IHc eq_refl s Hwf) as [H0 _].
      pose proof (Hvo iftrue _ IHt (steps_wf _ _ _ Hwf H0)) as H1.
      pose proof (Hvo iffalse _ IHf
                    (steps_wf _ _ _ (steps_wf _ _ _ Hwf H0) H1)) as H2.
      destruct iftrue, iffalse; simpl in *;
        repeat (etrans; [eassumption|]); done.
  - assert (on_child (λ c, allowed br c = true) expr) as He.
    { revert Hbr. unfold allowed. destruct br, expr; by simpl. }
    split.
    + change (steps br s
        (match expr with
         | Some e => generic_visit e (add_node (return_label expr) "return" s).2
         | None => (add_node (return_label expr) "return" s).2
         end)).
      destruct expr as [e|]; [|apply steps_add_node]. simpl in IHe, He.
      etrans; [apply steps_add_node|]. apply IHe; [done|].
      by apply wf_add_node.
    + change (steps br s (match expr with Some c => visit c s | None => s end)).
      destruct expr as [e|]; [|done]. by apply IHe.
  - assert (on_children (λ c, allowed br c = true) block_items) as Hb.
    { destruct block_items; simpl; [|done]. by apply allowed_all. }
    assert (steps br s
      (match block_items with
       | Some stmts => foldl (λ self c, visit c self) s stmts
       | None => s
       end)); [|done].
    destruct block_items as [stmts|]; [|done]. simpl in IHb, Hb.
    apply steps_foldl; [|done].
    eapply Forall_impl; [exact (Forall_modus _ _ _ IHb Hb)|].
    intros c Hc s' Hs'. by apply Hc.
  - assert (steps br s (foldl (λ self c, visit c self) s cs)); [|done].
    apply steps_foldl; [|done].
    eapply Forall_impl; [exact (Forall_modus _ _ _ IHcs (allowed_all _ _ Hbr))|].
    intros c Hc s' Hs'. by apply Hc.
Qed.

(* ===================================================================== *)
(** * Runs without conditionals: the chain of created nodes *)


Lemma add_node_size l k s :
  wf s → size (nx.nodes (graph (add_node l k s).2)) = S (size (nx.nodes (graph s))).
Proof.
  intros Hwf. rewrite <-!size_dom, add_node_nodes_dom by done.
  rewrite size_union, size_singleton; [done|].
  pose proof (wf_fresh _ Hwf). set_solver.
Qed.

Lemma pdg_add_edge_size u v k s :
  u ∈ dom (nx.nodes (graph s)) → v ∈ dom (nx.nodes (graph s)) →
  size (nx.nodes (graph (pdg_add_edge u v k s))) = size (nx.nodes (graph s)).
Proof.
  intros Hu Hv.
  change (size (nx.nodes (nx.add_edge u v {["type" := k]} (graph s))) = 
          size (nx.nodes (graph s))).
  by rewrite add_edge_nodes_known.
Qed.




(* ===================================================================== *)
(** * Runs of the generator *)

Lemma generate_visit ast gen :
  generate ast gen =
  (graph (visit ast (new_Visitor gen)), outer (visit ast (new_Visitor gen))).
Proof. done. Qed.

Lemma wf_restart s : wf s → wf (new_Visitor (outer s)).
Proof. intros H. split; simpl; [apply H..|done]. Qed.

Lemma visit_wf n s : wf s → wf (visit n s).
Proof.
  intros H. eapply steps_wf; [done|]. by apply (visit_steps true n).
Qed.

Lemma run_wf ast : wf (visit ast (new_Visitor new_PDGGenerator)).
Proof. apply visit_wf, wf_new. Qed.

Lemma call_then_assign_eq f a la s :
  call_then_assign f a la s =
  let s1 := (visit_FuncCall f a s).2 in
  let s2 := (add_node la "assign" s1).2 in
  (nid_of (counter s1),
   pdg_add_edge (nid_of (counter s1)) (nid_of (counter s)) "data" s2).
Proof. done. Qed.

Lemma visit_FuncCall_defs f a s : defs (visit_FuncCall f a s).2 = defs s.
Proof. apply add_node_defs. Qed.

Lemma visit_FuncCall_counter f a s :
  counter (visit_FuncCall f a s).2 = S (counter s).
Proof. apply add_node_counter. Qed.

(** [visit_Decl] never writes [last_assignment]. *)
Lemma visit_Decl_defs name init s : defs (visit_Decl name init s) = defs s.
Proof.
  destruct init as [init|]; [|apply add_node_defs].
  destruct (is_call init) eqn:E.
  - destruct init as [| | | | |f a| | | | |]; try discriminate E.
    rewrite visit_Decl_call, call_then_assign_eq. cbv zeta.
    change (defs (add_node (name +:+ " = [call]") "assign"
                   (visit_FuncCall f a
                      (add_node ("Decl " +:+ name) "decl" s).2).2).2 = defs s).
    by rewrite add_node_defs, visit_FuncCall_defs, add_node_defs.
  - rewrite visit_Decl_other by done. by rewrite !add_node_defs.
Qed.

(** [generic_visit] of a bare identifier visits its children: none. *)
Lemma generic_visit_ID name s : generic_visit (ID name) s = s.
Proof. done. Qed.

(** C1 (the code departs from the claim).  The claim: a declaration with an
    initializer records the variable in the last-assignment map, so that
    [return x] after [int x = 5] emits a node "Use x" with a data edge from
    the [assign] node.  The code: [visit_Decl] leaves the map as it was,
    for every declaration; [visit_Return] calls [generic_visit] on the
    expression, which for a bare identifier visits no node; and the run on
    the scenario ends with three nodes ([decl], [assign], [return]) chained
    by two control edges, an empty map, no [use] node and no data edge. *)
Theorem decl_then_return_emits_no_use :
  (∀ name init s, defs (visit_Decl name init s) = defs s) ∧
  (∀ name s,
     visit (Return (Some (ID name))) s =
     (add_node ("Return " +:+ name) "return" s).2) ∧
  let g := (run decl_then_return).1 in
  let gen := (run decl_then_return).2 in
  node_id gen = 3 ∧
  last_assignment gen = ∅ ∧
  dom (nx.nodes g) = {["n0"; "n1"; "n2"]} ∧
  (nx.node_type g "n0", nx.node_label g "n0") = (Some "decl", Some "Decl x") ∧
  (nx.node_type g "n1", nx.node_label g "n1") = (Some "assign", Some "x = 5") ∧
  (nx.node_type g "n2", nx.node_label g "n2") = (Some "return", Some "Return x") ∧
  nx.nodes_of_type g "use" = [] ∧
  nx.edges_of_type g "data" = [] ∧
  dom (nx.adj g) = {[("n0", "n1"); ("n1", "n2")]} ∧
  nx.edge_type g "n0" "n1" = Some "control" ∧
  nx.edge_type g "n1" "n2" = Some "control".
Proof.
  split; [apply visit_Decl_defs|]. split; [done|].
  vm_compute. repeat split; reflexivity.
Qed.

(* ===================================================================== *)
(** * The control-edge skeleton (C3) *)




(* ===================================================================== *)
(** * One edge per ordered pair (C4) *)

Lemma visit_ID_eq name def s :
  defs s !! name = Some def →
  visit_ID name s =
  pdg_add_edge def (nid_of (counter s)) "data"
    (add_node ("Use " +:+ name) "use" s).2.
Proof. intros E. unfold visit_ID. by rewrite E. Qed.

(** C4, counterexample: in the run on [x = x + 1], [add_node] links the
    [assign] node n0 to the new node n1 ("Use x") by a control edge; the data
    edge [visit_ID] then adds between the same pair takes its place, and the
    finished graph has the data edge and no control edge. *)
Lemma data_edge_replaces_control_edge :
  let s0 := new_Visitor new_PDGGenerator in
  let s1 := assign_node "=" (ID "x") (BinaryOp "+" (ID "x") (Constant "1")) s0 in
  let s2 := (add_node "Use x" "use" s1).2 in
  let g := (run self_increment).1 in
  nx.edge_type (graph s2) "n0" "n1" = Some "control" ∧
  g = graph (pdg_add_edge "n0" "n1" "data" s2) ∧
  nx.edges_of_type g "data" = [("n0", "n1")] ∧
  ¬ ((("n0", "n1") : string * string) ∈ nx.edges_of_type g "control" ∧
     (("n0", "n1") : string * string) ∈ nx.edges_of_type g "data").
Proof.
  split; [by vm_compute|]. split; [by vm_compute|]. split; [by vm_compute|].
  intros [H _]. vm_compute in H. by apply elem_of_nil in H.
Qed.

(** C4, amended: the graph holds one edge per ordered pair, with one kind.
    When [visit_ID] finds a definition [def] for the name, the edge from
    [def] to the new [use] node ends as a data edge and as nothing else; if
    [def] is the node that was current, this edge is the control edge
    [add_node] had just added, overwritten.  The edges between all other
    ordered pairs are as [add_node] left them. *)
Theorem use_edge_is_data_only (name def : string) (s : Visitor) :
  defs s !! name = Some def →
  let use := nid_of (counter s) in
  let s1 := (add_node ("Use " +:+ name) "use" s).2 in
  let s2 := visit_ID name s in
  (current_node s = Some def →
   nx.edge_type (graph s1) def use = Some "control") ∧
  nx.edge_type (graph s2) def use = Some "data" ∧
  (∀ k, (def, use) ∈ nx.edges_of_type (graph s2) k → k = "data") ∧
  (∀ u v, (u, v) ≠ (def, use) →
     nx.edge_type (graph s2) u v = nx.edge_type (graph s1) u v).
Proof.
  intros E. cbv zeta. rewrite (visit_ID_eq _ _ _ E).
  split; [apply add_node_edge_new|].
  split; [apply edge_type_add_edge_eq|]. split.
  - intros k Hk%elem_of_edges_of_type. simpl in Hk.
    rewrite edge_type_add_edge_eq in Hk. congruence.
  - intros u v Hne. simpl. by rewrite edge_type_add_edge_ne.
Qed.

Lemma use_edge_is_data_only_witness :
  let s := assign_node "=" (ID "x") (BinaryOp "+" (ID "x") (Constant "1"))
             (new_Visitor new_PDGGenerator) in
  let use := nid_of (counter s) in
  let s1 := (add_node ("Use " +:+ "x") "use" s).2 in
  let s2 := visit_ID "x" s in
  (current_node s = Some "n0" →
   nx.edge_type (graph s1) "n0" use = Some "control") ∧
  nx.edge_type (graph s2) "n0" use = Some "data" ∧
  (∀ k, ("n0", use) ∈ nx.edges_of_type (graph s2) k → k = "data") ∧
  (∀ u v, (u, v) ≠ ("n0", use) →
     nx.edge_type (graph s2) u v = nx.edge_type (graph s1) u v).
Proof.
  apply (use_edge_is_data_only "x" "n0"
           (assign_node "=" (ID "x") (BinaryOp "+" (ID "x") (Constant "1"))
              (new_Visitor new_PDGGenerator))).
  vm_compute. reflexivity.
Defined.

(* ===================================================================== *)
(** * Conditionals (C6, C10) *)

Lemma visit_If_after_iftrue cond iftrue iffalse s :
  visit (If cond iftrue iffalse) s =
  match iffalse with
  | Some b => if_branch (nid_of (counter s)) (visit b) (after_iftrue cond iftrue s)
  | None => after_iftrue cond iftrue s
  end.
Proof. done. Qed.

(** One branch: it ends at some node [e], and the [if] node is linked to
    [e] by a control edge; the cursor is back where it was. *)
Lemma if_branch_spec cond_nid b s c0 :
  wf s → current_node s = Some c0 →
  nx.node_type (graph s) cond_nid = Some "if" →
  let s' := if_branch cond_nid (visit b) s in
  steps true s s' ∧
  current_node s' = Some c0 ∧
  ∃ e, current_node (visit b (branch_entry cond_nid s)) = Some e ∧
       nx.edge_type (graph s') cond_nid e = Some "control".
Proof.
  intros Hwf Hc0 Hty. cbv zeta. split; [|split].
  - eapply if_branch_steps; [done..|].
    intros s' Hs'. by apply (visit_steps true b).
  - by rewrite if_branch_current.
  - assert (wf (branch_entry cond_nid s)) as Hwf1.
    { apply wf_set_current_node; [done|]. by eapply node_type_dom. }
    destruct (steps_is_Some_current true (branch_entry cond_nid s)
                (visit b (branch_entry cond_nid s))) as [e He];
      [done|by apply (visit_steps true b)|done|].
    exists e. split; [done|]. unfold if_branch.
    change (set_current_node (Some cond_nid) s) with (branch_entry cond_nid s).
    rewrite He. simpl. apply edge_type_add_edge_eq.
Qed.

(** What [visit_If] does, from a well-formed state. *)
Lemma visit_If_spec cond iftrue iffalse s :
  wf s →
  let cond_nid := nid_of (counter s) in
  let s1 := (if_node cond s).2 in
  let s2 := after_iftrue cond iftrue s in
  let s' := visit (If cond iftrue iffalse) s in
  wf s' ∧
  wf (branch_entry cond_nid s1) ∧
  wf (branch_entry cond_nid s2) ∧
  nx.node_type (graph s') cond_nid = Some "if" ∧
  (∀ b, iftrue = Some b →
     ∃ e, current_node (visit b (branch_entry cond_nid s1)) = Some e ∧
          nx.edge_type (graph s') cond_nid e = Some "control") ∧
  (∀ b, iffalse = Some b →
     ∃ e, current_node (visit b (branch_entry cond_nid s2)) = Some e ∧
          nx.edge_type (graph s') cond_nid e = Some "control") ∧
  current_node s' = Some cond_nid.
Proof.
  intros Hwf. cbv zeta. rewrite visit_If_after_iftrue.
  set (cond_nid := nid_of (counter s)).
  unfold after_iftrue, if_node.
  set (s1 := (add_node _ "if" s).2).
  change (let '(cond_nid, s1) := add_node ("If " +:+ get_text cond +:+ "?") "if" s in
          match iftrue with
          | Some b => if_branch cond_nid (visit b) s1
          | None => s1
          end)
    with (match iftrue with
          | Some b => if_branch cond_nid (visit b) s1
          | None => s1
          end).
  set (s2 := match iftrue with
             | Some b => if_branch cond_nid (visit b) s1
             | None => s1
             end).
  assert (wf s1) as Hwf1 by by apply wf_add_node.
  assert (nx.node_type (graph s1) cond_nid = Some "if") as Hty1
    by by apply add_node_type_new.
  assert (current_node s1 = Some cond_nid) as Hcur1 by done.
  assert (steps true s1 s2 ∧ current_node s2 = Some cond_nid ∧
          ∀ b, iftrue = Some b →
            ∃ e, current_node (visit b (branch_entry cond_nid s1)) = Some e ∧
                 nx.edge_type (graph s2) cond_nid e = Some "control")
    as (H12 & Hcur2 & Ht).
  { subst s2. destruct iftrue as [b|]; [|by split].
    destruct (if_branch_spec cond_nid b s1 cond_nid Hwf1 Hcur1 Hty1)
      as (? & ? & ?).
    split; [done|]. split; [done|]. by intros ? [= <-]. }
  assert (wf s2) as Hwf2 by eauto using steps_wf.
  assert (nx.node_type (graph s2) cond_nid = Some "if") as Hty2
    by by apply (steps_node_type true s1).
  set (s' := match iffalse with
             | Some b => if_branch cond_nid (visit b) s2
             | None => s2
             end).
  assert (steps true s2 s' ∧ current_node s' = Some cond_nid ∧
          ∀ b, iffalse = Some b →
            ∃ e, current_node (visit b (branch_entry cond_nid s2)) = Some e ∧
                 nx.edge_type (graph s') cond_nid e = Some "control")
    as (H2' & Hcur' & Hf).
  { subst s'. destruct iffalse as [b|]; [|by split].
    destruct (if_branch_spec cond_nid b s2 cond_nid Hwf2 Hcur2 Hty2)
      as (? & ? & ?).
    split; [done|]. split; [done|]. by intros ? [= <-]. }
  split; [by eauto using steps_wf|].
  split; [apply wf_set_current_node; eauto using node_type_dom|].
  split; [apply wf_set_current_node; eauto using node_type_dom|].
  split; [by apply (steps_node_type true s2)|].
  split; [|done].
  intros b Hb. destruct (Ht b Hb) as (e & He & Hedge).
  exists e. split; [done|].
  by apply (steps_control_edge true s2 s' cond_nid e "if").
Qed.

(** C6, counterexample: in [{ y = 1; if (c) { z = 2; } w = 3; }] the node
    current before the conditional is n0 ("y = 1"), the [if] node is n1 and
    the statement after the conditional is n3 ("w = 3").  The control edge
    into n3 comes from the [if] node n1, and there is no edge from the
    pre-conditional current node n0 to n3. *)
Lemma next_statement_hangs_off_if_node :
  let s0 := visit (Assignment "=" (ID "y") (Constant "1"))
              (new_Visitor new_PDGGenerator) in
  let g := (run conditional_then_statement).1 in
  current_node s0 = Some "n0" ∧
  nx.node_type g "n1" = Some "if" ∧
  nx.node_label g "n3" = Some "w = 3" ∧
  nx.edge_type g "n1" "n3" = Some "control" ∧
  nx.edge_type g "n0" "n3" = None ∧
  ¬ (nx.edge_type g "n0" "n3" = Some "control").
Proof. vm_compute. repeat split; (reflexivity || discriminate). Qed.

(** C6, amended: from a well-formed state, each present branch of a
    conditional is entered with the cursor on the [if] node (so the branches
    do not chain off each other), the finished graph has a control edge
    from the [if] node to the node each present branch ends at, and after
    the conditional the cursor is the [if] node itself (the value saved
    after the [if] node was created and restored at each branch exit): the
    node created next receives one edge, a control edge from the [if] node,
    and none from a node inside a branch or from the node that was current
    before the conditional. *)
Theorem conditional_control_edges
    (cond : node) (iftrue iffalse : option node) (s : Visitor) :
  wf s →
  let cond_nid := nid_of (counter s) in
  let s1 := (if_node cond s).2 in
  let s2 := after_iftrue cond iftrue s in
  let s' := visit (If cond iftrue iffalse) s in
  nx.node_type (graph s') cond_nid = Some "if" ∧
  (∀ b, iftrue = Some b →
     current_node (branch_entry cond_nid s1) = Some cond_nid ∧
     ∃ e, current_node (visit b (branch_entry cond_nid s1)) = Some e ∧
          nx.edge_type (graph s') cond_nid e = Some "control") ∧
  (∀ b, iffalse = Some b →
     current_node (branch_entry cond_nid s2) = Some cond_nid ∧
     ∃ e, current_node (visit b (branch_entry cond_nid s2)) = Some e ∧
          nx.edge_type (graph s') cond_nid e = Some "control") ∧
  current_node s' = Some cond_nid ∧
  (∀ l k u t,
     nx.edge_type (graph (add_node l k s').2) u (nid_of (counter s')) = Some t
     ↔ u = cond_nid ∧ t = "control").
Proof.
  intros Hwf.
  destruct (visit_If_spec cond iftrue iffalse s Hwf)
    as (Hwf' & _ & _ & Hty & Ht & Hf & Hcur).
  cbv zeta. split; [done|]. split; [by split; [|apply Ht]|].
  split; [by split; [|apply Hf]|]. split; [done|].
  intros l k u t. split.
  - intros [(Hu & _ & ->)|He]%add_node_edge_inv.
    + split; [|done]. rewrite Hcur in Hu. congruence.
    + apply edge_type_dom, (wf_edges _ Hwf') in He as [_ He].
      by apply wf_fresh in He.
  - intros [-> ->]. by apply add_node_edge_new.
Qed.

Lemma conditional_control_edges_witness :
  let cond := ID "c" in
  let iftrue := Some (Compound (Some [Assignment "=" (ID "z") (Constant "2")])) in
  let iffalse := @None node in
  let s := visit (Assignment "=" (ID "y") (Constant "1"))
             (new_Visitor new_PDGGenerator) in
  let cond_nid := nid_of (counter s) in
  let s1 := (if_node cond s).2 in
  let s2 := after_iftrue cond iftrue s in
  let s' := visit (If cond iftrue iffalse) s in
  nx.node_type (graph s') cond_nid = Some "if" ∧
  (∀ b, iftrue = Some b →
     current_node (branch_entry cond_nid s1) = Some cond_nid ∧
     ∃ e, current_node (visit b (branch_entry cond_nid s1)) = Some e ∧
          nx.edge_type (graph s') cond_nid e = Some "control") ∧
  (∀ b, iffalse = Some b →
     current_node (branch_entry cond_nid s2) = Some cond_nid ∧
     ∃ e, current_node (visit b (branch_entry cond_nid s2)) = Some e ∧
          nx.edge_type (graph s') cond_nid e = Some "control") ∧
  current_node s' = Some cond_nid ∧
  (∀ l k u t,
     nx.edge_type (graph (add_node l k s').2) u (nid_of (counter s')) = Some t
     ↔ u = cond_nid ∧ t = "control").
Proof.
  apply (conditional_control_edges (ID "c")
           (Some (Compound (Some [Assignment "=" (ID "z") (Constant "2")])))
           None
           (visit (Assignment "=" (ID "y") (Constant "1"))
              (new_Visitor new_PDGGenerator))).
  apply visit_wf, wf_new.
Defined.

(** ** Traversals that emit no node *)

Lemma grows_quiet f : grows f → quiet f.
Proof. intros H s Hwf. destruct (H s Hwf). split; [done|split; lia]. Qed.

Lemma quiet_id : quiet (λ s, s).
Proof. by intros s Hwf. Qed.

Lemma quiet_compose f g : quiet f → quiet g → quiet (λ s, g (f s)).
Proof.
  intros Hf Hg s Hwf. destruct (Hf s Hwf) as (Hwf1 & Hle1 & Hcur1).
  destruct (Hg (f s) Hwf1) as (Hwf2 & Hle2 & Hcur2).
  split; [done|]. split; [lia|]. intros E.
  rewrite Hcur2, Hcur1; (done || lia).
Qed.

Lemma grows_compose f g : grows f → quiet g → grows (λ s, g (f s)).
Proof.
  intros Hf Hg s Hwf. destruct (Hf s Hwf) as (Hwf1 & Hlt).
  destruct (Hg (f s) Hwf1) as (Hwf2 & Hle2 & _). split; [done|lia].
Qed.

Lemma quiet_child (o : option node) :
  on_child (λ c, quiet (visit c)) o →
  quiet (λ s, match o with Some c => visit c s | None => s end).
Proof. destruct o; simpl; [done|]. intros _. apply quiet_id. Qed.

Lemma quiet_foldl (l : list node) :
  Forall (λ c, quiet (visit c)) l →
  quiet (λ s, foldl (λ s c, visit c s) s l).
Proof.
  induction 1 as [|c l Hc _ IH]; simpl; [apply quiet_id|].
  by apply (quiet_compose (visit c) (λ s, foldl (λ s c, visit c s) s l)).
Qed.

Lemma grows_add_node l k : grows (λ s, (add_node l k s).2).
Proof.
  intros s Hwf. split; [by apply wf_add_node|]. rewrite add_node_counter. lia.
Qed.

Lemma grows_steps (f g : Visitor → Visitor) :
  grows f → (∀ s, wf s → steps true (f s) (g s)) → grows g.
Proof.
  intros Hf Hs s Hwf. destruct (Hf s Hwf) as [Hwf1 Hlt].
  pose proof (Hs s Hwf) as H. split; [by apply (steps_wf true (f s))|].
  pose proof (steps_counter _ _ _ Hwf1 H). lia.
Qed.

Lemma grows_visit_Decl name init : grows (visit_Decl name init).
Proof.
  apply (grows_steps (λ s, (add_node ("Decl " +:+ name) "decl" s).2));
    [apply grows_add_node|].
  intros s Hwf.
  assert (wf (add_node ("Decl " +:+ name) "decl" s).2) as H1
    by by apply wf_add_node.
  destruct init as [init|]; [|done].
  destruct (is_call init) eqn:E.
  - destruct init as [| | | | |f a| | | | |]; try discriminate E.
    rewrite visit_Decl_call. by apply call_then_assign_spec.
  - rewrite visit_Decl_other by done. apply steps_add_node.
Qed.

Lemma grows_assign_node op l r : grows (assign_node op l r).
Proof.
  intros s Hwf.
  split; [apply (steps_wf true s); [done|by apply steps_assign_node]|].
  destruct (is_call r) eqn:E.
  - destruct r as [| | | | |f a| | | | |]; try discriminate E.
    rewrite assign_node_call, call_then_assign_eq. cbv zeta.
    change (counter s <
            counter (add_node (get_text l +:+ " " +:+ op +:+ " [call]")
                       "assign" (visit_FuncCall f a s).2).2).
    rewrite add_node_counter, visit_FuncCall_counter. lia.
  - rewrite assign_node_other by done.
    change (counter s <
            counter (add_node
                       (get_text l +:+ " " +:+ op +:+ " " +:+ get_text r)
                       "assign" s).2).
    rewrite add_node_counter. lia.
Qed.

Lemma quiet_visit_ID name : quiet (visit_ID name).
Proof.
  intros s Hwf. destruct (defs s !! name) as [def|] eqn:E.
  - rewrite (visit_ID_eq _ _ _ E).
    assert (counter (pdg_add_edge def (nid_of (counter s)) "data"
                       (add_node ("Use " +:+ name) "use" s).2)
            = S (counter s)) as Hc
      by apply add_node_counter.
    split; [|lia]. rewrite <-(visit_ID_eq _ _ _ E).
    apply (steps_wf true s); [done|]. by apply steps_visit_ID.
  - unfold visit_ID. rewrite E. by apply quiet_id.
Qed.

Lemma grows_visit_If cond iftrue iffalse : grows (visit (If cond iftrue iffalse)).
Proof.
  intros s Hwf.
  destruct (visit_If_spec cond iftrue iffalse s Hwf) as (Hwf' & _ & _ & Hty & _).
  split; [done|].
  apply node_type_dom, (wf_nodes _ Hwf') in Hty as (j & Hj & E).
  apply nid_of_inj in E. lia.
Qed.

(** A traversal that emits no node leaves the cursor where it was. *)
Lemma visit_quiet n : quiet (visit n) ∧ quiet (generic_visit n).
Proof.
  induction n as
    [value|name|op l r IHl IHr|op e IHe|op l r IHl IHr|name args IHn IHa
    |name type init bitsize IHt IHi IHb|cond iftrue iffalse IHc IHt IHf
    |expr IHe|block_items IHb|cs IHcs] using node_ind.
  - split; apply quiet_id.
  - split; [apply quiet_visit_ID|apply quiet_id].
  - destruct IHl as [IHl _], IHr as [IHr _].
    split; apply (quiet_compose (visit l) (visit r)); done.
  - destruct IHe as [IHe _]. by split.
  - destruct IHl as [IHl _], IHr as [IHr IHr'].
    split; [|by apply (quiet_compose (visit l) (visit r))].
    apply grows_quiet,
      (grows_compose (assign_node op l r) (generic_visit r));
      [apply grows_assign_node|done].
  - split; [apply grows_quiet, grows_add_node|].
    destruct IHn as [IHn _].
    apply (quiet_compose (visit name)
             (λ s, match args with
                   | Some exprs => foldl (λ self c, visit c self) s exprs
                   | None => s
                   end)); [done|].
    destruct args as [exprs|]; [|apply quiet_id]. simpl in IHa.
    apply quiet_foldl. eapply Forall_impl; [exact IHa|]. by intros c [? _].
  - split; [apply grows_quiet, grows_visit_Decl|].
    assert (∀ o, on_child (λ c, quiet (visit c) ∧ quiet (generic_visit c)) o →
                 quiet (λ s, match o with Some c => visit c s | None => s end))
      as Hvo.
    { intros [c|]; simpl; [by intros [? _]|intros _; apply quiet_id]. }
    apply (quiet_compose
             (λ s, match init with
                   | Some c => visit c (match type with
                                        | Some c => visit c s | None => s end)
                   | None => match type with
                             | Some c => visit c s | None => s end
                   end)
             (λ s, match bitsize with Some c => visit c s | None => s end));
      [|by apply Hvo].
    apply (quiet_compose
             (λ s, match type with Some c => visit c s | None => s end)
             (λ s, match init with Some c => visit c s | None => s end));
      by apply Hvo.
  - split; [apply grows_quiet, grows_visit_If|].
    assert (∀ o, on_child (λ c, quiet (visit c) ∧ quiet (generic_visit c)) o →
                 quiet (λ s, match o with Some c => visit c s | None => s end))
      as Hvo.
    { intros [c|]; simpl; [by intros [? _]|intros _; apply quiet_id]. }
    destruct IHc as [IHc _].
    apply (quiet_compose
             (λ s, match iftrue with
                   | Some c => visit c (visit cond s)
                   | None => visit cond s
                   end)
             (λ s, match iffalse with Some c => visit c s | None => s end));
      [|by apply Hvo].
    apply (quiet_compose (visit cond)
             (λ s, match iftrue with Some c => visit c s | None => s end));
      [done|by apply Hvo].
  - split.
    + apply grows_quiet,
        (grows_compose (λ s, (add_node (return_label expr) "return" s).2)
           (λ s, match expr with Some e => generic_visit e s | None => s end));
        [apply grows_add_node|].
      destruct expr as [e|]; [by destruct IHe|apply quiet_id].
    + destruct expr as [e|]; [by destruct IHe|apply quiet_id].
  - assert (quiet (λ s, match block_items with
                        | Some stmts => foldl (λ self c, visit c self) s stmts
                        | None => s
                        end)); [|done].
    destruct block_items as [stmts|]; [|apply quiet_id]. simpl in IHb.
    apply quiet_foldl. eapply Forall_impl; [exact IHb|]. by intros c [? _].
  - assert (quiet (λ s, foldl (λ self c, visit c self) s cs)); [|done].
    apply quiet_foldl. eapply Forall_impl; [exact IHcs|]. by intros c [? _].
Qed.

(** C10: when a branch of a conditional is present and its visit emits no
    node, the finished graph has a control edge from the [if] node to
    itself. *)
Theorem empty_branch_adds_self_loop
    (cond : node) (iftrue iffalse : option node) (s : Visitor) :
  wf s →
  let cond_nid := nid_of (counter s) in
  let s1 := (if_node cond s).2 in
  let s2 := after_iftrue cond iftrue s in
  (∃ b, iftrue = Some b ∧
        counter (visit b (branch_entry cond_nid s1))
        = counter (branch_entry cond_nid s1)) ∨
  (∃ b, iffalse = Some b ∧
        counter (visit b (branch_entry cond_nid s2))
        = counter (branch_entry cond_nid s2)) →
  nx.node_type (graph (visit (If cond iftrue iffalse) s)) cond_nid = Some "if" ∧
  nx.edge_type (graph (visit (If cond iftrue iffalse) s)) cond_nid cond_nid
  = Some "control".
Proof.
  intros Hwf.
  destruct (visit_If_spec cond iftrue iffalse s Hwf)
    as (Hwf' & Hwf1 & Hwf2 & Hty & Ht & Hf & Hcur).
  cbv zeta. intros Hb. split; [done|].
  destruct Hb as [(b & Hb & Hn)|(b & Hb & Hn)].
  - destruct (Ht b Hb) as (e & He & Hedge).
    destruct (visit_quiet b) as [Hq _].
    destruct (Hq _ Hwf1) as (_ & _ & Hsame).
    rewrite (Hsame Hn) in He. simpl in He. by injection He as <-.
  - destruct (Hf b Hb) as (e & He & Hedge).
    destruct (visit_quiet b) as [Hq _].
    destruct (Hq _ Hwf2) as (_ & _ & Hsame).
    rewrite (Hsame Hn) in He. simpl in He. by injection He as <-.
Qed.

(** [if (c) ;] at the start of a run: the branch is an empty statement. *)
Lemma empty_branch_adds_self_loop_witness :
  nx.node_type (graph (visit (If (ID "c") (Some (Other [])) None)
                         (new_Visitor new_PDGGenerator))) "n0" = Some "if" ∧
  nx.edge_type (graph (visit (If (ID "c") (Some (Other [])) None)
                         (new_Visitor new_PDGGenerator))) "n0" "n0"
  = Some "control".
Proof.
  apply (empty_branch_adds_self_loop (ID "c") (Some (Other [])) None
           (new_Visitor new_PDGGenerator) wf_new).
  left. exists (Other []). split; reflexivity.
Defined.

(* ===================================================================== *)
(** * Two runs on one generator (C7) *)

(** C7, counterexample: [generate] twice on the same generator object, on
    the tree of [return;].  The first run creates n0.  The second run
    starts with the graph, counter and map the first one left: it creates
    n1 next to n0. *)
Lemma second_run_is_not_fresh :
  let ast := Return None in
  let gen1 := (generate ast new_PDGGenerator).2 in
  let gen2 := (generate ast gen1).2 in
  node_id gen1 = 1 ∧
  dom (nx.nodes (pdg gen1)) = {["n0"]} ∧
  node_id gen2 = 2 ∧
  dom (nx.nodes (pdg gen2)) = {["n0"; "n1"]} ∧
  ¬ starts_fresh ast gen1.
Proof.
  cbv zeta. split; [by vm_compute|]. split; [by vm_compute|].
  split; [by vm_compute|]. split; [by vm_compute|].
  unfold starts_fresh. intros H.
  apply (f_equal (λ r, node_id r.2)) in H. vm_compute in H. discriminate H.
Qed.

(** C7, amended: the state is fresh when the generator object is
    constructed (empty graph, counter zero, empty map), and [generate]
    starts from the state the generator object holds, with no current node.
    So a run on a newly constructed generator starts fresh, and a second
    run on the same object continues the first: the graph it returns is the
    generator's one graph, it keeps the nodes, the edges and the map entries
    of the first run, and its new nodes take the ids from the first run's
    counter on. *)
Theorem second_run_continues_first (ast1 ast2 : node) :
  let gen1 := (generate ast1 new_PDGGenerator).2 in
  let g2 := (generate ast2 gen1).1 in
  let gen2 := (generate ast2 gen1).2 in
  (pdg new_PDGGenerator = nx.empty ∧ node_id new_PDGGenerator = 0 ∧
   last_assignment new_PDGGenerator = ∅) ∧
  generate ast2 gen1 =
    (let v := visit ast2 {| outer := gen1; current_node := None |} in
     (pdg (outer v), outer v)) ∧
  g2 = pdg gen2 ∧
  node_id gen1 ≤ node_id gen2 ∧
  dom (nx.nodes (pdg gen1)) ⊆ dom (nx.nodes g2) ∧
  dom (nx.adj (pdg gen1)) ⊆ dom (nx.adj g2) ∧
  dom (last_assignment gen1) ⊆ dom (last_assignment gen2) ∧
  (∀ u, u ∈ dom (nx.nodes g2) ∖ dom (nx.nodes (pdg gen1)) ↔
        ∃ j, node_id gen1 ≤ j < node_id gen2 ∧ u = nid_of j).
Proof.
  cbv zeta. rewrite !generate_visit. simpl fst. simpl snd.
  set (s1 := visit ast1 (new_Visitor new_PDGGenerator)).
  assert (wf s1) as Hwf1 by apply run_wf.
  assert (wf (new_Visitor (outer s1))) as Hwf1' by by apply wf_restart.
  set (s2 := visit ast2 (new_Visitor (outer s1))).
  assert (steps true (new_Visitor (outer s1)) s2) as Hs
    by by apply (visit_steps true ast2).
  assert (wf s2) as Hwf2 by eauto using steps_wf.
  split; [done|]. split; [done|]. split; [done|].
  split; [apply (steps_counter _ _ _ Hwf1' Hs)|].
  split; [intros u; apply (steps_nodes _ _ _ u Hwf1' Hs)|].
  split; [apply (steps_edges _ _ _ Hwf1' Hs)|].
  split; [apply (steps_defs _ _ _ Hwf1' Hs)|].
  intros u. rewrite elem_of_difference, (wf_nodes _ Hwf2), (wf_nodes _ Hwf1).
  pose proof (steps_counter _ _ _ Hwf1' Hs) as Hle. simpl in Hle. split.
  - intros [(j & Hj & ->) Hn]. exists j. split; [|done].
    split; [|done]. destruct (decide (counter s1 ≤ j)); [done|].
    exfalso. apply Hn. exists j. split; [lia|done].
  - intros (j & Hj & ->). split; [exists j; split; [lia|done]|].
    intros (j' & Hj' & E%nid_of_inj). lia.
Qed.

(* ===================================================================== *)
(** * Histograms and the similarity of a round *)

Lemma nat_ratio_range (i u : nat) :
  i ≤ u → 0 < u →
  (0 <= inject_Z (Z.of_nat i) / inject_Z (Z.of_nat u) <= 1)%Q.
Proof.
  intros Hiu Hu.
  assert (0 < inject_Z (Z.of_nat u))%Q as Hpos
    by (rewrite <-(Zlt_Qlt 0); lia).
  split.
  - apply Qle_shift_div_l; [done|]. rewrite Qmult_0_l, <-(Zle_Qle 0). lia.
  - apply Qle_shift_div_r; [done|]. rewrite Qmult_1_l, <-Zle_Qle. lia.
Qed.

Lemma nat_ratio_same (u : nat) :
  0 < u → (inject_Z (Z.of_nat u) / inject_Z (Z.of_nat u) == 1)%Q.
Proof.
  intros Hu. apply Qmult_inv_r. intros H.
  assert (0 < inject_Z (Z.of_nat u))%Q as Hpos
    by (rewrite <-(Zlt_Qlt 0); lia).
  rewrite H in Hpos. by apply Qlt_irrefl in Hpos.
Qed.

Lemma sum_min_le_sum_max (h1 h2 : Counter) (ls : list string) :
  sum_list_with (λ l, count h1 l `min` count h2 l) ls
  ≤ sum_list_with (λ l, count h1 l `max` count h2 l) ls.
Proof. induction ls as [|l ls IH]; simpl; lia. Qed.

(** The similarity of a round is between 0 and 1, whatever the two
    histograms. *)
Lemma round_similarity_range (h1 h2 : Counter) :
  (0 <= round_similarity h1 h2 <= 1)%Q.
Proof.
  unfold round_similarity. cbv zeta. case_decide as Hu; [|done].
  apply nat_ratio_range; [apply sum_min_le_sum_max|done].
Qed.

(** The similarity of a histogram with itself is 1. *)
Lemma round_similarity_same (h : Counter) :
  nonzero h → (round_similarity h h == 1)%Q.
Proof.
  intros (l & Hl & Hc). unfold round_similarity. cbv zeta.
  assert (∀ ls, sum_list_with (λ l, count h l `min` count h l) ls
                = sum_list_with (λ l, count h l `max` count h l) ls) as ->.
  { induction ls as [|x ls IH]; simpl; [done|]. rewrite IH. lia. }
  assert (count h l `max` count h l ≤
          sum_list_with (λ l, count h l `max` count h l)
            (elements (dom h ∪ dom h))) as Hle.
  { apply (sum_list_with_in l (λ l, count h l `max` count h l)).
    apply elem_of_elements. set_solver. }
  rewrite decide_True by lia. apply nat_ratio_same. lia.
Qed.

Lemma Counter_of_foldl (labels : list string) (c : Counter) :
  let c' := foldl (λ c x, <[x := S (default 0 (c !! x))]> c) c labels in
  (positive_counts c → positive_counts c') ∧ dom c ⊆ dom c'.
Proof.
  revert c. induction labels as [|x labels IH]; intros c; simpl; [done|].
  destruct (IH (<[x := S (default 0 (c !! x))]> c)) as [IH1 IH2]. split.
  - intros Hc. apply IH1. intros l n. rewrite lookup_insert.
    case_decide; [intros [= <-]; lia|apply Hc].
  - etrans; [|exact IH2]. rewrite dom_insert_L. set_solver.
Qed.

Lemma Counter_of_nonzero (labels : list string) :
  labels ≠ [] → nonzero (Counter_of labels).
Proof.
  destruct labels as [|x labels]; [done|]. intros _.
  unfold Counter_of. simpl.
  set (c0 := <[x := S (default 0 ((∅ : Counter) !! x))]> (∅ : Counter)).
  destruct (Counter_of_foldl labels c0) as [Hpos Hdom]. cbv zeta in *.
  assert (x ∈ dom (foldl (λ c x, <[x := S (default 0 (c !! x))]> c)
                     c0 labels)) as Hx.
  { apply Hdom. subst c0. rewrite dom_insert_L. set_solver. }
  exists x. split; [done|]. apply elem_of_dom in Hx as [n Hn].
  unfold count. rewrite Hn. simpl. apply (Hpos) in Hn; [done|].
  intros l m. subst c0. rewrite lookup_insert.
  case_decide; [intros [= <-]; lia|]. by rewrite lookup_empty.
Qed.

(* ===================================================================== *)
(** * Graphs the kernel runs on *)

Lemma init_wl_label_labelled g : labelled (init_wl_label g).
Proof.
  intros n a. simpl. rewrite lookup_fmap.
  destruct (nx.nodes g !! n) as [a0|]; simpl; [|done].
  intros [= <-]. rewrite lookup_insert_eq. by eexists.
Qed.

Lemma init_wl_label_dom g :
  dom (nx.nodes (init_wl_label g)) = dom (nx.nodes g).
Proof. simpl. by rewrite dom_fmap_L. Qed.

Lemma init_wl_label_closed g : closed g → closed (init_wl_label g).
Proof. intros H u v. rewrite init_wl_label_dom. apply H. Qed.

Lemma init_wl_label_nonempty g : nonempty g → nonempty (init_wl_label g).
Proof.
  unfold nonempty. intros H E. apply H.
  apply (f_equal dom) in E. rewrite init_wl_label_dom, dom_empty_L in E.
  by apply dom_empty_iff_L.
Qed.

Lemma elem_of_node_list g n : n ∈ nx.node_list g ↔ n ∈ dom (nx.nodes g).
Proof.
  unfold nx.node_list. rewrite list_elem_of_fmap, elem_of_dom. split.
  - intros ([n' a] & -> & H%elem_of_map_to_list). by exists a.
  - intros [a H]. exists (n, a). by rewrite elem_of_map_to_list.
Qed.

Lemma node_list_nil g : nx.node_list g = [] → nx.nodes g = ∅.
Proof.
  unfold nx.node_list. intros H%fmap_nil_inv. by apply map_to_list_empty_iff.
Qed.

Lemma wl_label_is_Some g n :
  labelled g → n ∈ dom (nx.nodes g) → is_Some (wl_label g n).
Proof.
  intros Hl [a Ha]%elem_of_dom. unfold wl_label. rewrite Ha. simpl.
  by apply (Hl n).
Qed.

(** On a labelled graph [histogram] succeeds, and counts something when
    the graph has a node. *)
Lemma histogram_total g :
  labelled g → ∃ h, histogram g = Some h ∧ (nonempty g → nonzero h).
Proof.
  intros Hl. unfold histogram.
  destruct (mapM (wl_label g) (nx.node_list g)) as [labels|] eqn:E.
  - exists (Counter_of labels). split; [done|]. intros Hne.
    apply Counter_of_nonzero. intros ->. apply length_mapM in E.
    destruct (nx.node_list g) eqn:E'; [|done]. by apply node_list_nil in E'.
  - exfalso. assert (is_Some (mapM (wl_label g) (nx.node_list g))) as [? ?];
      [|congruence].
    apply mapM_is_Some_2, Forall_forall. intros n Hn%elem_of_node_list.
    by apply wl_label_is_Some.
Qed.

Lemma elem_of_neighbors g n nb :
  nb ∈ nx.neighbors g n → (n, nb) ∈ dom (nx.adj g).
Proof.
  unfold nx.neighbors. rewrite list_elem_of_omap.
  intros ([[u v] a] & Hin & H). simpl in H. case_decide; [|done].
  simplify_eq. apply elem_of_map_to_list in Hin. by apply elem_of_dom.
Qed.

Lemma new_label_total g n :
  labelled g → closed g → n ∈ dom (nx.nodes g) → is_Some (new_label g n).
Proof.
  intros Hl Hc Hn. unfold new_label.
  destruct (wl_label_is_Some g n Hl Hn) as [curr ->]. simpl.
  match goal with |- context [mapM ?f ?l] =>
    assert (is_Some (mapM f l)) as [nbs ->] end; [|by eexists].
  apply mapM_is_Some_2, Forall_forall. intros nb Hnb%elem_of_neighbors.
  apply Hc in Hnb as [_ Hnb]. simpl.
  destruct (wl_label_is_Some g nb Hl Hnb) as [lbl ->]. by eexists.
Qed.

Lemma set_wl_label_dom n lbl g :
  dom (nx.nodes (set_wl_label n lbl g)) = dom (nx.nodes g).
Proof. simpl. by rewrite dom_alter_L. Qed.

Lemma set_wl_label_labelled n lbl g :
  labelled g → labelled (set_wl_label n lbl g).
Proof.
  intros Hl m a. simpl. rewrite lookup_alter. case_decide as E.
  - subst m. destruct (nx.nodes g !! n) as [a0|]; simpl; [|done].
    intros [= <-]. rewrite lookup_insert_eq. by eexists.
  - apply Hl.
Qed.

Lemma apply_labels_spec (new_labels : list (string * string)) g :
  let g' := foldl (λ g (e : string * string), set_wl_label e.1 e.2 g)
                  g new_labels in
  nx.adj g' = nx.adj g ∧ dom (nx.nodes g') = dom (nx.nodes g) ∧
  (labelled g → labelled g').
Proof.
  revert g. induction new_labels as [|[n lbl] ls IH]; intros g; simpl; [done|].
  destruct (IH (set_wl_label n lbl g)) as (Ha & Hd & Hl).
  split; [by rewrite Ha|]. split; [by rewrite Hd, set_wl_label_dom|].
  intros H. by apply Hl, set_wl_label_labelled.
Qed.

(** On a labelled, closed graph [relabel] succeeds and keeps the graph
    labelled and closed, with the same nodes. *)
Lemma relabel_total g :
  labelled g → closed g →
  ∃ g', relabel g = Some g' ∧ labelled g' ∧ closed g' ∧
        (nonempty g → nonempty g').
Proof.
  intros Hl Hc. unfold relabel.
  match goal with |- context [mapM ?f ?l] =>
    assert (is_Some (mapM f l)) as [new_labels ->] end.
  { apply mapM_is_Some_2, Forall_forall. intros n Hn%elem_of_node_list. simpl.
    destruct (new_label_total g n Hl Hc Hn) as [lbl ->]. by eexists. }
  simpl. eexists. split; [done|].
  destruct (apply_labels_spec new_labels g) as (Ha & Hd & Hl').
  split; [by apply Hl'|]. split.
  - intros u v. rewrite Ha, Hd. apply Hc.
  - unfold nonempty. intros Hne E. apply Hne.
    apply (f_equal dom) in E. rewrite Hd, dom_empty_L in E.
    by apply dom_empty_iff_L.
Qed.

(* ===================================================================== *)
(** * The kernel on a heap: both references, aliased or not *)

Lemma heap_ok_insert P G1 G2 G σ g :
  (G = G1 ∨ G = G2) → P g → heap_ok P G1 G2 σ →
  heap_ok P G1 G2 (<[G := g]> σ).
Proof.
  intros HG Hg [(g1 & H1 & Hg1) (g2 & H2 & Hg2)]. split.
  - destruct (decide (G = G1)) as [->|Hne].
    + exists g. by rewrite lookup_insert_eq.
    + exists g1. by rewrite lookup_insert_ne.
  - destruct (decide (G = G2)) as [->|Hne].
    + exists g. by rewrite lookup_insert_eq.
    + exists g2. by rewrite lookup_insert_ne.
Qed.

Lemma heap_ok_lookup P G1 G2 G σ :
  (G = G1 ∨ G = G2) → heap_ok P G1 G2 σ → ∃ g, σ !! G = Some g ∧ P g.
Proof. intros [-> | ->] [H1 H2]; done. Qed.

Lemma on_graph_ok P f G1 G2 G σ :
  (G = G1 ∨ G = G2) →
  (∀ g, P g → ∃ g', f g = Some g' ∧ P g') →
  heap_ok P G1 G2 σ →
  ∃ σ', on_graph f G σ = Some σ' ∧ heap_ok P G1 G2 σ'.
Proof.
  intros HG Hf Hok. destruct (heap_ok_lookup _ _ _ _ _ HG Hok) as (g & Hg & HP).
  destruct (Hf g HP) as (g' & Hg' & HP').
  exists (<[G := g']> σ). unfold on_graph. rewrite Hg. simpl. rewrite Hg'.
  split; [done|]. by apply heap_ok_insert.
Qed.

(** The same update through both references keeps the two graphs equal,
    whether the references are one object or two. *)
Lemma on_graph_both_same f G1 G2 (σ σ1 σ2 : heap) :
  σ !! G1 = σ !! G2 →
  on_graph f G1 σ = Some σ1 → on_graph f G2 σ1 = Some σ2 →
  σ2 !! G1 = σ2 !! G2.
Proof.
  intros Hsame H1 H2. destruct (decide (G1 = G2)) as [->|Hne]; [done|].
  unfold on_graph in *.
  destruct (σ !! G1) as [g|] eqn:E1; [|done]. simpl in H1.
  destruct (f g) as [g'|] eqn:Ef; [|done]. simpl in H1. injection H1 as <-.
  rewrite lookup_insert_ne, <-Hsame in H2 by done. simpl in H2.
  rewrite Ef in H2. simpl in H2. injection H2 as <-.
  rewrite lookup_insert_eq, lookup_insert_ne, lookup_insert_eq by done. done.
Qed.

Lemma read_graph_ok {A} P (Q : A → Prop) (f : nx.DiGraph → option A)
    G1 G2 G σ :
  (G = G1 ∨ G = G2) →
  (∀ g, P g → ∃ a, f g = Some a ∧ Q a) →
  heap_ok P G1 G2 σ →
  ∃ a, read_graph f G σ = Some a ∧ Q a.
Proof.
  intros HG Hf Hok. destruct (heap_ok_lookup _ _ _ _ _ HG Hok) as (g & Hg & HP).
  unfold read_graph. rewrite Hg. by apply Hf.
Qed.

Lemma relabel_ready ne g :
  ready ne g → ∃ g', relabel g = Some g' ∧ ready ne g'.
Proof.
  intros (Hl & Hc & Hne).
  destruct (relabel_total g Hl Hc) as (g' & Hg' & Hl' & Hc' & Hne').
  exists g'. split; [done|]. split; [done|]. split; [done|]. auto.
Qed.

Lemma histogram_ready ne g :
  ready ne g → ∃ h, histogram g = Some h ∧ (ne = true → nonzero h).
Proof.
  intros (Hl & Hc & Hne). destruct (histogram_total g Hl) as (h & Hh & Hnz).
  exists h. split; [done|]. auto.
Qed.

(** The rounds succeed, append one histogram per round to each list, and
    keep the two lists equal when the two graphs are equal. *)
Lemma wl_rounds_spec ne n G1 G2 : ∀ σ H1 H2,
  heap_ok (ready ne) G1 G2 σ →
  ∃ σ' H1' H2',
    wl_rounds n G1 G2 σ H1 H2 = Some (σ', H1', H2') ∧
    heap_ok (ready ne) G1 G2 σ' ∧
    length H1' = length H1 + n ∧ length H2' = length H2 + n ∧
    (Forall (λ h, ne = true → nonzero h) H1 →
     Forall (λ h, ne = true → nonzero h) H1') ∧
    (σ !! G1 = σ !! G2 → H1 = H2 → H1' = H2').
Proof.
  induction n as [|n IH]; intros σ H1 H2 Hok.
  - exists σ, H1, H2. simpl. repeat split; (done || lia || apply Hok).
  - destruct (on_graph_ok (ready ne) relabel G1 G2 G1 σ)
      as (σ1 & E1 & Hok1); [by left|apply relabel_ready|done|].
    destruct (on_graph_ok (ready ne) relabel G1 G2 G2 σ1)
      as (σ2 & E2 & Hok2); [by right|apply relabel_ready|done|].
    destruct (read_graph_ok (ready ne) (λ h, ne = true → nonzero h)
                histogram G1 G2 G1 σ2)
      as (h1 & Eh1 & Hnz1); [by left|apply histogram_ready|done|].
    destruct (read_graph_ok (ready ne) (λ h, ne = true → nonzero h)
                histogram G1 G2 G2 σ2)
      as (h2 & Eh2 & Hnz2); [by right|apply histogram_ready|done|].
    assert (wl_rounds (S n) G1 G2 σ H1 H2 =
            wl_rounds n G1 G2 σ2 (H1 ++ [h1])%list (H2 ++ [h2])%list) as ->.
    { unfold wl_rounds; fold wl_rounds. rewrite E1. simpl. rewrite E2. simpl.
      rewrite Eh1. simpl. by rewrite Eh2. }
    destruct (IH σ2 (H1 ++ [h1])%list (H2 ++ [h2])%list Hok2)
      as (σ' & H1' & H2' & E & Hok' & Hl1 & Hl2 & Hnz & Hsame).
    exists σ', H1', H2'. rewrite length_app in Hl1, Hl2. simpl in Hl1, Hl2.
    split; [done|]. split; [done|]. split; [lia|]. split; [lia|]. split.
    + intros HF. apply Hnz, Forall_app. split; [done|]. by constructor.
    + intros Hσ ->. apply Hsame.
      * by apply (on_graph_both_same relabel G1 G2 σ σ1 σ2).
      * f_equal. f_equal.
        assert (σ2 !! G1 = σ2 !! G2) as Hσ2
          by by apply (on_graph_both_same relabel G1 G2 σ σ1 σ2).
        unfold read_graph in Eh1, Eh2. rewrite Hσ2 in Eh1. congruence.
Qed.

(** The first loop, through both references. *)
Lemma init_both (P0 P1 : nx.DiGraph → Prop) G1 G2 (σ : heap) g1 g2 :
  (∀ g, P0 g → P0 (init_wl_label g) ∧ P1 (init_wl_label g)) →
  σ !! G1 = Some g1 → σ !! G2 = Some g2 → P0 g1 → P0 g2 →
  ∃ σ1 σ2,
    on_graph (λ g, Some (init_wl_label g)) G1 σ = Some σ1 ∧
    on_graph (λ g, Some (init_wl_label g)) G2 σ1 = Some σ2 ∧
    heap_ok P1 G1 G2 σ2 ∧
    (init_wl_label g1 = init_wl_label g2 → σ2 !! G1 = σ2 !! G2).
Proof.
  intros HP E1 E2 H1 H2. unfold on_graph. rewrite E1. simpl.
  set (σ1 := <[G1 := init_wl_label g1]> σ).
  destruct (decide (G1 = G2)) as [<-|Hne].
  - exists σ1, (<[G1 := init_wl_label (init_wl_label g1)]> σ1).
    split; [done|]. split; [by subst σ1; rewrite lookup_insert_eq|].
    split; [|done].
    assert (P1 (init_wl_label (init_wl_label g1))) as HP1
      by (apply HP, HP, H1).
    split; exists (init_wl_label (init_wl_label g1));
      by rewrite lookup_insert_eq.
  - exists σ1, (<[G2 := init_wl_label g2]> σ1).
    split; [done|].
    split; [by subst σ1; rewrite lookup_insert_ne, E2 by done|].
    split; [split|].
    + exists (init_wl_label g1). subst σ1.
      rewrite lookup_insert_ne, lookup_insert_eq by done.
      split; [done|]. by apply HP.
    + exists (init_wl_label g2). rewrite lookup_insert_eq.
      split; [done|]. by apply HP.
    + intros E. subst σ1.
      rewrite lookup_insert_ne, !lookup_insert_eq by done. by rewrite E.
Qed.

Lemma init_preserves ne g :
  closed g ∧ (ne = true → nonempty g) →
  (closed (init_wl_label g) ∧ (ne = true → nonempty (init_wl_label g))) ∧
  ready ne (init_wl_label g).
Proof.
  intros [Hc Hne].
  assert (closed (init_wl_label g)) by by apply init_wl_label_closed.
  assert (ne = true → nonempty (init_wl_label g))
    by (intros; by apply init_wl_label_nonempty, Hne).
  split; [done|]. split; [apply init_wl_label_labelled|done].
Qed.

Lemma wf_closed s : wf s → closed (graph s).
Proof. intros H u v. apply (wf_edges _ H). Qed.



(* ===================================================================== *)
(** * Rounding to the nearest double *)

Section rounding.
Local Open Scope Q_scope.

Lemma rne_comp (v w : Q) : v == w → rne v = rne w.
Proof.
  intros E. unfold rne. rewrite (Qfloor_comp _ _ E).
  assert (v - inject_Z (Qfloor w) == w - inject_Z (Qfloor w)) as E'
    by by rewrite E.
  by rewrite (Qcompare_comp _ _ E' _ _ (Qeq_refl (1 # 2))).
Qed.

Lemma rne_range (v : Q) : (Qfloor v ≤ rne v ≤ Qfloor v + 1)%Z.
Proof.
  unfold rne. destruct (_ ?= _); [destruct (Z.even _)|..]; lia.
Qed.

Lemma rne_Z (n : Z) : rne (inject_Z n) = n.
Proof.
  unfold rne. rewrite Qfloor_Z.
  assert ((inject_Z n - inject_Z n ?= 1 # 2) = Lt) as ->; [|done].
  apply Qlt_alt. unfold Qminus. by rewrite Qplus_opp_r.
Qed.

Lemma rne_mono (v w : Q) : v <= w → (rne v ≤ rne w)%Z.
Proof.
  intros Hvw. pose proof (Qfloor_resp_le _ _ Hvw) as Hf.
  destruct (decide (Qfloor v = Qfloor w)) as [E|E].
  - unfold rne. rewrite E.
    destruct (v - inject_Z (Qfloor w) ?= 1 # 2) eqn:Cv;
      destruct (w - inject_Z (Qfloor w) ?= 1 # 2) eqn:Cw;
      try destruct (Z.even (Qfloor w)); try lia; exfalso;
      first [apply Qeq_alt in Cv|apply Qlt_alt in Cv|apply Qgt_alt in Cv];
      first [apply Qeq_alt in Cw|apply Qlt_alt in Cw|apply Qgt_alt in Cw];
      lra.
  - pose proof (rne_range v). pose proof (rne_range w). lia.
Qed.

Lemma two_pos (k : Z) : 0 < 2 ^ k.
Proof. by apply Qpower_0_lt. Qed.

Lemma two_plus (a b : Z) : 2 ^ (a + b) == 2 ^ a * 2 ^ b.
Proof. by apply Qpower_plus. Qed.

Lemma two_Z (k : Z) : (0 ≤ k)%Z → 2 ^ k == inject_Z (2 ^ k).
Proof. intros Hk. by rewrite Zpower_Qpower. Qed.

Lemma two_ge_1 (k : Z) : (0 ≤ k)%Z → 1 <= 2 ^ k.
Proof.
  intros Hk. rewrite two_Z by done. rewrite <-(Zle_Qle 1).
  pose proof (Z.pow_pos_nonneg 2 k). lia.
Qed.

Lemma two_mono (a b : Z) : (a ≤ b)%Z → 2 ^ a <= 2 ^ b.
Proof.
  intros Hab. replace b with (a + (b - a))%Z by lia. rewrite two_plus.
  pose proof (two_pos a). pose proof (two_ge_1 (b - a)) as H1.
  specialize (H1 ltac:(lia)).
  generalize dependent (2 ^ a). generalize dependent (2 ^ (b - a)).
  intros. nra.
Qed.

Lemma two_lt (a b : Z) : (a < b)%Z → 2 ^ a < 2 ^ b.
Proof.
  intros Hab. replace b with (a + 1 + (b - a - 1))%Z by lia.
  rewrite !two_plus. change (2 ^ 1) with 2.
  pose proof (two_pos a). pose proof (two_ge_1 (b - a - 1)) as H1.
  specialize (H1 ltac:(lia)).
  generalize dependent (2 ^ a). generalize dependent (2 ^ (b - a - 1)).
  intros. nra.
Qed.

Lemma two_lt_inv (a b : Z) : 2 ^ a < 2 ^ b → (a < b)%Z.
Proof.
  intros H. destruct (decide (a < b)%Z) as [|Hn]; [done|]. exfalso.
  pose proof (two_mono b a ltac:(lia)).
  generalize dependent (2 ^ a). generalize dependent (2 ^ b). intros. lra.
Qed.

Lemma two_minus (a b : Z) : 2 ^ (a - b) * 2 ^ b == 2 ^ a.
Proof. rewrite <-two_plus. by replace (a - b + b)%Z with a by lia. Qed.

Lemma Qnum_pos (q : Q) : 0 < q ↔ (0 < Qnum q)%Z.
Proof. unfold Qlt. simpl. lia. Qed.

Lemma Q_num_den (q : Q) :
  q * inject_Z (Z.pos (Qden q)) == inject_Z (Qnum q).
Proof. destruct q as [n d]. unfold Qeq. simpl. lia. Qed.

Lemma ilog2_spec (q : Q) :
  0 < q → 2 ^ ilog2 q <= q ∧ q < 2 ^ (ilog2 q + 1).
Proof.
  intros Hq. unfold ilog2. cbv zeta.
  set (ln := Z.log2 (Qnum q)). set (ld := Z.log2 (Z.pos (Qden q))).
  assert (0 < Qnum q)%Z as Hn by by apply Qnum_pos.
  destruct (Z.log2_spec (Qnum q) Hn) as [Hn1 Hn2].
  destruct (Z.log2_spec (Z.pos (Qden q)) ltac:(lia)) as [Hd1 Hd2].
  fold ln in Hn1, Hn2. fold ld in Hd1, Hd2.
  assert (0 ≤ ln)%Z as Hln by apply Z.log2_nonneg.
  assert (0 ≤ ld)%Z as Hld by apply Z.log2_nonneg.
  rewrite Zle_Qle, <-two_Z in Hn1, Hd1 by done.
  rewrite Zlt_Qlt, <-two_Z in Hn2, Hd2 by lia.
  replace (Z.succ ln) with (ln + 1)%Z in Hn2 by lia.
  replace (Z.succ ld) with (ld + 1)%Z in Hd2 by lia.
  rewrite two_plus in Hn2, Hd2. change (2 ^ 1) with 2 in Hn2, Hd2.
  pose proof (Q_num_den q) as Hq'.
  pose proof (two_minus ln ld) as HP.
  pose proof (two_pos (ln - ld)) as HP0.
  pose proof (two_pos ld) as HB0.
  destruct (Qle_bool (2 ^ (ln - ld)) q) eqn:T.
  - apply Qle_bool_iff in T. split; [done|].
    rewrite two_plus. change (2 ^ 1) with 2.
    generalize dependent (2 ^ (ln - ld)). generalize dependent (2 ^ ln).
    generalize dependent (2 ^ ld).
    generalize dependent (inject_Z (Z.pos (Qden q))).
    generalize dependent (inject_Z (Qnum q)). intros. nra.
  - assert (q < 2 ^ (ln - ld)) as T'.
    { apply Qnot_le_lt. intros H. apply Qle_bool_iff in H. congruence. }
    replace (ln - ld - 1 + 1)%Z with (ln - ld)%Z by lia. split; [|done].
    assert (2 ^ (ln - ld - 1) * 2 == 2 ^ (ln - ld)) as HP2.
    { change 2 with (2 ^ 1) at 2. rewrite <-two_plus.
      by replace (ln - ld - 1 + 1)%Z with (ln - ld)%Z by lia. }
    generalize dependent (2 ^ (ln - ld - 1)).
    generalize dependent (2 ^ (ln - ld)). generalize dependent (2 ^ ln).
    generalize dependent (2 ^ ld).
    generalize dependent (inject_Z (Z.pos (Qden q))).
    generalize dependent (inject_Z (Qnum q)). intros. nra.
Qed.

Lemma ilog2_unique (q : Q) (e : Z) :
  0 < q → 2 ^ e <= q → q < 2 ^ (e + 1) → ilog2 q = e.
Proof.
  intros Hq H1 H2. destruct (ilog2_spec q Hq) as [H3 H4].
  assert (ilog2 q < e + 1)%Z by (apply two_lt_inv; lra).
  assert (e < ilog2 q + 1)%Z by (apply two_lt_inv; lra). lia.
Qed.

Lemma ilog2_comp (x y : Q) : 0 < x → x == y → ilog2 x = ilog2 y.
Proof.
  intros Hx E. destruct (ilog2_spec x Hx) as [H1 H2]. symmetry.
  apply ilog2_unique; by rewrite <-E.
Qed.

Lemma ilog2_mono (x y : Q) : 0 < x → x <= y → (ilog2 x ≤ ilog2 y)%Z.
Proof.
  intros Hx Hxy. destruct (ilog2_spec x Hx) as [H1 H2].
  destruct (ilog2_spec y ltac:(lra)) as [H3 H4].
  assert (ilog2 x < ilog2 y + 1)%Z by (apply two_lt_inv; lra). lia.
Qed.

Lemma rnd_pos_eq (q : Q) :
  rnd_pos q ==
  inject_Z (rne (q / 2 ^ Z.max (ilog2 q - 52) (-1074)))
  * 2 ^ Z.max (ilog2 q - 52) (-1074).
Proof. unfold rnd_pos. cbv zeta. apply Qred_correct. Qed.

Lemma Qdiv_two (q : Q) (t : Z) : q / 2 ^ t * 2 ^ t == q.
Proof. field. pose proof (two_pos t). lra. Qed.

Lemma Qdiv_two_le (x y : Q) (t : Z) : x <= y → x / 2 ^ t <= y / 2 ^ t.
Proof.
  intros H. pose proof (two_pos t) as Ht.
  apply Qle_shift_div_l; [done|]. by rewrite Qdiv_two.
Qed.

Lemma Qdiv_two_lt (x y : Q) (t : Z) : x < y → x / 2 ^ t < y / 2 ^ t.
Proof.
  intros H. pose proof (two_pos t) as Ht.
  apply Qlt_shift_div_l; [done|]. by rewrite Qdiv_two.
Qed.

Lemma two_div (a t : Z) : 2 ^ a / 2 ^ t == 2 ^ (a - t).
Proof.
  rewrite <-(two_minus a t). field. pose proof (two_pos t). lra.
Qed.

Lemma rnd_pos_nonneg (q : Q) : 0 < q → 0 <= rnd_pos q.
Proof.
  intros Hq. rewrite rnd_pos_eq.
  set (t := Z.max (ilog2 q - 52) (-1074)).
  pose proof (two_pos t) as Ht.
  assert (0 ≤ rne (q / 2 ^ t))%Z as Hr.
  { rewrite <-(rne_Z 0). apply rne_mono. apply Qle_shift_div_l; [done|].
    change (inject_Z 0) with 0. rewrite Qmult_0_l. lra. }
  apply Qmult_le_0_compat; [by rewrite <-(Zle_Qle 0)|by apply Qlt_le_weak].
Qed.

(** Rounding stays in the binade. *)
Lemma rnd_pos_lower (q : Q) :
  0 < q → (-1074 ≤ ilog2 q - 52)%Z → 2 ^ ilog2 q <= rnd_pos q.
Proof.
  intros Hq He. rewrite rnd_pos_eq. rewrite Z.max_l by done.
  set (e := ilog2 q). pose proof (two_pos (e - 52)) as Ht.
  destruct (ilog2_spec q Hq) as [H1 _]. fold e in H1.
  assert (2 ^ 52 ≤ rne (q / 2 ^ (e - 52)))%Z as Hr.
  { rewrite <-(rne_Z (2 ^ 52)). apply rne_mono.
    rewrite <-two_Z by done. replace 52%Z with (e - (e - 52))%Z at 1 by lia.
    rewrite <-two_div. by apply Qdiv_two_le. }
  rewrite Zle_Qle, <-two_Z in Hr by done.
  rewrite <-(two_minus e (e - 52)). replace (e - (e - 52))%Z with 52%Z by lia.
  generalize dependent (inject_Z (rne (q / 2 ^ (e - 52)))).
  generalize dependent (2 ^ (e - 52)). generalize dependent (2 ^ 52).
  intros. nra.
Qed.

Lemma rne_small (v : Q) : 0 <= v → v < 1 # 2 → rne v = 0%Z.
Proof.
  intros H0 H1. unfold rne.
  assert (Qfloor v = 0%Z) as ->.
  { pose proof (Qfloor_le v) as Hf1.
    pose proof (Qfloor_resp_le 0 v H0) as Hf0. change (Qfloor 0) with 0%Z in Hf0.
    assert (inject_Z (Qfloor v) < inject_Z 1) as H2.
    { apply Qle_lt_trans with v; [done|]. change (inject_Z 1) with 1. lra. }
    rewrite <-Zlt_Qlt in H2. lia. }
  assert ((v - inject_Z 0 ?= 1 # 2) = Lt) as ->; [|done].
  rewrite <-Qlt_alt. change (inject_Z 0) with 0. lra.
Qed.

Lemma rnd_pos_upper (q : Q) : 0 < q → rnd_pos q <= 2 ^ (ilog2 q + 1).
Proof.
  intros Hq. rewrite rnd_pos_eq.
  set (e := ilog2 q). set (t := Z.max (e - 52) (-1074)).
  pose proof (two_pos t) as Ht.
  destruct (ilog2_spec q Hq) as [_ H2]. fold e in H2.
  destruct (decide (t ≤ e + 1)%Z) as [Hte|Hte].
  - assert (rne (q / 2 ^ t) ≤ 2 ^ (e + 1 - t))%Z as Hr.
    { rewrite <-(rne_Z (2 ^ (e + 1 - t))). apply rne_mono.
      rewrite <-two_Z by lia. rewrite <-two_div.
      apply Qdiv_two_le. lra. }
    rewrite Zle_Qle, <-two_Z in Hr by lia.
    rewrite <-(two_minus (e + 1) t).
    generalize dependent (inject_Z (rne (q / 2 ^ t))).
    generalize dependent (2 ^ (e + 1 - t)). generalize dependent (2 ^ t).
    intros. nra.
  - rewrite rne_small.
    + pose proof (two_pos (e + 1)). change (inject_Z 0) with 0. lra.
    + apply Qle_shift_div_l; [done|]. rewrite Qmult_0_l. lra.
    + apply Qlt_le_trans with (2 ^ (e + 1) / 2 ^ t);
        [by apply Qdiv_two_lt|].
      rewrite two_div. change (1 # 2) with (2 ^ (-1)).
      apply two_mono. lia.
Qed.

Lemma rnd_pos_mono (x y : Q) : 0 < x → x <= y → rnd_pos x <= rnd_pos y.
Proof.
  intros Hx Hxy. assert (0 < y) as Hy by lra.
  pose proof (ilog2_mono x y Hx Hxy) as He.
  destruct (decide (Z.max (ilog2 x - 52) (-1074)
                    = Z.max (ilog2 y - 52) (-1074))) as [E|E].
  - rewrite !rnd_pos_eq, E. set (t := Z.max (ilog2 y - 52) (-1074)).
    pose proof (two_pos t) as Ht.
    assert (rne (x / 2 ^ t) ≤ rne (y / 2 ^ t))%Z as Hr
      by by apply rne_mono, Qdiv_two_le.
    rewrite Zle_Qle in Hr.
    generalize dependent (inject_Z (rne (x / 2 ^ t))).
    generalize dependent (inject_Z (rne (y / 2 ^ t))).
    generalize dependent (2 ^ t). intros. nra.
  - apply Qle_trans with (2 ^ (ilog2 x + 1)); [by apply rnd_pos_upper|].
    apply Qle_trans with (2 ^ ilog2 y); [apply two_mono; lia|].
    apply rnd_pos_lower; [done|lia].
Qed.

Lemma rnd_pos_comp (x y : Q) : 0 < x → x == y → rnd_pos x = rnd_pos y.
Proof.
  intros Hx E. unfold rnd_pos. cbv zeta. rewrite <-(ilog2_comp x y Hx E).
  apply Qred_complete.
  assert (x / 2 ^ Z.max (ilog2 x - 52) (-1074)
          == y / 2 ^ Z.max (ilog2 x - 52) (-1074)) as E'
    by (apply Qdiv_comp; [done|reflexivity]).
  rewrite (rne_comp _ _ E'). reflexivity.
Qed.

Lemma rnd_nonneg_eq (q : Q) :
  0 <= q → rnd q = if decide (Qnum q = 0%Z) then 0 else rnd_pos q.
Proof.
  intros Hq. unfold rnd. unfold Qle in Hq. simpl in Hq.
  destruct (Qnum q) eqn:E; [done|done|lia].
Qed.

Lemma rnd_nonneg (q : Q) : 0 <= q → 0 <= rnd q.
Proof.
  intros Hq. rewrite rnd_nonneg_eq by done. case_decide as E; [done|].
  apply rnd_pos_nonneg. apply Qnum_pos. unfold Qle in Hq. simpl in Hq. lia.
Qed.

Lemma rnd_mono (x y : Q) : 0 <= x → x <= y → rnd x <= rnd y.
Proof.
  intros Hx Hxy. rewrite (rnd_nonneg_eq x) by done. case_decide as E.
  - apply rnd_nonneg. lra.
  - assert (0 < x) as Hx' by (apply Qnum_pos; unfold Qle in Hx; simpl in Hx; lia).
    rewrite (rnd_nonneg_eq y) by lra.
    rewrite decide_False by (assert (0 < y) as H%Qnum_pos by lra; lia).
    by apply rnd_pos_mono.
Qed.

Lemma rnd_comp (x y : Q) : x == y → rnd x = rnd y.
Proof.
  intros E. unfold rnd.
  assert (Qnum x * Z.pos (Qden y) = Qnum y * Z.pos (Qden x))%Z as E' by done.
  destruct (Qnum x) eqn:Ex, (Qnum y) eqn:Ey; try lia; try done.
  - apply rnd_pos_comp; [|done]. apply Qnum_pos. lia.
  - f_equal. apply rnd_pos_comp; [|by rewrite E].
    apply Qnum_pos. simpl. lia.
Qed.

Lemma rnd_0 : rnd 0 = 0.
Proof. reflexivity. Qed.

Lemma rnd_1 : rnd 1 = 1.
Proof. by vm_compute. Qed.

Lemma rnd_big : rnd (2 ^ 60 + 1) = 2 ^ 60.
Proof. by vm_compute. Qed.

(** A value that rounds below [2^1024] stays finite. *)
Lemma fl_finite (q : Q) : 0 <= q → rnd q <= 2 ^ 60 → fl q = finite (rnd q).
Proof.
  intros Hq Hr. unfold fl. cbv zeta.
  destruct (Qle_bool (2 ^ 1024) (Qabs (rnd q))) eqn:E; [|done].
  apply Qle_bool_iff in E. rewrite Qabs_pos in E by by apply rnd_nonneg.
  exfalso. assert (2 ^ 60 < 2 ^ 1024) as H by by vm_compute.
  generalize dependent (2 ^ 60). generalize dependent (2 ^ 1024).
  intros. lra.
Qed.

Lemma fl_comp (x y : Q) : x == y → fl x = fl y.
Proof. intros E. unfold fl. by rewrite (rnd_comp x y E). Qed.

Lemma fl_0 : fl 0 = finite 0.
Proof. reflexivity. Qed.

Lemma fl_1 : fl 1 = finite 1.
Proof. by vm_compute. Qed.

(** Rounding keeps a value between two doubles between them. *)
Lemma fl_between (a b q : Q) :
  0 <= a → a <= q → q <= b → rnd b <= 2 ^ 60 →
  fl q = finite (rnd q) ∧ rnd a <= rnd q ∧ rnd q <= rnd b.
Proof.
  intros Ha Haq Hqb Hb.
  assert (rnd a <= rnd q) by (apply rnd_mono; lra).
  assert (rnd q <= rnd b) by (apply rnd_mono; lra).
  split; [|done]. apply fl_finite; [lra|].
  generalize dependent (2 ^ 60). intros. lra.
Qed.

Lemma fl_unit (q : Q) : 0 <= q <= 1 → fl q = finite (rnd q) ∧ 0 <= rnd q <= 1.
Proof.
  intros [H0 H1].
  destruct (fl_between 0 1 q) as (E & Hl & Hu); [lra|done|done| |].
  { rewrite rnd_1. by vm_compute. }
  rewrite rnd_0 in Hl. rewrite rnd_1 in Hu. done.
Qed.

End rounding.

(* ===================================================================== *)
(** * Doubles are not changed by rounding *)

Section idempotence.
Local Open Scope Q_scope.

Lemma rnd_pos_fix (r : Q) (n : Z) :
  0 < r → r == inject_Z n * 2 ^ Z.max (ilog2 r - 52) (-1074) →
  rnd_pos r = Qred r.
Proof.
  intros Hr E. unfold rnd_pos. cbv zeta. apply Qred_complete.
  set (t := Z.max (ilog2 r - 52) (-1074)) in *.
  assert (r / 2 ^ t == inject_Z n) as E'.
  { rewrite E. field. pose proof (two_pos t). lra. }
  rewrite (rne_comp _ _ E'), rne_Z. by rewrite <-E.
Qed.

Lemma Qred_Qred (q : Q) : Qred (Qred q) = Qred q.
Proof. apply Qred_complete, Qred_correct. Qed.

Lemma rnd_pos_Qred (q : Q) : Qred (rnd_pos q) = rnd_pos q.
Proof. unfold rnd_pos. cbv zeta. apply Qred_Qred. Qed.

Lemma rnd_pos_idem (q : Q) :
  0 < q → 0 < rnd_pos q → rnd_pos (rnd_pos q) = rnd_pos q.
Proof.
  intros Hq Hr. set (r := rnd_pos q) in *.
  enough (rnd_pos r = Qred r) as -> by apply rnd_pos_Qred.
  set (e := ilog2 q). set (t := Z.max (e - 52) (-1074)).
  pose proof (rnd_pos_eq q) as Er. fold r e t in Er.
  pose proof (rnd_pos_upper q Hq) as Hup. fold r e in Hup.
  destruct (ilog2_spec r Hr) as [Hl' Hu']. set (e' := ilog2 r) in *.
  assert (e' ≤ e + 1)%Z as He'.
  { assert (e' < e + 1 + 1)%Z; [|lia]. apply two_lt_inv.
    apply Qle_lt_trans with r; [done|].
    apply Qle_lt_trans with (2 ^ (e + 1)); [done|]. apply two_lt. lia. }
  destruct (decide (-1074 ≤ e - 52)%Z) as [Hn|Hs].
  - pose proof (rnd_pos_lower q Hq Hn) as Hlo. fold r e in Hlo.
    assert (e ≤ e')%Z as Hee'.
    { assert (e < e' + 1)%Z; [|lia]. apply two_lt_inv.
      by apply Qle_lt_trans with r. }
    destruct (decide (e' = e)) as [E|E].
    + apply (rnd_pos_fix r (rne (q / 2 ^ t))); [done|].
      fold e'. rewrite E. apply Er.
    + assert (e' = e + 1)%Z as E' by lia.
      apply (rnd_pos_fix r (2 ^ 52)); [done|]. fold e'.
      rewrite E', Z.max_l by lia.
      rewrite <-two_Z, <-two_plus by done.
      replace (52 + (e + 1 - 52))%Z with (e + 1)%Z by lia.
      rewrite E' in Hl'. by apply Qle_antisym.
  - apply (rnd_pos_fix r (rne (q / 2 ^ t))); [done|]. fold e'.
    replace (Z.max (e' - 52) (-1074)) with t; [done|]. unfold t. lia.
Qed.

Lemma rnd_idem (q : Q) : 0 <= q → rnd (rnd q) = rnd q.
Proof.
  intros Hq. rewrite (rnd_nonneg_eq q Hq). case_decide as E; [done|].
  assert (0 < q) as Hq' by (apply Qnum_pos; unfold Qle in Hq; simpl in Hq; lia).
  pose proof (rnd_pos_nonneg q Hq') as Hr.
  rewrite (rnd_nonneg_eq _ Hr). case_decide as E'.
  - rewrite <-rnd_pos_Qred. change 0 with (Qred 0). apply Qred_complete.
    unfold Qeq. rewrite E'. simpl. lia.
  - apply rnd_pos_idem; [done|]. apply Qnum_pos.
    unfold Qle in Hr. simpl in Hr. lia.
Qed.

End idempotence.

(* ===================================================================== *)
(** * The weights and the last loop, in doubles *)

Lemma mapM_total {A B} (g : A → option B) (f : A → B) (l : list A) :
  Forall (λ x, g x = Some (f x)) l → mapM g l = Some (f <$> l).
Proof.
  intros H. apply mapM_Some. induction H as [|x l Hx _ IH]; [constructor|].
  rewrite fmap_cons. by constructor.
Qed.

Lemma unit_float_value (f : float) :
  unit_float f → f = finite (value f) ∧ (0 <= value f <= 1)%Q.
Proof. by intros (q & -> & Hq). Qed.

Lemma fl_unit_float (q : Q) : (0 <= q <= 1)%Q → unit_float (fl q).
Proof. intros Hq. destruct (fl_unit q Hq) as [-> H]. by exists (rnd q). Qed.

Lemma fmul_unit (w : float) (r : Q) :
  unit_float w → (0 <= r <= 1)%Q →
  fmul w (finite r) = finite (rnd (value w * r)) ∧
  (0 <= rnd (value w * r) <= 1)%Q.
Proof.
  intros (q & -> & Hq) Hr. simpl. apply fl_unit. nra.
Qed.

Lemma rnd_big' : rnd (big + 1) = big.
Proof. by vm_compute. Qed.

Lemma fadd_bounded (a p : Q) :
  (0 <= a <= big)%Q → (0 <= p <= 1)%Q →
  fadd (finite a) (finite p) = finite (rnd (a + p)) ∧
  (0 <= rnd (a + p) <= big)%Q ∧ (rnd a <= rnd (a + p))%Q.
Proof.
  intros Ha Hp. simpl.
  destruct (fl_between a (big + 1) (a + p)) as (E & Hl & Hu);
    [lra|lra|lra|by rewrite rnd_big'|].
  rewrite rnd_big' in Hu. split; [done|]. split; [|done].
  split; [apply rnd_nonneg; lra|done].
Qed.

Lemma fsum_from (l : list float) : ∀ a,
  (1 <= a <= big)%Q → Forall unit_float l →
  ∃ T, foldl fadd (finite a) l = finite T ∧ (1 <= T <= big)%Q.
Proof.
  induction l as [|w l IH]; intros a Ha Hl; cbn [foldl]; [by exists a|].
  apply Forall_cons in Hl as [(q & -> & Hq) Hl].
  destruct (fadd_bounded a q) as (E & Hb & Hm); [lra|done|].
  rewrite E. apply IH; [|done].
  assert (rnd 1 <= rnd a)%Q as H1 by (apply rnd_mono; lra).
  rewrite rnd_1 in H1. lra.
Qed.

Section weights_facts.
Context (pow : float → Z → float) (Hpow : libm_pow_ok pow).

Local Abbreviation raw h :=
  (map (λ i : nat, pow decay (Z.of_nat i)) (seq 0 (Z.to_nat (h + 1)))).

Lemma raw_unit h : Forall unit_float (raw h).
Proof.
  apply Forall_forall. intros w (i & -> & _)%list_elem_of_fmap.
  apply Hpow. lia.
Qed.

Lemma weights_negative h : (h < 0)%Z → weights pow h = Some [].
Proof.
  intros Hh. unfold weights. by replace (Z.to_nat (h + 1)) with 0 by lia.
Qed.

Lemma total_weight_spec h :
  (0 ≤ h)%Z → ∃ T, fsum (raw h) = finite T ∧ (1 <= T <= big)%Q.
Proof.
  intros Hh. pose proof (raw_unit h) as Hu. unfold fsum.
  destruct (Z.to_nat (h + 1)) as [|n] eqn:E; [lia|].
  rewrite <-cons_seq, fmap_cons in *. apply Forall_cons in Hu as [_ Hu].
  cbn [foldl]. change (Z.of_nat 0) with 0%Z. rewrite (proj1 Hpow).
  change (fadd (finite 0) (finite 1)) with (finite 1).
  apply fsum_from; [lra|done].
Qed.

(** The weights exist for [h ≥ 0]: the sum is at least 1.0, no division
    fails, and every weight is a double between 0 and 1. *)
Lemma weights_spec h :
  (0 ≤ h)%Z →
  ∃ T, fsum (raw h) = finite T ∧ (1 <= T)%Q ∧
       weights pow h = Some ((λ w, fl (value w / T)) <$> raw h) ∧
       Forall unit_float ((λ w, fl (value w / T)) <$> raw h).
Proof.
  intros Hh. destruct (total_weight_spec h Hh) as (T & ET & HT).
  exists T. split; [done|]. split; [lra|].
  assert (∀ w, unit_float w → (0 <= value w / T <= 1)%Q) as Hdiv.
  { intros w (q & -> & Hq). simpl. split.
    - apply Qle_shift_div_l; lra.
    - apply Qle_shift_div_r; lra. }
  split.
  - unfold weights. cbv zeta. rewrite ET. apply mapM_total.
    eapply Forall_impl; [apply raw_unit|]. intros w (q & -> & Hq). simpl.
    destruct (Qeq_bool T 0) eqn:E; [|done].
    apply Qeq_bool_iff in E. lra.
  - apply Forall_fmap. eapply Forall_impl; [apply raw_unit|].
    intros w Hw. simpl. by apply fl_unit_float, Hdiv.
Qed.

Lemma length_weights h ws :
  weights pow h = Some ws → length ws = Z.to_nat (h + 1).
Proof.
  unfold weights. cbv zeta. intros H%length_mapM.
  by rewrite <-H, length_map, length_seq.
Qed.

End weights_facts.

(** [weights] reads [pow] at the exponents [0 .. h] only. *)
Lemma weights_ext pow pow' h :
  (∀ i, (0 ≤ i ≤ h)%Z → pow decay i = pow' decay i) →
  weights pow h = weights pow' h.
Proof.
  intros H. unfold weights.
  assert (map (λ i : nat, pow decay (Z.of_nat i)) (seq 0 (Z.to_nat (h + 1)))
          = map (λ i : nat, pow' decay (Z.of_nat i))
              (seq 0 (Z.to_nat (h + 1)))) as ->; [|done].
  apply list_fmap_ext. intros k i Hi%lookup_seq. apply H. lia.
Qed.

(** One step of the last loop, against the step that counts the round for
    its weight times 1.0. *)
Lemma loop_step (w : float) (r a a' : Q) :
  unit_float w → (0 <= r <= 1)%Q → (0 <= a)%Q → (a <= a')%Q → (a' <= big)%Q →
  ∃ s s',
    fadd (finite a) (fmul w (fl r)) = finite s ∧
    fadd (finite a') (fmul w (finite 1)) = finite s' ∧
    (0 <= s)%Q ∧ (s <= s')%Q ∧ (s' <= big)%Q ∧
    ((r == 1)%Q → a = a' → s = s').
Proof.
  intros Hw Hr Ha Haa Ha'.
  destruct (fl_unit r Hr) as [Er Hr']. rewrite Er.
  destruct (fmul_unit w (rnd r) Hw Hr') as [-> Hp].
  destruct (fmul_unit w 1 Hw) as [-> Hp1]; [lra|].
  destruct (fadd_bounded a (rnd (value w * rnd r))) as (-> & Hb & _);
    [lra|done|].
  destruct (fadd_bounded a' (rnd (value w * 1))) as (-> & Hb' & _);
    [lra|done|].
  eexists _, _. split; [done|]. split; [done|].
  split; [lra|]. split; [|split; [lra|]].
  - destruct (unit_float_value w Hw) as [_ Hv].
    assert (rnd (value w * rnd r) <= rnd (value w * 1))%Q as Hm
      by (apply rnd_mono; nra).
    apply rnd_mono; lra.
  - intros E ->. rewrite (fl_comp r 1 E), fl_1 in Er.
    injection Er as <-. done.
Qed.

Section last_loop.
Local Arguments fadd : simpl never.
Local Arguments fmul : simpl never.

(** The last loop on the rounds [k .. k+m-1]: it returns a double that is
    not negative and at most what the same rounds give when each counts
    for its whole weight, and exactly that when the two lists of
    histograms are the same. *)
Lemma similarity_loop_spec (ws : list float) (H1 H2 : list Counter) :
  Forall unit_float ws →
  ∀ m k a a',
    (0 <= a)%Q → (a <= a')%Q → (a' <= big)%Q →
    k + m ≤ length ws → k + m ≤ length H1 → k + m ≤ length H2 →
    ∃ s s',
      similarity_loop (seq k m) ws H1 H2 (finite a) = Some (finite s) ∧
      foldl (λ s w, fadd s (fmul w (finite 1))) (finite a')
            (take m (drop k ws)) = finite s' ∧
      (0 <= s)%Q ∧ (s <= s')%Q ∧
      (H1 = H2 → Forall nonzero H1 → a = a' → s = s').
Proof.
  intros Hws m. induction m as [|m IH]; intros k a a' Ha Haa Ha' Hk Hk1 Hk2.
  - exists a, a'. simpl. split; [done|]. split; [done|]. split; [done|].
    split; [done|]. by intros.
  - destruct (lookup_lt_is_Some_2 ws k) as [w Ew]; [lia|].
    destruct (lookup_lt_is_Some_2 H1 k) as [h1 E1]; [lia|].
    destruct (lookup_lt_is_Some_2 H2 k) as [h2 E2]; [lia|].
    assert (unit_float w) as Hw.
    { rewrite Forall_forall in Hws. apply Hws.
      by eapply list_elem_of_lookup_2. }
    rewrite (drop_S ws w k Ew). cbn [seq similarity_loop take foldl].
    rewrite E1, E2, Ew. simpl.
    destruct (loop_step w (round_similarity h1 h2) a a' Hw
                (round_similarity_range h1 h2) Ha Haa Ha')
      as (s0 & s0' & -> & -> & H0 & Hss & Hb & Hsame).
    destruct (IH (S k) s0 s0' H0 Hss Hb) as (s & s' & -> & -> & Hs & Hs' & Heq);
      [lia..|].
    exists s, s'. split; [done|]. split; [done|]. split; [done|].
    split; [done|]. intros -> HF ->. apply Heq; [done|done|].
    assert (h1 = h2) as -> by congruence.
    apply Hsame; [|done]. apply round_similarity_same.
    rewrite Forall_forall in HF. apply HF. by eapply list_elem_of_lookup_2.
Qed.

End last_loop.

(* ===================================================================== *)
(** * The kernel on a heap, and the library's power *)

Lemma kernel_unfold pow G1 G2 h (σ σ1 σ2 σ' : heap) h1 h2 H1 H2 :
  on_graph (λ g, Some (init_wl_label g)) G1 σ = Some σ1 →
  on_graph (λ g, Some (init_wl_label g)) G2 σ1 = Some σ2 →
  read_graph histogram G1 σ2 = Some h1 →
  read_graph histogram G2 σ2 = Some h2 →
  wl_rounds (Z.to_nat h) G1 G2 σ2 [h1] [h2] = Some (σ', H1, H2) →
  weisfeiler_lehman_kernel pow G1 G2 h σ =
  (ws ← weights pow h;
   similarity ←
     similarity_loop (seq 0 (Z.to_nat (h + 1))) ws H1 H2 (finite 0);
   Some (similarity, σ')).
Proof.
  intros E1 E2 E3 E4 E5. unfold weisfeiler_lehman_kernel.
  rewrite E1. simpl. rewrite E2. simpl. rewrite E3. simpl. rewrite E4. simpl.
  by rewrite E5.
Qed.

(** The kernel on closed graphs and [h ≥ 0]: it returns a double that is
    not negative and at most the score of a graph against itself, and
    exactly that score when the graphs have a node and are equal once
    their [wl_label]s are initialised. *)
Lemma kernel_spec pow ne G1 G2 h (σ : heap) g1 g2 :
  libm_pow_ok pow →
  σ !! G1 = Some g1 → σ !! G2 = Some g2 →
  closed g1 → closed g2 →
  (ne = true → nonempty g1 ∧ nonempty g2) →
  (0 ≤ h)%Z →
  ∃ s S σ',
    weisfeiler_lehman_kernel pow G1 G2 h σ = Some (finite s, σ') ∧
    self_score pow h = Some (finite S) ∧
    (0 <= s <= S)%Q ∧
    (ne = true → init_wl_label g1 = init_wl_label g2 → s = S).
Proof.
  intros Hpow E1 E2 Hc1 Hc2 Hne Hh.
  destruct (init_both (λ g, closed g ∧ (ne = true → nonempty g)) (ready ne)
              G1 G2 σ g1 g2) as (σ1 & σ2 & Ei1 & Ei2 & Hok & Hsame);
    [apply init_preserves|done|done|split; [done|intros; by apply Hne]
    |split; [done|intros; by apply Hne]|].
  destruct (read_graph_ok (ready ne) (λ h, ne = true → nonzero h)
              histogram G1 G2 G1 σ2)
    as (h1 & Eh1 & Hnz1); [by left|apply histogram_ready|done|].
  destruct (read_graph_ok (ready ne) (λ h, ne = true → nonzero h)
              histogram G1 G2 G2 σ2)
    as (h2 & Eh2 & Hnz2); [by right|apply histogram_ready|done|].
  destruct (wl_rounds_spec ne (Z.to_nat h) G1 G2 σ2 [h1] [h2] Hok)
    as (σ' & H1 & H2 & Er & _ & Hl1 & Hl2 & Hnz & Heq).
  simpl in Hl1, Hl2.
  destruct (weights_spec pow Hpow h Hh) as (T & _ & _ & Ew & Hu).
  pose proof (length_weights pow h _ Ew) as Hl.
  destruct (similarity_loop_spec _ H1 H2 Hu (Z.to_nat (h + 1)) 0 0%Q 0%Q)
    as (s & S & Es & ES & Hs & HsS & Hq); [done|done|done|lia..|].
  rewrite drop_0, take_ge in ES by lia.
  exists s, S, σ'.
  rewrite (kernel_unfold _ _ _ _ _ _ _ _ _ _ _ _ Ei1 Ei2 Eh1 Eh2 Er).
  unfold self_score. rewrite Ew. simpl. rewrite Es, ES.
  split; [done|]. split; [done|]. split; [done|].
  intros Hne' Einit.
  assert (σ2 !! G1 = σ2 !! G2) as Hσ2 by auto.
  assert (h1 = h2) as <-.
  { unfold read_graph in Eh1, Eh2. rewrite Hσ2 in Eh1. congruence. }
  apply Hq; [by apply Heq| |done].
  apply Forall_impl with (P := λ h, ne = true → nonzero h); [|by auto].
  apply Hnz. constructor; [done|constructor].
Qed.

Lemma decay_eq : decay = finite (3602879701896397 # 4503599627370496).
Proof. by vm_compute. Qed.

Lemma Qpower_succ (d : Q) (i : nat) :
  (0 < d)%Q → (d ^ Z.of_nat (S i) == d * d ^ Z.of_nat i)%Q.
Proof.
  intros Hd. rewrite Nat2Z.inj_succ. unfold Z.succ.
  rewrite Qpower_plus by lra. rewrite Qpower_1_r. lra.
Qed.

Lemma Qpower_unit (d : Q) (i : nat) :
  (0 < d <= 1)%Q → (0 < d ^ Z.of_nat i <= 1)%Q.
Proof.
  intros Hd. induction i as [|i IH]; [by vm_compute|].
  rewrite Qpower_succ by apply Hd.
  generalize dependent (d ^ Z.of_nat i)%Q. intros. nra.
Qed.


Lemma pow_nearest_eq (i : Z) :
  pow_nearest decay i = fl ((3602879701896397 # 4503599627370496) ^ i).
Proof. by rewrite decay_eq. Qed.

(** The nearest double to [0.8^i] is what the statements assume of the
    library's [pow], and it does not grow with [i]. *)
Lemma pow_nearest_ok : libm_pow_ok pow_nearest.
Proof.
  split; [by vm_compute|]. intros i Hi. rewrite pow_nearest_eq.
  apply fl_unit_float. rewrite <-(Z2Nat.id i) by done.
  destruct (Qpower_unit (3602879701896397 # 4503599627370496) (Z.to_nat i));
    [by vm_compute|]. split; [by apply Qlt_le_weak|done].
Qed.

Lemma pow_nearest_mono (i : nat) :
  (value (pow_nearest decay (Z.of_nat (S i)))
   <= value (pow_nearest decay (Z.of_nat i)))%Q.
Proof.
  rewrite !pow_nearest_eq.
  set (d := 3602879701896397 # 4503599627370496).
  assert (0 < d <= 1)%Q as Hd by by vm_compute.
  destruct (Qpower_unit d i Hd) as [Hi0 Hi1].
  destruct (Qpower_unit d (S i) Hd) as [HS0 HS1].
  destruct (fl_unit (d ^ Z.of_nat i)) as [-> _];
    [split; [by apply Qlt_le_weak|done]|].
  destruct (fl_unit (d ^ Z.of_nat (S i))) as [-> _];
    [split; [by apply Qlt_le_weak|done]|].
  cbn [value]. apply rnd_mono; [by apply Qlt_le_weak|].
  rewrite Qpower_succ by apply Hd.
  destruct Hd as [Hd0 Hd1]. generalize dependent (d ^ Z.of_nat i)%Q.
  intros. nra.
Qed.

Lemma nearest_up_to_nearest n : nearest_up_to n pow_nearest.
Proof. by intros i _. Qed.

(** With the nearest doubles for [0.8^0 .. 0.8^3], a graph scores exactly
    1.0 against itself for up to three rounds. *)
Lemma self_score_default pow h :
  (0 ≤ h ≤ 3)%Z → nearest_up_to 3 pow → self_score pow h = Some (finite 1).
Proof.
  intros Hh Hn. unfold self_score.
  rewrite (weights_ext pow pow_nearest h) by (intros i Hi; apply Hn; lia).
  assert (h = 0 ∨ h = 1 ∨ h = 2 ∨ h = 3)%Z as [->|[->|[->| ->]]] by lia;
    by vm_compute.
Qed.

(* ===================================================================== *)
(** * The weights in exact arithmetic and in doubles (C9) *)

Lemma foldl_Qplus (l : list Q) (a : Q) : (foldl Qplus a l == a + sumQ l)%Q.
Proof.
  unfold sumQ. revert a. induction l as [|x l IH]; intros a; simpl.
  - lra.
  - rewrite (IH (a + x)%Q), (IH (0 + x)%Q). lra.
Qed.

Lemma sumQ_cons (x : Q) (l : list Q) : (sumQ (x :: l) == x + sumQ l)%Q.
Proof. unfold sumQ at 1. simpl. rewrite foldl_Qplus. lra. Qed.

Lemma sumQ_nonneg (l : list Q) : Forall (λ w, (0 <= w)%Q) l → (0 <= sumQ l)%Q.
Proof.
  induction 1 as [|x l Hx _ IH]; [by unfold sumQ|]. rewrite sumQ_cons. lra.
Qed.

Lemma sumQ_pos (x : Q) (l : list Q) :
  (0 < x)%Q → Forall (λ w, (0 <= w)%Q) l → (0 < sumQ (x :: l))%Q.
Proof. intros Hx Hl%sumQ_nonneg. rewrite sumQ_cons. lra. Qed.


Lemma ideal_decay_pos : (0 < ideal_decay)%Q.
Proof. reflexivity. Qed.

Lemma ideal_power_pos (i : nat) : (0 < ideal_decay ^ Z.of_nat i)%Q.
Proof. apply Qpower_0_lt, ideal_decay_pos. Qed.


Lemma ideal_weights_eq h :
  ideal_weights h
  = map (λ w, (w / ideal_total_weight h)%Q) (ideal_raw_weights h).
Proof. done. Qed.

Lemma ideal_raw_nonneg h : Forall (λ w, (0 <= w)%Q) (ideal_raw_weights h).
Proof.
  unfold ideal_raw_weights. apply Forall_forall. intros w Hw.
  apply list_elem_of_fmap in Hw as (i & -> & _).
  apply Qlt_le_weak, ideal_power_pos.
Qed.

Lemma ideal_total_pos h : (0 ≤ h)%Z → (0 < ideal_total_weight h)%Q.
Proof.
  intros Hh. unfold ideal_total_weight.
  pose proof (ideal_raw_nonneg h) as Hnn. unfold ideal_raw_weights in *.
  destruct (Z.to_nat (h + 1)) as [|n] eqn:E; [lia|].
  simpl in *. inversion Hnn; subst. by apply sumQ_pos.
Qed.



Lemma ideal_weights_nonneg h :
  (0 ≤ h)%Z → Forall (λ w, (0 <= w)%Q) (ideal_weights h).
Proof.
  intros Hh. rewrite ideal_weights_eq. apply Forall_forall. intros w Hw.
  apply list_elem_of_fmap in Hw as (w' & -> & Hw').
  pose proof (ideal_raw_nonneg h) as Hnn.
  rewrite Forall_forall in Hnn. apply Hnn in Hw'.
  apply Qle_shift_div_l; [by apply ideal_total_pos|]. lra.
Qed.











(* ===================================================================== *)
(** * The kernel: negative rounds, identity, range (C2, C5, C8) *)

(** C2, counterexample: with [h = -1] the kernel does not fail on the two
    sample graphs; it returns the score 0. *)
Lemma negative_rounds_return_zero_on_sample :
  weisfeiler_lehman_kernel pow_nearest 0 1 (-1) sample_heap ≠ None ∧
  fst <$> weisfeiler_lehman_kernel pow_nearest 0 1 (-1) sample_heap
  = Some (finite 0).
Proof. split; [by vm_compute|]. by vm_compute. Qed.

(** C2, amended: for every pair of graphs and every negative [h], the
    kernel returns normally, with the score 0, whatever the library's
    [pow]: both ranges [range(h)] and [range(h + 1)] are empty, no round
    is run, no weight is computed, and the sum stays at its initial
    value. *)
Theorem negative_rounds_score_zero
    (pow : float → Z → float)
    (G1 G2 : loc) (h : Z) (σ : heap) (g1 g2 : nx.DiGraph) :
  σ !! G1 = Some g1 → σ !! G2 = Some g2 → (h < 0)%Z →
  ∃ σ', weisfeiler_lehman_kernel pow G1 G2 h σ = Some (finite 0, σ').
Proof.
  intros E1 E2 Hh.
  destruct (init_both (λ _, True) labelled G1 G2 σ g1 g2)
    as (σ1 & σ2 & Ei1 & Ei2 & Hok & _); [|done..|].
  { intros g _. split; [done|apply init_wl_label_labelled]. }
  destruct (read_graph_ok labelled (λ _, True) histogram G1 G2 G1 σ2)
    as (h1 & Eh1 & _); [by left| |done|].
  { intros g Hg. destruct (histogram_total g Hg) as (c & ? & _). by exists c. }
  destruct (read_graph_ok labelled (λ _, True) histogram G1 G2 G2 σ2)
    as (h2 & Eh2 & _); [by right| |done|].
  { intros g Hg. destruct (histogram_total g Hg) as (c & ? & _). by exists c. }
  exists σ2.
  rewrite (kernel_unfold pow G1 G2 h σ σ1 σ2 σ2 h1 h2 [h1] [h2]); try done.
  - rewrite weights_negative by done.
    by replace (Z.to_nat (h + 1)) with 0 by lia.
  - by replace (Z.to_nat h) with 0 by lia.
Qed.

Lemma negative_rounds_score_zero_witness :
  ∃ σ', weisfeiler_lehman_kernel pow_nearest 0 1 (-1) sample_heap
        = Some (finite 0, σ').
Proof.
  apply (negative_rounds_score_zero pow_nearest 0 1 (-1) sample_heap
           (run conditional_then_statement).1 (run self_increment).1).
  - by vm_compute.
  - by vm_compute.
  - lia.
Defined.









(* ===================================================================== *)
(** * More on the builder: what every traversal keeps *)

Lemma node_label_add_node_ne n m a G :
  n ≠ m → nx.node_label (nx.add_node n a G) m = nx.node_label G m.
Proof. intros. unfold nx.node_label. simpl. by rewrite lookup_insert_ne. Qed.

Lemma node_label_add_edge u v a G m l :
  nx.node_label G m = Some l → nx.node_label (nx.add_edge u v a G) m = Some l.
Proof.
  unfold nx.node_label. simpl. destruct (nx.nodes G !! m) as [d|] eqn:E; [|done].
  intros Hk. by rewrite (touch_lookup_Some _ _ _ d) by by apply touch_lookup_Some.
Qed.

Lemma node_label_dom G u l :
  nx.node_label G u = Some l → u ∈ dom (nx.nodes G).
Proof.
  unfold nx.node_label. destruct (nx.nodes G !! u) eqn:E; [|done].
  intros _. by apply elem_of_dom.
Qed.

Lemma add_node_label_new l k s :
  nx.node_label (graph (add_node l k s).2) (nid_of (counter s)) = Some l.
Proof.
  rewrite add_node_graph. cbv zeta.
  destruct (current_node s); [apply node_label_add_edge|];
    apply node_label_add_node_eq.
Qed.

Lemma add_node_label_old l k s u t :
  wf s →
  nx.node_label (graph s) u = Some t →
  nx.node_label (graph (add_node l k s).2) u = Some t.
Proof.
  intros Hwf Hu. rewrite add_node_graph. cbv zeta.
  assert (nid_of (counter s) ≠ u) as Hne.
  { intros <-. by apply (wf_fresh _ Hwf), (node_label_dom _ _ _ Hu). }
  destruct (current_node s); [apply node_label_add_edge|];
    by rewrite node_label_add_node_ne.
Qed.

Lemma steps_node_label br s s' u t :
  wf s → steps br s s' →
  nx.node_label (graph s) u = Some t → nx.node_label (graph s') u = Some t.
Proof.
  intros Hwf Hs Hc. revert Hs.
  apply (steps_preserve br (λ s', nx.node_label (graph s') u = Some t));
    [|done..].
  intros s1 s2 H1 Hu [l k|u' v' Hu' Hv'|x c Hc'|cond c _ Hcond Hc'|cond _ Hcond];
    [by apply add_node_label_old|by apply node_label_add_edge|done
    |by apply node_label_add_edge|done].
Qed.

Lemma steps_size br s s' :
  wf s → steps br s s' →
  size (nx.nodes (graph s)) = counter s →
  size (nx.nodes (graph s')) = counter s'.
Proof.
  intros Hwf Hs Hc. revert Hs.
  apply (steps_preserve br (λ s', size (nx.nodes (graph s')) = counter s'));
    [|done..].
  intros s1 s2 H1 Hsz [l k|u' v' Hu' Hv'|x c Hc'|cond c _ Hcond Hc'|cond _ Hcond].
  - rewrite add_node_size, add_node_counter by done. by rewrite Hsz.
  - by rewrite pdg_add_edge_size by eauto using node_type_dom.
  - done.
  - by rewrite pdg_add_edge_size by eauto using node_type_dom.
  - done.
Qed.

(** A data edge that leaves an [assign] node stays a data edge. *)
Lemma steps_data_edge br s s' u v :
  wf s → steps br s s' →
  nx.node_type (graph s) u = Some "assign" →
  nx.edge_type (graph s) u v = Some "data" →
  nx.edge_type (graph s') u v = Some "data".
Proof.
  intros Hwf Hs Hu He. revert Hs.
  apply (steps_preserve br (λ s',
    nx.node_type (graph s') u = Some "assign" ∧
    nx.edge_type (graph s') u v = Some "data")); [|done..].
  intros s1 s2 H1 [Hu1 He1] Hstep. split.
  { by apply (steps_node_type br s1 s2); [|apply rtc_once|]. }
  destruct Hstep as
    [l k|u' v' Hu' Hv'|x c Hc'|cond c _ Hcond Hc'|cond _ Hcond]; [| |done| |done].
  - rewrite add_node_edge_old by (done || congruence). done.
  - simpl. destruct (decide ((u', v') = (u, v))) as [[= -> ->]|Hne].
    + apply edge_type_add_edge_eq.
    + by rewrite edge_type_add_edge_ne.
  - simpl. rewrite edge_type_add_edge_ne; [done|]. intros [= -> ->]. congruence.
Qed.

(** X1: after a run on a newly constructed generator, whatever the tree,
    the nodes of the graph are exactly the ids n0 .. n(N-1) handed out by
    the counter, there are N of them, and both end points of every edge
    are among them ([add_edge] never creates a node). *)
Theorem run_nodes_are_the_ids_handed_out (ast : node) :
  let g := (run ast).1 in
  let N := node_id (run ast).2 in
  size (nx.nodes g) = N ∧
  (∀ u, u ∈ dom (nx.nodes g) ↔ ∃ j, j < N ∧ u = nid_of j) ∧
  (∀ u v, (u, v) ∈ dom (nx.adj g) →
          u ∈ dom (nx.nodes g) ∧ v ∈ dom (nx.nodes g)).
Proof.
  cbv zeta. rewrite generate_visit. simpl fst. simpl snd.
  pose proof (run_wf ast) as Hwf. split; [|split].
  - apply (steps_size true (new_Visitor new_PDGGenerator));
      [apply wf_new|by apply (visit_steps true ast), wf_new|done].
  - apply (wf_nodes _ Hwf).
  - apply (wf_edges _ Hwf).
Qed.

(** X2: after a run on a newly constructed generator, every node but the
    first one created has an incoming edge from a node created before
    it. *)
Theorem later_nodes_have_an_earlier_predecessor (ast : node) :
  let g := (run ast).1 in
  let N := node_id (run ast).2 in
  ∀ j, 0 < j < N → ∃ i, i < j ∧ (nid_of i, nid_of j) ∈ dom (nx.adj g).
Proof.
  cbv zeta. rewrite generate_visit. simpl fst. simpl snd.
  set (P := λ s : Visitor,
    (counter s = 0 ∨ is_Some (current_node s)) ∧
    ∀ j, 0 < j < counter s →
         ∃ i, i < j ∧ (nid_of i, nid_of j) ∈ dom (nx.adj (graph s))).
  assert (P (visit ast (new_Visitor new_PDGGenerator))) as [_ H]; [|done].
  apply (steps_preserve true P) with (s := new_Visitor new_PDGGenerator);
    [|apply wf_new| |by apply (visit_steps true ast), wf_new].
  - intros s1 s2 Hwf [Hcur Hin]
      [l k|u' v' Hu' Hv'|x c Hc'|cond c _ Hcond Hc'|cond _ Hcond].
    + split; [right; by rewrite add_node_current|].
      intros j. rewrite add_node_counter, add_node_adj_dom by done. intros Hj.
      destruct (decide (j = counter s1)) as [->|Hne].
      * destruct Hcur as [?|[c Hc]]; [lia|]. rewrite Hc.
        pose proof (wf_current _ Hwf _ Hc) as Hd.
        apply (wf_nodes _ Hwf) in Hd as (i & Hi & ->).
        exists i. split; [done|]. set_solver.
      * destruct (Hin j) as (i & Hi & Hd); [lia|]. exists i. split; [done|].
        destruct (current_node s1); set_solver.
    + split; [done|]. intros j Hj. destruct (Hin j Hj) as (i & Hi & Hd).
      exists i. split; [done|]. simpl. rewrite dom_insert_L. set_solver.
    + done.
    + split; [done|]. intros j Hj. destruct (Hin j Hj) as (i & Hi & Hd).
      exists i. split; [done|]. simpl. rewrite dom_insert_L. set_solver.
    + split; [right; by eexists|done].
  - split; [by left|]. simpl. lia.
Qed.

Lemma later_nodes_have_an_earlier_predecessor_witness :
  ∃ i, i < 1 ∧ (nid_of i, nid_of 1) ∈ dom (nx.adj (run self_increment).1).
Proof.
  apply (later_nodes_have_an_earlier_predecessor self_increment 1).
  split; [lia|]. vm_compute. lia.
Defined.

(** X3: a traversal only adds.  From a well-formed state, whatever the
    tree: the label and the kind of every node already there are unchanged,
    every edge already there is still an edge, a data edge leaving an
    [assign] node is still a data edge, a control edge leaving a node that
    is not an [assign] node is still a control edge, and every name in the
    last-assignment map is still in it. *)
Theorem visit_only_adds (n : node) (s : Visitor) :
  wf s →
  let s' := visit n s in
  (∀ u l, nx.node_label (graph s) u = Some l →
          nx.node_label (graph s') u = Some l) ∧
  (∀ u k, nx.node_type (graph s) u = Some k →
          nx.node_type (graph s') u = Some k) ∧
  dom (nx.adj (graph s)) ⊆ dom (nx.adj (graph s')) ∧
  (∀ u v, nx.node_type (graph s) u = Some "assign" →
          nx.edge_type (graph s) u v = Some "data" →
          nx.edge_type (graph s') u v = Some "data") ∧
  (∀ u v k, nx.node_type (graph s) u = Some k → k ≠ "assign" →
            nx.edge_type (graph s) u v = Some "control" →
            nx.edge_type (graph s') u v = Some "control") ∧
  dom (defs s) ⊆ dom (defs s') ∧
  counter s ≤ counter s'.
Proof.
  intros Hwf. cbv zeta.
  assert (steps true s (visit n s)) as Hs by by apply (visit_steps true n).
  split; [intros u l; by apply (steps_node_label true)|].
  split; [intros u k; by apply (steps_node_type true)|].
  split; [by apply (steps_edges true)|].
  split; [intros u v; by apply (steps_data_edge true)|].
  split; [intros u v k; by apply (steps_control_edge true)|].
  split; [by apply (steps_defs true)|by apply (steps_counter true)].
Qed.

Lemma visit_only_adds_witness :
  let n := conditional_then_statement in
  let s := visit self_increment (new_Visitor new_PDGGenerator) in
  let s' := visit n s in
  (∀ u l, nx.node_label (graph s) u = Some l →
          nx.node_label (graph s') u = Some l) ∧
  (∀ u k, nx.node_type (graph s) u = Some k →
          nx.node_type (graph s') u = Some k) ∧
  dom (nx.adj (graph s)) ⊆ dom (nx.adj (graph s')) ∧
  (∀ u v, nx.node_type (graph s) u = Some "assign" →
          nx.edge_type (graph s) u v = Some "data" →
          nx.edge_type (graph s') u v = Some "data") ∧
  (∀ u v k, nx.node_type (graph s) u = Some k → k ≠ "assign" →
            nx.edge_type (graph s) u v = Some "control" →
            nx.edge_type (graph s') u v = Some "control") ∧
  dom (defs s) ⊆ dom (defs s') ∧
  counter s ≤ counter s'.
Proof.
  apply (visit_only_adds conditional_then_statement
           (visit self_increment (new_Visitor new_PDGGenerator))).
  apply visit_wf, wf_new.
Defined.

(* ===================================================================== *)
(** * The traversal, method by method *)

Lemma mstep_steps L s s' : wf s → mstep L s s' → steps true s s'.
Proof.
  intros Hwf [l k Hk|a c Ha Hc|x c Hx Hc|name def Hd|cond c Hcond Hc|cond Hcond].
  - apply steps_add_node.
  - apply rtc_once, step_data_edge; [done|by eapply node_type_dom].
  - by apply rtc_once, step_record.
  - by apply steps_visit_ID.
  - by apply rtc_once, step_branch_edge.
  - by apply rtc_once, step_cursor.
Qed.

Lemma mstep_wf L s s' : wf s → mstep L s s' → wf s'.
Proof. intros Hwf Hs. eapply steps_wf; [done|by eapply mstep_steps]. Qed.

Lemma msteps_steps L s s' : wf s → msteps L s s' → steps true s s'.
Proof.
  intros Hwf Hs. induction Hs as [|s1 s2 s3 H12 _ IH]; [done|].
  etrans; [by eapply mstep_steps|]. apply IH. by eapply mstep_wf.
Qed.

Lemma msteps_wf L s s' : wf s → msteps L s s' → wf s'.
Proof. intros Hwf Hs. eapply steps_wf; [done|by eapply msteps_steps]. Qed.

Lemma mstep_mono L L' s s' : L ⊆ L' → mstep L s s' → mstep L' s s'.
Proof.
  intros HL [l k Hk|a c Ha Hc|x c Hx Hc|name def Hd|cond c Hcond Hc|cond Hcond].
  - by apply mstep_node.
  - by apply mstep_call_edge.
  - apply mstep_record; [by apply HL|done].
  - by apply (mstep_use _ _ _ def).
  - by apply mstep_branch_edge.
  - by apply mstep_cursor.
Qed.

Lemma msteps_mono L L' s s' : L ⊆ L' → msteps L s s' → msteps L' s s'.
Proof.
  intros HL Hs. induction Hs as [|s1 s2 s3 H12 _ IH]; [done|].
  eapply rtc_l; [by eapply mstep_mono|done].
Qed.

Lemma msteps_preserve L (P : Visitor → Prop) :
  (∀ s s', wf s → P s → mstep L s s' → P s') →
  ∀ s s', wf s → P s → msteps L s s' → P s'.
Proof.
  intros HP s s' Hwf Hs Hsteps. induction Hsteps as [|s1 s2 s3 H12 _ IH]; [done|].
  apply IH; eauto using mstep_wf.
Qed.

Section msteps_of_methods.
Context (L : list string).

Lemma msteps_add_node l k s :
  k ∈ statement_kinds → msteps L s (add_node l k s).2.
Proof. intros. by apply rtc_once, mstep_node. Qed.

Lemma mcall_then_assign f a la s :
  wf s →
  let r := call_then_assign f a la s in
  msteps L s r.2 ∧ nx.node_type (graph r.2) r.1 = Some "assign".
Proof.
  intros Hwf. rewrite call_then_assign_eq. unfold visit_FuncCall.
  set (lc := "Call " +:+ _). cbv zeta.
  set (s1 := (add_node lc "func_call" s).2).
  set (s2 := (add_node la "assign" s1).2).
  assert (wf s1) as H1 by by apply wf_add_node.
  assert (nx.node_type (graph s2) (nid_of (counter s1)) = Some "assign")
    as Ht by by apply add_node_type_new.
  assert (nx.node_type (graph s2) (nid_of (counter s)) = Some "func_call")
    as Hc by by apply add_node_type_old, add_node_type_new.
  split.
  - trans s1; [apply msteps_add_node; set_solver|].
    trans s2; [apply msteps_add_node; set_solver|].
    apply rtc_once. unfold snd. by apply mstep_call_edge.
  - simpl. by apply node_type_add_edge.
Qed.

Lemma msteps_visit_Decl name init s :
  wf s → msteps L s (visit_Decl name init s).
Proof.
  intros Hwf.
  assert (wf (add_node ("Decl " +:+ name) "decl" s).2) as H1
    by by apply wf_add_node.
  destruct init as [init|]; [|apply msteps_add_node; set_solver].
  destruct (is_call init) eqn:E.
  - destruct init as [| | | | |f a| | | | |]; try discriminate E.
    rewrite visit_Decl_call.
    trans (add_node ("Decl " +:+ name) "decl" s).2;
      [apply msteps_add_node; set_solver|].
    by apply mcall_then_assign.
  - rewrite visit_Decl_other by done.
    trans (add_node ("Decl " +:+ name) "decl" s).2;
      apply msteps_add_node; set_solver.
Qed.

Lemma msteps_assign_node op l r s :
  get_text l ∈ L → wf s → msteps L s (assign_node op l r s).
Proof.
  intros Hl Hwf. destruct (is_call r) eqn:E.
  - destruct r as [| | | | |f a| | | | |]; try discriminate E.
    rewrite assign_node_call. cbv zeta.
    destruct (mcall_then_assign f a
      (get_text l +:+ " " +:+ op +:+ " [call]") s Hwf) as [Hs Ht].
    etrans; [apply Hs|]. by apply rtc_once, mstep_record.
  - rewrite assign_node_other by done.
    trans (add_node (get_text l +:+ " " +:+ op +:+ " " +:+ get_text r)
             "assign" s).2; [apply msteps_add_node; set_solver|].
    by apply rtc_once, mstep_record, add_node_type_new.
Qed.

Lemma msteps_visit_ID name s : msteps L s (visit_ID name s).
Proof.
  destruct (defs s !! name) as [def|] eqn:E.
  - by apply rtc_once, (mstep_use _ _ _ def).
  - unfold visit_ID. by rewrite E.
Qed.

Lemma msteps_foldl (l : list node) :
  Forall (λ c, ∀ s, wf s → msteps L s (visit c s)) l →
  ∀ s, wf s → msteps L s (foldl (λ s c, visit c s) s l).
Proof.
  induction 1 as [|c l Hc _ IH]; intros s Hwf; simpl; [done|].
  etrans; [by apply Hc|]. apply IH. eauto using msteps_wf.
Qed.

Lemma msteps_child (o : option node) :
  on_child (λ c, ∀ s, wf s → msteps L s (visit c s)) o →
  ∀ s, wf s → msteps L s (match o with Some c => visit c s | None => s end).
Proof. destruct o; simpl; [by auto|done]. Qed.

Lemma mif_branch cond body s c0 :
  wf s → current_node s = Some c0 →
  nx.node_type (graph s) cond = Some "if" →
  (∀ s, wf s → msteps L s (body s)) →
  msteps L s (if_branch cond body s).
Proof.
  intros Hwf Hc0 Hcond Hbody. unfold if_branch. rewrite Hc0.
  set (s1 := set_current_node (Some cond) s).
  assert (msteps L s s1) as H01.
  { apply rtc_once, mstep_cursor. by eapply node_type_dom. }
  assert (wf s1) as Hwf1 by eauto using msteps_wf.
  pose proof (Hbody s1 Hwf1) as H12.
  assert (wf (body s1)) as Hwf2 by eauto using msteps_wf.
  destruct (steps_is_Some_current true s1 (body s1) Hwf1) as [c Hc];
    [by eapply msteps_steps|done|].
  rewrite Hc.
  assert (msteps L (body s1) (pdg_add_edge cond c "control" (body s1))) as H23.
  { apply rtc_once, mstep_branch_edge; [|by apply (wf_current _ Hwf2)].
    apply (steps_node_type true s1); [done|by eapply msteps_steps|done]. }
  etrans; [apply H01|]. etrans; [apply H12|]. etrans; [apply H23|].
  apply rtc_once, mstep_cursor.
  apply (steps_nodes true s (pdg_add_edge cond c "control" (body s1)));
    [done| |by apply (wf_current _ Hwf)].
  eapply msteps_steps; [done|].
  etrans; [apply H01|]. etrans; [apply H12|]. done.
Qed.

End msteps_of_methods.

Lemma assigned_all (L : list string) (l : list node) :
  flat_map assigned l ⊆ L → Forall (λ c, assigned c ⊆ L) l.
Proof.
  induction l as [|c l IH]; simpl; [by constructor|].
  intros H. constructor; [|apply IH]; set_solver.
Qed.

(** Both [visit] and [generic_visit] are sequences of such steps, the
    names recorded being left sides of assignments of the tree. *)
Lemma visit_msteps n :
  ∀ L, assigned n ⊆ L →
  ∀ s, wf s → msteps L s (visit n s) ∧ msteps L s (generic_visit n s).
Proof.
  induction n as
    [value|name|op l r IHl IHr|op e IHe|op l r IHl IHr|name args IHn IHa
    |name type init bitsize IHt IHi IHb|cond iftrue iffalse IHc IHt IHf
    |expr IHe|block_items IHb|cs IHcs] using node_ind;
    intros L HL s Hwf.
  - by split.
  - split; [by apply msteps_visit_ID|done].
  - simpl in HL.
    assert (msteps L s (visit r (visit l s))); [|done].
    destruct (IHl L ltac:(set_solver) s Hwf) as [H1 _]. etrans; [exact H1|].
    apply IHr; [set_solver|eauto using msteps_wf].
  - assert (msteps L s (visit e s)); [by apply IHe|done].
  - simpl in HL. split.
    + change (msteps L s (generic_visit r (assign_node op l r s))).
      pose proof (msteps_assign_node L op l r s ltac:(set_solver) Hwf) as H1.
      etrans; [exact H1|]. apply IHr; [set_solver|eauto using msteps_wf].
    + change (msteps L s (visit r (visit l s))).
      destruct (IHl L ltac:(set_solver) s Hwf) as [H1 _]. etrans; [exact H1|].
      apply IHr; [set_solver|eauto using msteps_wf].
  - simpl in HL. split.
    { unfold visit. apply msteps_add_node. set_solver. }
    destruct (IHn L ltac:(set_solver) s Hwf) as [H1 _].
    change (msteps L s
      (match args with
       | Some exprs => foldl (λ self c, visit c self) (visit name s) exprs
       | None => visit name s
       end)).
    destruct args as [exprs|]; [|done]. simpl in IHa.
    etrans; [exact H1|]. apply msteps_foldl; [|eauto using msteps_wf].
    assert (Forall (λ c, assigned c ⊆ L) exprs) as Ha
      by (apply assigned_all; set_solver).
    eapply Forall_impl; [exact (Forall_modus _ _ _
      (Forall_impl _ _ _ IHa (λ c H, H L)) Ha)|].
    intros c Hc s' Hs'. by apply Hc.
  - split; [by apply msteps_visit_Decl|]. simpl in HL.
    change (msteps L s
      (match bitsize with
       | Some c =>
           visit c (match init with
                    | Some c => visit c (match type with
                                         | Some c => visit c s | None => s end)
                    | None => match type with
                              | Some c => visit c s | None => s end
                    end)
       | None => match init with
                 | Some c => visit c (match type with
                                      | Some c => visit c s | None => s end)
                 | None => match type with
                           | Some c => visit c s | None => s end
                 end
       end)).
    assert (∀ o s, on_child (λ c, ∀ L, assigned c ⊆ L →
              ∀ s, wf s → msteps L s (visit c s) ∧ msteps L s (generic_visit c s)) o →
            match o with Some c => assigned c | None => [] end ⊆ L → wf s →
            msteps L s (match o with Some c => visit c s | None => s end)) as Hvo.
    { intros [c|] s0 H1 H2 H3; simpl in *; [by apply H1|done]. }
    pose proof (Hvo type s IHt ltac:(set_solver) Hwf) as H1.
    pose proof (Hvo init _ IHi ltac:(set_solver) (msteps_wf _ _ _ Hwf H1)) as H2.
    pose proof (Hvo bitsize _ IHb ltac:(set_solver)
                  (msteps_wf _ _ _ (msteps_wf _ _ _ Hwf H1) H2)) as H3.
    destruct type, init, bitsize; simpl in *;
      repeat (etrans; [eassumption|]); done.
  - simpl in HL.
    assert (∀ o s, on_child (λ c, ∀ L, assigned c ⊆ L →
              ∀ s, wf s → msteps L s (visit c s) ∧ msteps L s (generic_visit c s)) o →
            match o with Some c => assigned c | None => [] end ⊆ L → wf s →
            msteps L s (match o with Some c => visit c s | None => s end)) as Hvo.
    { intros [c|] s0 H1 H2 H3; simpl in *; [by apply H1|done]. }
    split.
    + rewrite visit_If_eq. cbv zeta. unfold if_node.
      set (cond_nid := nid_of (counter s)).
      set (s1 := (add_node _ "if" s).2).
      assert (msteps L s s1) as H01 by (apply msteps_add_node; set_solver).
      assert (wf s1) as Hwf1 by eauto using msteps_wf.
      assert (nx.node_type (graph s1) cond_nid = Some "if") as Hty
        by by apply add_node_type_new.
      assert (current_node s1 = Some cond_nid) as Hcur by done.
      set (s2 := match iftrue with
                 | Some b => if_branch cond_nid (visit b) s1
                 | None => s1
                 end).
      assert (msteps L s1 s2) as H12.
      { subst s2. destruct iftrue as [b|]; [|done]. simpl in IHt.
        eapply mif_branch; [done..|]. intros s' Hs'.
        apply IHt; [set_solver|done]. }
      assert (wf s2) as Hwf2 by eauto using msteps_wf.
      assert (current_node s2 = Some cond_nid) as Hcur2.
      { subst s2. destruct iftrue; [|done]. by rewrite if_branch_current. }
      etrans; [exact H01|]. etrans; [exact H12|].
      destruct iffalse as [b|]; [|done]. simpl in IHf.
      eapply mif_branch; [done..| |].
      * apply (steps_node_type true s1); [done|by eapply msteps_steps|done].
      * intros s' Hs'. apply IHf; [set_solver|done].
    + change (msteps L s
        (match iffalse with
         | Some c => visit c (match iftrue with
                              | Some c => visit c (visit cond s)
                              | None => visit cond s end)
         | None => match iftrue with
                   | Some c => visit c (visit cond s)
                   | None => visit cond s end
         end)).
      destruct (IHc L ltac:(set_solver) s Hwf) as [H0 _].
      pose proof (Hvo iftrue _ IHt ltac:(set_solver)
                    (msteps_wf _ _ _ Hwf H0)) as H1.
      pose proof (Hvo iffalse _ IHf ltac:(set_solver)
                    (msteps_wf _ _ _ (msteps_wf _ _ _ Hwf H0) H1)) as H2.
      destruct iftrue, iffalse; simpl in *;
        repeat (etrans; [eassumption|]); done.
  - simpl in HL. split.
    + change (msteps L s
        (match expr with
         | Some e => generic_visit e (add_node (return_label expr) "return" s).2
         | None => (add_node (return_label expr) "return" s).2
         end)).
      destruct expr as [e|]; [|apply msteps_add_node; set_solver].
      simpl in IHe.
      trans (add_node (return_label (Some e)) "return" s).2;
        [apply msteps_add_node; set_solver|].
      apply IHe; [done|]. by apply wf_add_node.
    + change (msteps L s (match expr with Some c => visit c s | None => s end)).
      destruct expr as [e|]; [|done]. by apply IHe.
  - simpl in HL.
    assert (msteps L s
      (match block_items with
       | Some stmts => foldl (λ self c, visit c self) s stmts
       | None => s
       end)); [|done].
    destruct block_items as [stmts|]; [|done]. simpl in IHb.
    apply msteps_foldl; [|done].
    assert (Forall (λ c, assigned c ⊆ L) stmts) as Ha by by apply assigned_all.
    eapply Forall_impl; [exact (Forall_modus _ _ _
      (Forall_impl _ _ _ IHb (λ c H, H L)) Ha)|].
    intros c Hc s' Hs'. by apply Hc.
  - simpl in HL.
    assert (msteps L s (foldl (λ self c, visit c self) s cs)); [|done].
    apply msteps_foldl; [|done].
    assert (Forall (λ c, assigned c ⊆ L) cs) as Ha by by apply assigned_all.
    eapply Forall_impl; [exact (Forall_modus _ _ _
      (Forall_impl _ _ _ IHcs (λ c H, H L)) Ha)|].
    intros c Hc s' Hs'. by apply Hc.
Qed.

(** ** Kinds of nodes and edges *)

Lemma add_node_nodes l k s :
  wf s →
  nx.nodes (graph (add_node l k s).2) =
  <[nid_of (counter s) := {["label" := l; "type" := k]}]> (nx.nodes (graph s)).
Proof.
  intros Hwf. rewrite add_node_graph. cbv zeta.
  assert (nx.nodes (nx.add_node (nid_of (counter s))
                      {["label" := l; "type" := k]} (graph s)) =
          <[nid_of (counter s) := {["label" := l; "type" := k]}]>
            (nx.nodes (graph s))) as Hn.
  { simpl. pose proof (wf_fresh _ Hwf) as Hf.
    apply not_elem_of_dom in Hf. rewrite Hf. simpl. unfold nx.update.
    by rewrite (right_id_L ∅ (∪)). }
  destruct (current_node s) as [c|] eqn:E; [|done].
  rewrite add_edge_nodes_known; [done| |].
  - rewrite add_node_dom. apply (wf_current _ Hwf) in E. set_solver.
  - rewrite add_node_dom. set_solver.
Qed.

Lemma add_node_type_inv l k s u t :
  wf s →
  nx.node_type (graph (add_node l k s).2) u = Some t →
  (u = nid_of (counter s) ∧ t = k) ∨ nx.node_type (graph s) u = Some t.
Proof.
  intros Hwf. unfold nx.node_type. rewrite add_node_nodes by done.
  rewrite lookup_insert. case_decide as E; [|by right].
  subst u. simpl. rewrite lookup_insert_ne, lookup_singleton_eq by done.
  intros [= <-]. by left.
Qed.

Lemma pdg_add_edge_nodes u v k s :
  u ∈ dom (nx.nodes (graph s)) → v ∈ dom (nx.nodes (graph s)) →
  nx.nodes (graph (pdg_add_edge u v k s)) = nx.nodes (graph s).
Proof. intros Hu Hv. by apply add_edge_nodes_known. Qed.

(** [add_node] keeps all this, except that a new [use] node has no data
    edge yet. *)
Lemma typed_add_node l k s :
  wf s → typed (graph s) → k ∈ node_kinds →
  let g' := graph (add_node l k s).2 in
  (∀ u, u ∈ dom (nx.nodes g') →
     ∃ l k, nx.node_label g' u = Some l ∧ nx.node_type g' u = Some k ∧
            k ∈ node_kinds) ∧
  (∀ u v, (u, v) ∈ dom (nx.adj g') →
     nx.edge_type g' u v = Some "control" ∨ nx.edge_type g' u v = Some "data") ∧
  (∀ u v, nx.edge_type g' u v = Some "data" →
     nx.node_type g' u = Some "assign" ∧
     (nx.node_type g' v = Some "use" ∨ nx.node_type g' v = Some "func_call")) ∧
  (∀ v, nx.node_type g' v = Some "use" → v ≠ nid_of (counter s) →
     ∃ u, nx.edge_type g' u v = Some "data").
Proof.
  intros Hwf [Hn He Hd Hu] Hk. cbv zeta. split; [|split; [|split]].
  - intros u. rewrite add_node_nodes_dom by done.
    rewrite elem_of_union, elem_of_singleton. intros [->|Hu'].
    + exists l, k. by rewrite add_node_label_new, add_node_type_new.
    + destruct (Hn u Hu') as (l' & k' & Hl' & Hk' & ?). exists l', k'.
      by rewrite (add_node_label_old _ _ _ _ _ Hwf Hl'),
                 (add_node_type_old _ _ _ Hwf _ _ Hk').
  - intros u v. rewrite add_node_adj_dom.
    destruct (current_node s) as [c|] eqn:Ec.
    + rewrite elem_of_union, elem_of_singleton. intros [[= -> ->]|Hin].
      * left. by apply add_node_edge_new.
      * rewrite add_node_edge_old; [by apply He|done|].
        destruct (He _ _ Hin) as [-> | ->]; done.
    + intros Hin. rewrite add_node_edge_old; [by apply He|done|].
      destruct (He _ _ Hin) as [-> | ->]; done.
  - intros u v [(_ & _ & [=])|Hold]%add_node_edge_inv.
    destruct (Hd _ _ Hold) as [Ha Hv]. split.
    + by apply add_node_type_old.
    + destruct Hv; [left|right]; by apply add_node_type_old.
  - intros v [[-> _]|Hold]%add_node_type_inv Hne; [done| |done].
    destruct (Hu v Hold) as [u Hdata]. exists u.
    rewrite add_node_edge_old; [done..|congruence].
Qed.

(** An edge between existing nodes, of a kind that fits its end points. *)
Lemma typed_pdg_add_edge a c k s :
  typed (graph s) →
  a ∈ dom (nx.nodes (graph s)) → c ∈ dom (nx.nodes (graph s)) →
  (k = "data" ∧ nx.node_type (graph s) a = Some "assign" ∧
   (nx.node_type (graph s) c = Some "use" ∨
    nx.node_type (graph s) c = Some "func_call")) ∨
  (k = "control" ∧ ∃ t, nx.node_type (graph s) a = Some t ∧ t ≠ "assign") →
  typed (graph (pdg_add_edge a c k s)).
Proof.
  intros [Hn He Hd Hu] Ha Hc Hk.
  pose proof (pdg_add_edge_nodes a c k s Ha Hc) as Hnodes.
  assert (∀ u, nx.node_type (graph (pdg_add_edge a c k s)) u
               = nx.node_type (graph s) u) as Hty
    by (intros; unfold nx.node_type; by rewrite Hnodes).
  assert (∀ u, nx.node_label (graph (pdg_add_edge a c k s)) u
               = nx.node_label (graph s) u) as Hlb
    by (intros; unfold nx.node_label; by rewrite Hnodes).
  assert (nx.edge_type (graph (pdg_add_edge a c k s)) a c = Some k) as Hnew
    by apply edge_type_add_edge_eq.
  assert (∀ u v, (a, c) ≠ (u, v) →
            nx.edge_type (graph (pdg_add_edge a c k s)) u v
            = nx.edge_type (graph s) u v) as Hold
    by (intros; by apply edge_type_add_edge_ne).
  split.
  - intros u. rewrite Hnodes, Hty, Hlb. apply Hn.
  - intros u v. simpl. rewrite dom_insert_L, elem_of_union, elem_of_singleton.
    destruct (decide ((a, c) = (u, v))) as [[= <- <-]|Hne].
    + intros _. change (nx.edge_type (graph (pdg_add_edge a c k s)) a c
                        = Some "control" ∨
                        nx.edge_type (graph (pdg_add_edge a c k s)) a c
                        = Some "data").
      rewrite Hnew. destruct Hk as [[-> _]|[-> _]]; auto.
    + intros [[= -> ->]|Hin]; [done|].
      change (nx.edge_type (graph (pdg_add_edge a c k s)) u v = Some "control" ∨
              nx.edge_type (graph (pdg_add_edge a c k s)) u v = Some "data").
      rewrite Hold by done. by apply He.
  - intros u v. rewrite !Hty.
    destruct (decide ((a, c) = (u, v))) as [[= <- <-]|Hne].
    + rewrite Hnew. intros [= ->].
      destruct Hk as [(_ & ? & ?)|[[=] _]]. done.
    + rewrite Hold by done. apply Hd.
  - intros v. rewrite Hty. intros Hv. destruct (Hu v Hv) as [u Hdata].
    exists u. destruct (decide ((a, c) = (u, v))) as [[= <- <-]|Hne].
    + rewrite Hnew. destruct Hk as [(-> & _)|(_ & t & Ht & Hne)]; [done|].
      destruct (Hd _ _ Hdata) as [Ha' _]. congruence.
    + by rewrite Hold.
Qed.

Lemma mstep_typed L s s' :
  wf s → typed (graph s) → mstep L s s' → typed (graph s').
Proof.
  intros Hwf Ht
    [l k Hk|a c Ha Hc|x c Hx Hc|name def Hd|cond c Hcond Hc|cond Hcond].
  - destruct (typed_add_node l k s Hwf Ht) as (H1 & H2 & H3 & H4).
    { unfold node_kinds. set_solver. }
    split; [done..|]. intros v Hv. apply H4; [done|]. intros ->.
    rewrite add_node_type_new in Hv. injection Hv as ->.
    unfold statement_kinds in Hk. set_solver.
  - apply typed_pdg_add_edge; eauto using node_type_dom.
  - done.
  - rewrite (visit_ID_eq _ _ _ Hd).
    set (s1 := (add_node ("Use " +:+ name) "use" s).2).
    destruct (typed_add_node ("Use " +:+ name) "use" s Hwf Ht)
      as (H1 & H2 & H3 & H4); [unfold node_kinds; set_solver|].
    fold s1 in H1, H2, H3, H4.
    assert (nx.node_type (graph s1) def = Some "assign") as Hdef
      by (apply add_node_type_old; [done|by apply (wf_defs _ Hwf name)]).
    assert (nx.node_type (graph s1) (nid_of (counter s)) = Some "use") as Huse
      by apply add_node_type_new.
    pose proof (node_type_dom _ _ _ Hdef) as Hdd.
    pose proof (node_type_dom _ _ _ Huse) as Hud.
    pose proof (pdg_add_edge_nodes def (nid_of (counter s)) "data" s1 Hdd Hud)
      as Hnodes.
    assert (∀ u, nx.node_type
                   (graph (pdg_add_edge def (nid_of (counter s)) "data" s1)) u
                 = nx.node_type (graph s1) u) as Hty
      by (intros; unfold nx.node_type; by rewrite Hnodes).
    assert (∀ u, nx.node_label
                   (graph (pdg_add_edge def (nid_of (counter s)) "data" s1)) u
                 = nx.node_label (graph s1) u) as Hlb
      by (intros; unfold nx.node_label; by rewrite Hnodes).
    split.
    + intros u. rewrite Hnodes, Hty, Hlb. apply H1.
    + intros u v Hin.
      destruct (decide ((def, nid_of (counter s)) = (u, v))) as [[= <- <-]|Hne].
      * right. apply edge_type_add_edge_eq.
      * simpl in Hin. rewrite dom_insert_L in Hin.
        simpl. rewrite edge_type_add_edge_ne by done. apply H2. set_solver.
    + intros u v. rewrite !Hty.
      destruct (decide ((def, nid_of (counter s)) = (u, v))) as [[= <- <-]|Hne].
      * intros _. split; [done|by left].
      * simpl. rewrite edge_type_add_edge_ne by done. apply H3.
    + intros v. rewrite Hty. intros Hv.
      destruct (decide (v = nid_of (counter s))) as [->|Hne].
      * exists def. apply edge_type_add_edge_eq.
      * destruct (H4 v Hv Hne) as [u Hdata]. exists u.
        destruct (decide ((def, nid_of (counter s)) = (u, v)))
          as [[= <- <-]|Hne']; [done|].
        simpl. by rewrite edge_type_add_edge_ne.
  - apply typed_pdg_add_edge; [done|by eapply node_type_dom|done|].
    right. split; [done|]. by exists "if".
  - done.
Qed.

Lemma typed_empty : typed nx.empty.
Proof.
  split; simpl.
  - intros u. rewrite dom_empty_L. set_solver.
  - intros u v. rewrite dom_empty_L. set_solver.
  - intros u v. unfold nx.edge_type. simpl. by rewrite lookup_empty.
  - intros v. unfold nx.node_type. simpl. by rewrite lookup_empty.
Qed.

(** X4: after a run on a newly constructed generator, whatever the tree:
    every node has a label and a kind among [use], [decl], [assign],
    [func_call], [if], [return]; every edge is a [control] or a [data]
    edge; every data edge leaves an [assign] node and enters a [use] or a
    [func_call] node; every [use] node has an incoming data edge. *)
Theorem run_graph_is_typed (ast : node) :
  let g := (run ast).1 in
  (∀ u, u ∈ dom (nx.nodes g) →
     ∃ l k, nx.node_label g u = Some l ∧ nx.node_type g u = Some k ∧
            k ∈ ["use"; "decl"; "assign"; "func_call"; "if"; "return"]) ∧
  (∀ u v, (u, v) ∈ dom (nx.adj g) →
     nx.edge_type g u v = Some "control" ∨ nx.edge_type g u v = Some "data") ∧
  (∀ u v, nx.edge_type g u v = Some "data" →
     nx.node_type g u = Some "assign" ∧
     (nx.node_type g v = Some "use" ∨ nx.node_type g v = Some "func_call")) ∧
  (∀ v, nx.node_type g v = Some "use" →
     ∃ u, nx.edge_type g u v = Some "data").
Proof.
  cbv zeta. rewrite generate_visit. simpl fst.
  assert (typed (graph (visit ast (new_Visitor new_PDGGenerator)))) as [H1 H2 H3 H4].
  { apply (msteps_preserve (assigned ast) (λ s, typed (graph s)))
      with (s := new_Visitor new_PDGGenerator);
      [intros s s'; apply mstep_typed|apply wf_new|apply typed_empty|].
    by apply visit_msteps, wf_new. }
  done.
Qed.

(** ** Names in the last-assignment map and on [use] nodes *)

Lemma mstep_named L s s' : wf s → named L s → mstep L s s' → named L s'.
Proof.
  intros Hwf [Hd Hu]
    [l k Hk|a c Ha Hc|x c Hx Hc|name def Hdef|cond c Hcond Hc|cond Hcond].
  - split.
    + intros x. rewrite add_node_defs. apply Hd.
    + intros v [[_ <-]|Hold]%add_node_type_inv; [| |done].
      { unfold statement_kinds in Hk. set_solver. }
      destruct (Hu v Hold) as (x & Hx & Hl). exists x. split; [done|].
      by apply add_node_label_old.
  - split; [done|]. intros v.
    pose proof (pdg_add_edge_nodes a c "data" s
                  (node_type_dom _ _ _ Ha) (node_type_dom _ _ _ Hc)) as Hn.
    unfold nx.node_type, nx.node_label. rewrite Hn. apply Hu.
  - split; [|done]. intros y. simpl. rewrite lookup_insert.
    case_decide; [by subst|apply Hd].
  - rewrite (visit_ID_eq _ _ _ Hdef).
    set (s1 := (add_node ("Use " +:+ name) "use" s).2).
    assert (nx.node_type (graph s1) def = Some "assign") as Hdef1
      by (apply add_node_type_old; [done|by apply (wf_defs _ Hwf name)]).
    assert (nx.node_type (graph s1) (nid_of (counter s)) = Some "use") as Huse
      by apply add_node_type_new.
    pose proof (pdg_add_edge_nodes def (nid_of (counter s)) "data" s1
                  (node_type_dom _ _ _ Hdef1) (node_type_dom _ _ _ Huse)) as Hn.
    split.
    + intros x. change (is_Some (defs s1 !! x) → x ∈ L).
      subst s1. rewrite add_node_defs. apply Hd.
    + intros v. unfold nx.node_type, nx.node_label. rewrite Hn.
      fold (nx.node_type (graph s1) v). fold (nx.node_label (graph s1) v).
      subst s1. intros [[-> _]|Hold]%add_node_type_inv; [| |done].
      * exists name. split; [by apply Hd|]. apply add_node_label_new.
      * destruct (Hu v Hold) as (x & Hx & Hl). exists x. split; [done|].
        by apply add_node_label_old.
  - split; [done|]. intros v.
    pose proof (pdg_add_edge_nodes cond c "control" s
                  (node_type_dom _ _ _ Hcond) Hc) as Hn.
    unfold nx.node_type, nx.node_label. rewrite Hn. apply Hu.
  - done.
Qed.

Lemma elem_of_nodes_of_type G k u :
  u ∈ nx.nodes_of_type G k ↔ nx.node_type G u = Some k.
Proof.
  unfold nx.nodes_of_type, nx.node_type. rewrite list_elem_of_omap. split.
  - intros [[e d] [Hin Hd]]. simpl in Hd. case_decide; [|done].
    simplify_eq. apply elem_of_map_to_list in Hin. by rewrite Hin.
  - destruct (nx.nodes G !! u) as [d|] eqn:E; [|done]. simpl. intros Hd.
    exists (u, d). rewrite elem_of_map_to_list. split; [done|].
    simpl. by rewrite decide_True.
Qed.

(** X5: after a run on a newly constructed generator, every name in the
    last-assignment map is the left side of an assignment of the tree, and
    every [use] node is labelled "Use x" for such a name [x].  A tree
    without assignments (declarations with initializers included) leaves
    the map empty and gets no [use] node. *)
Theorem uses_name_assigned_variables (ast : node) :
  let g := (run ast).1 in
  let gen := (run ast).2 in
  (∀ x, x ∈ dom (last_assignment gen) → x ∈ assigned ast) ∧
  (∀ v, nx.node_type g v = Some "use" →
     ∃ x, x ∈ assigned ast ∧ nx.node_label g v = Some ("Use " +:+ x)) ∧
  (assigned ast = [] →
     last_assignment gen = ∅ ∧ nx.nodes_of_type g "use" = []).
Proof.
  cbv zeta. rewrite generate_visit. simpl fst. simpl snd.
  assert (named (assigned ast) (visit ast (new_Visitor new_PDGGenerator)))
    as [Hd Hu].
  { apply (msteps_preserve (assigned ast) (named (assigned ast)))
      with (s := new_Visitor new_PDGGenerator);
      [intros s s'; apply mstep_named|apply wf_new| |].
    - split; simpl.
      + intros x. rewrite lookup_empty. by intros [? ?].
      + intros v. unfold nx.node_type. simpl. by rewrite lookup_empty.
    - by apply visit_msteps, wf_new. }
  split; [intros x Hx%elem_of_dom; by apply Hd|]. split; [done|].
  intros E. rewrite E in Hd, Hu. split.
  - apply map_empty. intros x.
    destruct (defs (visit ast (new_Visitor new_PDGGenerator)) !! x) eqn:Ex;
      [|done].
    exfalso. eapply elem_of_nil, Hd. by rewrite Ex.
  - apply elem_of_nil_inv. intros v Hv%elem_of_nodes_of_type.
    destruct (Hu v Hv) as (x & Hx & _). by apply elem_of_nil in Hx.
Qed.

(* ===================================================================== *)
(** * Calls on the right, self reference, direct operands *)

Lemma nid_of_succ_ne i : nid_of (S i) ≠ nid_of i.
Proof. intros H%nid_of_inj. lia. Qed.

(** The call node, the [assign] node and the edges around them, as
    [call_then_assign] leaves them. *)
Lemma call_then_assign_graph f a la s :
  wf s →
  let r := call_then_assign f a la s in
  let call := nid_of (counter s) in
  let asg := nid_of (S (counter s)) in
  r.1 = asg ∧ wf r.2 ∧ counter r.2 = S (S (counter s)) ∧ defs r.2 = defs s ∧
  current_node r.2 = Some asg ∧
  nx.node_type (graph r.2) call = Some "func_call" ∧
  nx.node_label (graph r.2) call = Some (get_text (FuncCall f a)) ∧
  nx.node_type (graph r.2) asg = Some "assign" ∧
  nx.node_label (graph r.2) asg = Some la ∧
  nx.edge_type (graph r.2) call asg = Some "control" ∧
  nx.edge_type (graph r.2) asg call = Some "data" ∧
  (∀ u, current_node s = Some u →
        nx.edge_type (graph r.2) u call = Some "control") ∧
  (∀ u t, nx.node_type (graph s) u = Some t →
          nx.node_type (graph r.2) u = Some t) ∧
  (∀ u t, nx.node_label (graph s) u = Some t →
          nx.node_label (graph r.2) u = Some t).
Proof.
  intros Hwf. cbv zeta.
  rewrite call_then_assign_eq. cbv zeta. unfold visit_FuncCall.
  change (get_text (FuncCall f a)) with
    ("Call " +:+ get_text f +:+ "(" +:+
     join ", " (match a with Some exprs => map get_text exprs | None => [] end)
     +:+ ")").
  set (lc := "Call " +:+ _).
  set (s1 := (add_node lc "func_call" s).2).
  set (s2 := (add_node la "assign" s1).2).
  assert (wf s1) as H1 by by apply wf_add_node.
  assert (wf s2) as H2 by by apply wf_add_node.
  assert (counter s1 = S (counter s)) as Hc1 by apply add_node_counter.
  assert (counter s2 = S (S (counter s))) as Hc2
    by (subst s2; by rewrite add_node_counter, Hc1).
  unfold fst, snd. rewrite Hc1.
  assert (nx.node_type (graph s2) (nid_of (S (counter s))) = Some "assign")
    as Hta by (rewrite <-Hc1; by apply add_node_type_new).
  assert (nx.node_label (graph s2) (nid_of (S (counter s))) = Some la)
    as Hla by (rewrite <-Hc1; by apply add_node_label_new).
  assert (nx.node_type (graph s2) (nid_of (counter s)) = Some "func_call")
    as Htc by by apply add_node_type_old, add_node_type_new.
  assert (nx.node_label (graph s2) (nid_of (counter s)) = Some lc)
    as Hlc by by apply add_node_label_old, add_node_label_new.
  assert (nx.edge_type (graph s2) (nid_of (counter s)) (nid_of (S (counter s)))
          = Some "control") as Hctl.
  { rewrite <-Hc1. by apply add_node_edge_new. }
  split; [done|].
  split; [apply wf_pdg_add_edge; eauto using node_type_dom|].
  split; [done|].
  split; [change (defs s2 = defs s); subst s2 s1; by rewrite !add_node_defs|].
  split; [by rewrite <-Hc1|].
  split; [by apply node_type_add_edge|]. split; [by apply node_label_add_edge|].
  split; [by apply node_type_add_edge|]. split; [by apply node_label_add_edge|].
  split.
  { simpl. rewrite edge_type_add_edge_ne; [done|].
    intros E. apply (nid_of_succ_ne (counter s)). congruence. }
  split; [apply edge_type_add_edge_eq|]. split; [|split].
  - intros u Hu.
    assert (nx.edge_type (graph s1) u (nid_of (counter s)) = Some "control")
      as He1 by by apply add_node_edge_new.
    assert (nx.edge_type (graph s2) u (nid_of (counter s)) = Some "control")
      as He2 by (subst s2; rewrite add_node_edge_old; [done|done|congruence]).
    simpl. rewrite edge_type_add_edge_ne; [done|]. intros [= <-].
    apply (wf_current _ Hwf), (wf_nodes _ Hwf) in Hu as (j & Hj & E).
    apply nid_of_inj in E. lia.
  - intros u t Hu. by apply node_type_add_edge, add_node_type_old,
                            add_node_type_old.
  - intros u t Hu. by apply node_label_add_edge, add_node_label_old,
                            add_node_label_old.
Qed.

(** X6: an assignment whose right side is a call, from a well-formed
    state: the call's node comes first, labelled as [get_text] renders the
    call, then the [assign] node; at the end of the visit (the operands of
    the call visited too) the control edge runs from the call to the
    [assign] node and the data edge back from the [assign] node to the
    call. *)
Theorem assignment_from_call_edges
    (op : string) (l f : node) (a : option (list node)) (s : Visitor) :
  wf s →
  let call := nid_of (counter s) in
  let asg := nid_of (S (counter s)) in
  let s' := visit (Assignment op l (FuncCall f a)) s in
  nx.node_type (graph s') call = Some "func_call" ∧
  nx.node_label (graph s') call = Some (get_text (FuncCall f a)) ∧
  nx.node_type (graph s') asg = Some "assign" ∧
  nx.node_label (graph s') asg = Some (get_text l +:+ " " +:+ op +:+ " [call]") ∧
  nx.edge_type (graph s') call asg = Some "control" ∧
  nx.edge_type (graph s') asg call = Some "data".
Proof.
  intros Hwf. cbv zeta.
  change (visit (Assignment op l (FuncCall f a)) s)
    with (generic_visit (FuncCall f a) (assign_node op l (FuncCall f a) s)).
  rewrite assign_node_call. cbv zeta.
  destruct (call_then_assign_graph f a
              (get_text l +:+ " " +:+ op +:+ " [call]") s Hwf)
    as (Er & Hwf1 & _ & _ & _ & Htc & Hlc & Hta & Hla & Hctl & Hdata & _).
  set (r := call_then_assign f a _ s) in *. rewrite Er.
  set (s1 := set_last_assignment (get_text l) _ r.2).
  assert (wf s1) as Hwf1' by by apply wf_set_last_assignment.
  assert (steps true s1 (generic_visit (FuncCall f a) s1)) as Hs
    by by apply (visit_steps true (FuncCall f a)).
  split; [by apply (steps_node_type true s1)|].
  split; [by apply (steps_node_label true s1)|].
  split; [by apply (steps_node_type true s1)|].
  split; [by apply (steps_node_label true s1)|].
  split; [by apply (steps_control_edge true s1 _ _ _ "func_call")|].
  by apply (steps_data_edge true s1).
Qed.

Lemma assignment_from_call_edges_witness :
  let op := "=" in
  let l := ID "r" in
  let f := ID "f" in
  let a := Some [ID "y"; Constant "1"] in
  let s := visit self_increment (new_Visitor new_PDGGenerator) in
  let call := nid_of (counter s) in
  let asg := nid_of (S (counter s)) in
  let s' := visit (Assignment op l (FuncCall f a)) s in
  nx.node_type (graph s') call = Some "func_call" ∧
  nx.node_label (graph s') call = Some (get_text (FuncCall f a)) ∧
  nx.node_type (graph s') asg = Some "assign" ∧
  nx.node_label (graph s') asg = Some (get_text l +:+ " " +:+ op +:+ " [call]") ∧
  nx.edge_type (graph s') call asg = Some "control" ∧
  nx.edge_type (graph s') asg call = Some "data".
Proof.
  apply (assignment_from_call_edges "=" (ID "r") (ID "f")
           (Some [ID "y"; Constant "1"])
           (visit self_increment (new_Visitor new_PDGGenerator))).
  apply visit_wf, wf_new.
Defined.

(** X7: a declaration initialised by a call, from a well-formed state:
    three nodes in the order [decl], [func_call], [assign], chained by
    control edges, a data edge from the [assign] node back to the call,
    and the last-assignment map untouched. *)
Theorem declaration_from_call_edges
    (name : string) (f : node) (a : option (list node)) (s : Visitor) :
  wf s →
  let decl := nid_of (counter s) in
  let call := nid_of (S (counter s)) in
  let asg := nid_of (S (S (counter s))) in
  let s' := visit_Decl name (Some (FuncCall f a)) s in
  counter s' = S (S (S (counter s))) ∧
  defs s' = defs s ∧
  current_node s' = Some asg ∧
  nx.node_type (graph s') decl = Some "decl" ∧
  nx.node_label (graph s') decl = Some ("Decl " +:+ name) ∧
  nx.node_type (graph s') call = Some "func_call" ∧
  nx.node_label (graph s') call = Some (get_text (FuncCall f a)) ∧
  nx.node_type (graph s') asg = Some "assign" ∧
  nx.node_label (graph s') asg = Some (name +:+ " = [call]") ∧
  nx.edge_type (graph s') decl call = Some "control" ∧
  nx.edge_type (graph s') call asg = Some "control" ∧
  nx.edge_type (graph s') asg call = Some "data".
Proof.
  intros Hwf. cbv zeta. rewrite visit_Decl_call.
  set (s0 := (add_node ("Decl " +:+ name) "decl" s).2).
  assert (wf s0) as Hwf0 by by apply wf_add_node.
  assert (counter s0 = S (counter s)) as Hc0 by apply add_node_counter.
  assert (current_node s0 = Some (nid_of (counter s))) as Hcur0 by done.
  destruct (call_then_assign_graph f a (name +:+ " = [call]") s0 Hwf0)
    as (_ & Hwf1 & Hc & Hd & Hcur & Htc & Hlc & Hta & Hla & Hctl & Hdata
        & Hprev & Hty & Hlb).
  rewrite Hc0 in *.
  split; [done|]. split; [by rewrite Hd; apply add_node_defs|].
  split; [done|].
  split; [by apply Hty, add_node_type_new|].
  split; [by apply Hlb, add_node_label_new|].
  do 4 (split; [done|]).
  split; [by apply Hprev|done].
Qed.

Lemma declaration_from_call_edges_witness :
  let name := "r" in
  let f := ID "f" in
  let a := Some [ID "y"] in
  let s := visit self_increment (new_Visitor new_PDGGenerator) in
  let decl := nid_of (counter s) in
  let call := nid_of (S (counter s)) in
  let asg := nid_of (S (S (counter s))) in
  let s' := visit_Decl name (Some (FuncCall f a)) s in
  counter s' = S (S (S (counter s))) ∧
  defs s' = defs s ∧
  current_node s' = Some asg ∧
  nx.node_type (graph s') decl = Some "decl" ∧
  nx.node_label (graph s') decl = Some ("Decl " +:+ name) ∧
  nx.node_type (graph s') call = Some "func_call" ∧
  nx.node_label (graph s') call = Some (get_text (FuncCall f a)) ∧
  nx.node_type (graph s') asg = Some "assign" ∧
  nx.node_label (graph s') asg = Some (name +:+ " = [call]") ∧
  nx.edge_type (graph s') decl call = Some "control" ∧
  nx.edge_type (graph s') call asg = Some "control" ∧
  nx.edge_type (graph s') asg call = Some "data".
Proof.
  apply (declaration_from_call_edges "r" (ID "f") (Some [ID "y"])
           (visit self_increment (new_Visitor new_PDGGenerator))).
  apply visit_wf, wf_new.
Defined.

(** X8: a variable used on the right of an assignment to itself.  From a
    well-formed state, [x op (x o e)] emits the [assign] node, then the
    node "Use x", and the data edge into that [use] node comes from this
    very [assign] node, whatever definition of [x] the map held before:
    the map is updated before the operands are visited. *)
Theorem self_reference_uses_own_assignment
    (op x o : string) (e : node) (s : Visitor) :
  wf s →
  let asg := nid_of (counter s) in
  let use := nid_of (S (counter s)) in
  let s' := visit (Assignment op (ID x) (BinaryOp o (ID x) e)) s in
  nx.node_type (graph s') asg = Some "assign" ∧
  nx.node_type (graph s') use = Some "use" ∧
  nx.node_label (graph s') use = Some ("Use " +:+ x) ∧
  nx.edge_type (graph s') asg use = Some "data".
Proof.
  intros Hwf. cbv zeta.
  change (visit (Assignment op (ID x) (BinaryOp o (ID x) e)) s)
    with (visit e (visit_ID x
            (assign_node op (ID x) (BinaryOp o (ID x) e) s))).
  rewrite assign_node_other by done.
  change (get_text (ID x)) with x.
  set (lbl := x +:+ " " +:+ op +:+ " " +:+ get_text (BinaryOp o (ID x) e)).
  set (s0 := (add_node lbl "assign" s).2).
  set (s1 := set_last_assignment x (nid_of (counter s)) s0).
  assert (wf s0) as Hwf0 by by apply wf_add_node.
  assert (nx.node_type (graph s0) (nid_of (counter s)) = Some "assign") as Hta
    by by apply add_node_type_new.
  assert (wf s1) as Hwf1 by by apply wf_set_last_assignment.
  assert (defs s1 !! x = Some (nid_of (counter s))) as Hd
    by apply lookup_insert_eq.
  assert (counter s1 = S (counter s)) as Hc1 by apply add_node_counter.
  rewrite (visit_ID_eq _ _ _ Hd), Hc1.
  set (s2 := (add_node ("Use " +:+ x) "use" s1).2).
  assert (wf s2) as Hwf2 by by apply wf_add_node.
  assert (nx.node_type (graph s2) (nid_of (S (counter s))) = Some "use") as Htu
    by (rewrite <-Hc1; by apply add_node_type_new).
  assert (nx.node_label (graph s2) (nid_of (S (counter s)))
          = Some ("Use " +:+ x)) as Hlu
    by (rewrite <-Hc1; by apply add_node_label_new).
  assert (nx.node_type (graph s2) (nid_of (counter s)) = Some "assign") as Hta2
    by by apply add_node_type_old.
  set (s3 := pdg_add_edge (nid_of (counter s)) (nid_of (S (counter s)))
               "data" s2).
  assert (wf s3) as Hwf3
    by (apply wf_pdg_add_edge; eauto using node_type_dom).
  assert (steps true s3 (visit e s3)) as Hs by by apply (visit_steps true e).
  split; [by apply (steps_node_type true s3), node_type_add_edge|].
  split; [by apply (steps_node_type true s3), node_type_add_edge|].
  split; [by apply (steps_node_label true s3), node_label_add_edge|].
  apply (steps_data_edge true s3); [done|done| |].
  - by apply node_type_add_edge.
  - apply edge_type_add_edge_eq.
Qed.

Lemma self_reference_uses_own_assignment_witness :
  let op := "=" in
  let x := "x" in
  let o := "+" in
  let e := Constant "1" in
  let s := visit self_increment (new_Visitor new_PDGGenerator) in
  let asg := nid_of (counter s) in
  let use := nid_of (S (counter s)) in
  let s' := visit (Assignment op (ID x) (BinaryOp o (ID x) e)) s in
  nx.node_type (graph s') asg = Some "assign" ∧
  nx.node_type (graph s') use = Some "use" ∧
  nx.node_label (graph s') use = Some ("Use " +:+ x) ∧
  nx.edge_type (graph s') asg use = Some "data".
Proof.
  apply (self_reference_uses_own_assignment "=" "x" "+" (Constant "1")
           (visit self_increment (new_Visitor new_PDGGenerator))).
  apply visit_wf, wf_new.
Defined.

(** X10: only what lies below an operand is visited.  [visit_Assignment]
    and [visit_Return] call [generic_visit] on the operand, which visits
    its children and not the operand itself: a variable with a recorded
    assignment emits a [use] node when it is visited, but none when it is
    the whole right-hand side of an assignment or the whole returned
    expression. *)
Theorem direct_operand_emits_no_use
    (op : string) (lv : node) (x d : string) (s : Visitor) :
  wf s → defs s !! x = Some d →
  nx.node_type (graph (visit (ID x) s)) (nid_of (counter s)) = Some "use" ∧
  (∀ u, nx.node_type (graph (visit (Return (Some (ID x))) s)) u = Some "use" →
        nx.node_type (graph s) u = Some "use") ∧
  (∀ u, nx.node_type (graph (visit (Assignment op lv (ID x)) s)) u
        = Some "use" →
        nx.node_type (graph s) u = Some "use").
Proof.
  intros Hwf Hd. split; [|split].
  - change (visit (ID x) s) with (visit_ID x s).
    rewrite (visit_ID_eq _ _ _ Hd).
    by apply node_type_add_edge, add_node_type_new.
  - intros u.
    change (visit (Return (Some (ID x))) s)
      with (add_node ("Return " +:+ x) "return" s).2.
    intros Hu. apply add_node_type_inv in Hu; [|done].
    by destruct Hu as [[_ [=]]|Hu].
  - intros u.
    change (visit (Assignment op lv (ID x)) s)
      with (assign_node op lv (ID x) s).
    rewrite assign_node_other by done.
    change (graph (set_last_assignment ?a ?b ?t)) with (graph t).
    intros Hu. apply add_node_type_inv in Hu; [|done].
    by destruct Hu as [[_ [=]]|Hu].
Qed.

Lemma direct_operand_emits_no_use_witness :
  let s := visit self_increment (new_Visitor new_PDGGenerator) in
  nx.node_type (graph (visit (ID "x") s)) (nid_of (counter s)) = Some "use" ∧
  (∀ u, nx.node_type (graph (visit (Return (Some (ID "x"))) s)) u
        = Some "use" →
        nx.node_type (graph s) u = Some "use") ∧
  (∀ u, nx.node_type (graph (visit (Assignment "=" (ID "y") (ID "x")) s)) u
        = Some "use" →
        nx.node_type (graph s) u = Some "use").
Proof.
  apply (direct_operand_emits_no_use "=" (ID "y") "x" "n0"
           (visit self_increment (new_Visitor new_PDGGenerator))).
  - apply visit_wf, wf_new.
  - by vm_compute.
Defined.

(* ===================================================================== *)
(** * More on the scorer: the similarity of a round *)

Lemma sum_list_with_ext {A} (f g : A → nat) (ls : list A) :
  (∀ x, x ∈ ls → f x = g x) → sum_list_with f ls = sum_list_with g ls.
Proof.
  induction ls as [|x ls IH]; intros H; simpl; [done|].
  rewrite (H x), IH; [done| |]; set_solver.
Qed.

Lemma sum_list_with_zero {A} (f : A → nat) (ls : list A) :
  sum_list_with f ls = 0 ↔ ∀ x, x ∈ ls → f x = 0.
Proof.
  induction ls as [|x ls IH]; simpl.
  - split; [|done]. intros _ x Hx. by apply elem_of_nil in Hx.
  - split.
    + intros H y [->|Hy]%elem_of_cons; [lia|]. apply IH; [lia|done].
    + intros H. rewrite (H x) by set_solver.
      apply IH. intros y Hy. apply H. set_solver.
Qed.

Lemma sum_list_with_le_eq {A} (f g : A → nat) (ls : list A) :
  (∀ x, f x ≤ g x) →
  sum_list_with f ls = sum_list_with g ls ↔ ∀ x, x ∈ ls → f x = g x.
Proof.
  intros Hle. split; [|apply sum_list_with_ext].
  induction ls as [|x ls IH]; simpl.
  - intros _ x Hx. by apply elem_of_nil in Hx.
  - intros H.
    assert (sum_list_with f ls ≤ sum_list_with g ls) as Hs.
    { clear -Hle. induction ls as [|y ls IH]; simpl; [done|].
      specialize (Hle y). lia. }
    specialize (Hle x).
    intros y [->|Hy]%elem_of_cons; [lia|]. apply IH; [lia|done].
Qed.

Lemma count_outside (h : Counter) (l : string) : l ∉ dom h → count h l = 0.
Proof. intros H%not_elem_of_dom. unfold count. by rewrite H. Qed.

Lemma nat_ratio_zero (i u : nat) :
  0 < u → (inject_Z (Z.of_nat i) / inject_Z (Z.of_nat u) == 0)%Q ↔ i = 0.
Proof.
  intros Hu.
  assert (0 < inject_Z (Z.of_nat u))%Q as Hpos
    by (rewrite <-(Zlt_Qlt 0); lia).
  split.
  - intros H. destruct (decide (i = 0)) as [|Hi]; [done|]. exfalso.
    assert (0 < inject_Z (Z.of_nat i))%Q as Hi'
      by (rewrite <-(Zlt_Qlt 0); lia).
    assert (0 < inject_Z (Z.of_nat i) / inject_Z (Z.of_nat u))%Q as Hlt.
    { apply Qlt_shift_div_l; [done|]. by rewrite Qmult_0_l. }
    rewrite H in Hlt. by apply Qlt_irrefl in Hlt.
  - intros ->. simpl. unfold Qdiv. by rewrite Qmult_0_l.
Qed.

Lemma nat_ratio_one (i u : nat) :
  0 < u → (inject_Z (Z.of_nat i) / inject_Z (Z.of_nat u) == 1)%Q ↔ i = u.
Proof.
  intros Hu.
  assert (0 < inject_Z (Z.of_nat u))%Q as Hpos
    by (rewrite <-(Zlt_Qlt 0); lia).
  split.
  - intros H.
    assert (inject_Z (Z.of_nat i) == inject_Z (Z.of_nat u))%Q as E.
    { rewrite <-(Qmult_1_l (inject_Z (Z.of_nat u))), <-H.
      unfold Qdiv. rewrite <-Qmult_assoc, (Qmult_comm (/ _)), Qmult_inv_r.
      - by rewrite Qmult_1_r.
      - intros E. rewrite E in Hpos. by apply Qlt_irrefl in Hpos. }
    unfold Qeq in E. simpl in E. lia.
  - intros ->. by apply nat_ratio_same.
Qed.

(** The similarity of a round does not depend on the order of the two
    histograms. *)
Lemma round_similarity_comm (h1 h2 : Counter) :
  round_similarity h1 h2 = round_similarity h2 h1.
Proof.
  unfold round_similarity. cbv zeta.
  rewrite (union_comm_L (dom h2) (dom h1)).
  rewrite (sum_list_with_ext (λ l, count h2 l `min` count h1 l)
             (λ l, count h1 l `min` count h2 l)) by (intros; lia).
  rewrite (sum_list_with_ext (λ l, count h2 l `max` count h1 l)
             (λ l, count h1 l `max` count h2 l)) by (intros; lia).
  done.
Qed.

(** X11: the two ends of the scale of a round.  The similarity of two
    histograms is 0 exactly when no label is counted in both, and 1 exactly
    when some label is counted and every label has the same count in
    both. *)
Theorem round_similarity_extremes (h1 h2 : Counter) :
  ((round_similarity h1 h2 == 0)%Q ↔
   ∀ l, count h1 l = 0 ∨ count h2 l = 0) ∧
  ((round_similarity h1 h2 == 1)%Q ↔
   (∃ l, 0 < count h1 l) ∧ ∀ l, count h1 l = count h2 l).
Proof.
  unfold round_similarity. cbv zeta.
  set (ls := elements (dom h1 ∪ dom h2)).
  set (fi := λ l, count h1 l `min` count h2 l).
  set (fu := λ l, count h1 l `max` count h2 l).
  assert (∀ l, l ∉ ls → count h1 l = 0 ∧ count h2 l = 0) as Hout.
  { intros l Hl. subst ls. rewrite elem_of_elements in Hl.
    split; apply count_outside; set_solver. }
  assert (∀ l, fi l ≤ fu l) as Hle by (intros; subst fi fu; simpl; lia).
  assert (sum_list_with fi ls ≤ sum_list_with fu ls) as Hsum
    by apply sum_min_le_sum_max.
  case_decide as Hu; split.
  - rewrite nat_ratio_zero by done. rewrite sum_list_with_zero. split.
    + intros H l. destruct (decide (l ∈ ls)) as [Hl|Hl].
      * specialize (H l Hl). subst fi. simpl in H. lia.
      * left. by apply Hout.
    + intros H l _. subst fi. simpl. destruct (H l); lia.
  - rewrite nat_ratio_one by done. rewrite (sum_list_with_le_eq fi fu) by done.
    split.
    + intros H. split.
      * destruct (decide (sum_list_with fu ls = 0)) as [E|E]; [lia|].
        assert (∃ l, l ∈ ls ∧ 0 < fu l) as (l & Hl & Hpos).
        { clear -E. induction ls as [|x ls IH]; simpl in E; [done|].
          destruct (decide (fu x = 0)) as [Ex|Ex].
          - destruct IH as (l & Hl & Hpos); [lia|]. exists l. set_solver.
          - exists x. split; [set_solver|lia]. }
        exists l. specialize (H l Hl). subst fi fu. simpl in *. lia.
      * intros l. destruct (decide (l ∈ ls)) as [Hl|Hl].
        -- specialize (H l Hl). subst fi fu. simpl in H. lia.
        -- destruct (Hout l Hl). lia.
    + intros [_ H] l _. subst fi fu. simpl. rewrite H. lia.
  - split; [|done]. intros _ l.
    destruct (decide (l ∈ ls)) as [Hl|Hl]; [|left; by apply Hout].
    assert (fu l ≤ sum_list_with fu ls) as Hl'
      by by apply (sum_list_with_in l fu).
    subst fu. simpl in Hl'. lia.
  - split; [intros H; discriminate H|].
    intros [(l & Hl) H]. exfalso.
    assert (l ∈ ls) as Hin.
    { destruct (decide (l ∈ ls)) as [|Hn]; [done|].
      destruct (Hout l Hn). lia. }
    assert (fu l ≤ sum_list_with fu ls) as Hl'
      by by apply (sum_list_with_in l fu).
    subst fu. simpl in Hl'. lia.
Qed.

(* ===================================================================== *)
(** * More on the scorer: histograms count nodes *)

Lemma count_insert (c : Counter) (x l : string) (n : nat) :
  count (<[x := n]> c) l = if decide (x = l) then n else count c l.
Proof. unfold count. rewrite lookup_insert. by case_decide. Qed.

Lemma Counter_of_count_foldl (labels : list string) (c : Counter) (l : string) :
  count (foldl (λ c x, <[x := S (default 0 (c !! x))]> c) c labels) l
  = count c l + length (filter (λ x, x = l) labels).
Proof.
  revert c. induction labels as [|x labels IH]; intros c; simpl; [lia|].
  rewrite IH, count_insert, filter_cons.
  case_decide as E; simpl; [subst x; unfold count|]; lia.
Qed.

Lemma Counter_of_count (labels : list string) (l : string) :
  count (Counter_of labels) l = length (filter (λ x, x = l) labels).
Proof. unfold Counter_of. by rewrite Counter_of_count_foldl. Qed.

Lemma Counter_total_insert (c : Counter) (x : string) :
  sum_list (map_to_list (<[x := S (default 0 (c !! x))]> c)).*2
  = S (sum_list (map_to_list c).*2).
Proof.
  destruct (c !! x) as [n|] eqn:E; simpl.
  - assert (map_to_list c ≡ₚ (x, n) :: map_to_list (delete x c)) as ->.
    { rewrite <-map_to_list_insert by apply lookup_delete_eq.
      by rewrite insert_delete_id. }
    rewrite <-insert_delete_eq, map_to_list_insert by apply lookup_delete_eq.
    done.
  - by rewrite map_to_list_insert.
Qed.

Lemma Counter_total_foldl (labels : list string) (c : Counter) :
  sum_list (map_to_list
              (foldl (λ c x, <[x := S (default 0 (c !! x))]> c) c labels)).*2
  = sum_list (map_to_list c).*2 + length labels.
Proof.
  revert c. induction labels as [|x labels IH]; intros c; simpl; [lia|].
  rewrite IH, Counter_total_insert. lia.
Qed.

Lemma Counter_of_total (labels : list string) :
  sum_list (map_to_list (Counter_of labels)).*2 = length labels.
Proof.
  unfold Counter_of. by rewrite Counter_total_foldl, map_to_list_empty.
Qed.

Lemma length_node_list g : length (nx.node_list g) = size (nx.nodes g).
Proof. unfold nx.node_list. by rewrite length_fmap, length_map_to_list. Qed.

Lemma filter_Forall2_length {A B} (P : A → Prop) (Q : B → Prop)
    `{∀ x, Decision (P x)} `{∀ y, Decision (Q y)}
    (R : A → B → Prop) (l : list A) (k : list B) :
  (∀ x y, R x y → P x ↔ Q y) → Forall2 R l k →
  length (filter P l) = length (filter Q k).
Proof.
  intros HR. induction 1 as [|x y l k Hxy _ IH]; [done|].
  rewrite !filter_cons. specialize (HR x y Hxy).
  repeat case_decide; simpl; tauto || lia.
Qed.

(** X12: what a histogram holds.  [histogram] raises exactly when a node
    has no [wl_label]; otherwise the count of a label is the number of
    nodes that carry it, and the counts add up to the number of nodes:
    every node is counted once. *)
Theorem histogram_counts_nodes (g : nx.DiGraph) :
  (is_Some (histogram g) ↔
   ∀ n, n ∈ dom (nx.nodes g) → is_Some (wl_label g n)) ∧
  ∀ h, histogram g = Some h →
    (∀ l, count h l
          = length (filter (λ n, wl_label g n = Some l) (nx.node_list g))) ∧
    sum_list (map_to_list h).*2 = size (nx.nodes g).
Proof.
  unfold histogram. split.
  - trans (is_Some (mapM (wl_label g) (nx.node_list g))).
    { destruct (mapM (wl_label g) (nx.node_list g)); simpl; [|done].
      split; by eexists. }
    rewrite mapM_is_Some, Forall_forall.
    split; intros H n Hn; apply H; by apply elem_of_node_list.
  - intros h Hh.
    destruct (mapM (wl_label g) (nx.node_list g)) as [labels|] eqn:E;
      [|done]. simpl in Hh. injection Hh as <-.
    apply mapM_Some in E. split.
    + intros l. rewrite Counter_of_count. symmetry.
      apply (filter_Forall2_length _ _ (λ n y, wl_label g n = Some y));
        [|done]. intros n y ->. split; congruence.
    + rewrite Counter_of_total, <-length_node_list.
      symmetry. by eapply Forall2_length.
Qed.

(* ===================================================================== *)
(** * More on the scorer: one round of relabeling *)

Lemma set_wl_label_lookup n lbl g m :
  nx.nodes (set_wl_label n lbl g) !! m
  = if decide (n = m) then <["wl_label" := lbl]> <$> nx.nodes g !! m
    else nx.nodes g !! m.
Proof.
  unfold set_wl_label. simpl. rewrite lookup_alter.
  case_decide; [by subst|done].
Qed.

Lemma apply_labels_lookup (f : string → string)
    (new_labels : list (string * string)) : ∀ g n,
  (∀ e, e ∈ new_labels → e.2 = f e.1) →
  nx.nodes (foldl (λ g (e : string * string), set_wl_label e.1 e.2 g)
              g new_labels) !! n
  = if decide (n ∈ new_labels.*1)
    then <["wl_label" := f n]> <$> nx.nodes g !! n
    else nx.nodes g !! n.
Proof.
  induction new_labels as [|[m lbl] ls IH]; intros g n Hf.
  - done.
  - cbn [foldl fst snd]. rewrite fmap_cons. cbn [fst].
    rewrite IH by (intros e He; apply Hf; set_solver).
    assert (lbl = f m) as -> by (apply (Hf (m, lbl)); set_solver).
    rewrite set_wl_label_lookup.
    destruct (decide (m = n)) as [->|Hne].
    + rewrite (decide_True (P := n ∈ n :: ls.*1)) by set_solver.
      case_decide; [|done].
      destruct (nx.nodes g !! n) as [a|]; simpl; [|done].
      by rewrite insert_insert_eq.
    + case_decide as Hin.
      * rewrite decide_True by set_solver. done.
      * rewrite decide_False; [done|]. set_solver.
Qed.

Lemma relabel_Some g g' :
  relabel g = Some g' →
  nx.adj g' = nx.adj g ∧
  ∀ n, nx.nodes g' !! n
       = a ← nx.nodes g !! n; lbl ← new_label g n;
         Some (<["wl_label" := lbl]> a).
Proof.
  unfold relabel. intros H.
  destruct (mapM _ (nx.node_list g)) as [new_labels|] eqn:E; [|done].
  simpl in H. injection H as <-. apply mapM_Some in E.
  split; [apply apply_labels_spec|]. intros n.
  assert (new_labels.*1 = nx.node_list g ∧
          ∀ e, e ∈ new_labels → new_label g e.1 = Some e.2) as [E1 E2].
  { clear -E. induction E as [|m e l k Hme _ [IH1 IH2]]; [split; [done|]|].
    - intros e He. by apply elem_of_nil in He.
    - destruct (new_label g m) as [lbl|] eqn:El; [|done].
      simpl in Hme. injection Hme as <-.
      split; [rewrite fmap_cons; by f_equal|].
      intros e [->|He]%elem_of_cons; [done|by apply IH2]. }
  rewrite (apply_labels_lookup (λ n, default "" (new_label g n))).
  - rewrite E1. case_decide as Hin.
    + apply elem_of_node_list, elem_of_dom in Hin as [a Ha].
      rewrite Ha. simpl.
      assert (n ∈ new_labels.*1) as Hn
        by (rewrite E1; apply elem_of_node_list, elem_of_dom; by eexists).
      apply list_elem_of_fmap in Hn as (e & -> & He).
      by rewrite (E2 e He).
    + rewrite elem_of_node_list in Hin. apply not_elem_of_dom in Hin.
      by rewrite Hin.
  - intros e He. by rewrite (E2 e He).
Qed.

Lemma relabel_new_label g g' n a :
  relabel g = Some g' → nx.nodes g !! n = Some a → is_Some (new_label g n).
Proof.
  intros H Ea. unfold relabel in H.
  destruct (mapM _ (nx.node_list g)) as [new_labels|] eqn:E; [|done].
  assert (is_Some (mapM (λ n, lbl ← new_label g n; Some (n, lbl))
                     (nx.node_list g))) as Hm by by rewrite E.
  rewrite mapM_is_Some, Forall_forall in Hm.
  specialize (Hm n). simpl in Hm.
  destruct (new_label g n); [by eexists|].
  destruct Hm as [? [=]]. apply elem_of_node_list, elem_of_dom. by eexists.
Qed.

Lemma relabel_keeps g g' : relabel g = Some g' → keeps_but_wl_label g g'.
Proof.
  intros H. destruct (relabel_Some g g' H) as [Ha Hn].
  split; [done|]. split.
  - apply set_eq. intros n. rewrite !elem_of_dom, Hn.
    destruct (nx.nodes g !! n) as [a|] eqn:Ea; simpl; [|done].
    destruct (relabel_new_label g g' n a H Ea) as [lbl ->]. simpl.
    split; by eexists.
  - intros n k Hk. rewrite Hn.
    destruct (nx.nodes g !! n) as [a|] eqn:Ea; simpl; [|done].
    destruct (relabel_new_label g g' n a H Ea) as [lbl ->]. simpl.
    by rewrite lookup_insert_ne.
Qed.

Lemma relabel_wl_label g g' n :
  relabel g = Some g' →
  wl_label g' n = nx.nodes g !! n ≫= λ _, new_label g n.
Proof.
  intros H. destruct (relabel_Some g g' H) as [_ Hn].
  unfold wl_label at 1. rewrite Hn.
  destruct (nx.nodes g !! n) as [a|]; simpl; [|done].
  destruct (new_label g n); simpl; [|done]. by rewrite lookup_insert_eq.
Qed.

(** X13: a round of relabeling is synchronous and touches nothing else.
    When [relabel] returns, the graph has the same nodes and the same
    edges, every node's new [wl_label] is the one computed from the labels
    of the graph before the round, and every other attribute of a node
    ([type], [label]) is as before. *)
Theorem relabel_is_synchronous (g g' : nx.DiGraph) :
  relabel g = Some g' →
  nx.adj g' = nx.adj g ∧
  dom (nx.nodes g') = dom (nx.nodes g) ∧
  (∀ n, n ∈ dom (nx.nodes g) → wl_label g' n = new_label g n) ∧
  (∀ n k, k ≠ "wl_label" →
          nx.nodes g' !! n ≫= (.!! k) = nx.nodes g !! n ≫= (.!! k)).
Proof.
  intros H. destruct (relabel_keeps g g' H) as (Ha & Hd & Hk).
  split; [done|]. split; [done|]. split; [|done].
  intros n [a Ea]%elem_of_dom.
  by rewrite (relabel_wl_label g g' n H), Ea.
Qed.

Lemma run_closed ast : closed (run ast).1.
Proof. rewrite generate_visit. apply wf_closed, run_wf. Qed.

Lemma relabel_is_synchronous_witness :
  let g := init_wl_label (run self_increment).1 in
  ∃ g', relabel g = Some g' ∧
    nx.adj g' = nx.adj g ∧
    dom (nx.nodes g') = dom (nx.nodes g) ∧
    (∀ n, n ∈ dom (nx.nodes g) → wl_label g' n = new_label g n) ∧
    (∀ n k, k ≠ "wl_label" →
            nx.nodes g' !! n ≫= (.!! k) = nx.nodes g !! n ≫= (.!! k)).
Proof.
  intros g.
  destruct (relabel_total g) as (g' & E & _);
    [apply init_wl_label_labelled
    |apply init_wl_label_closed, run_closed|].
  exists g'. split; [done|]. by apply (relabel_is_synchronous g g').
Defined.

(* ===================================================================== *)
(** * More on the scorer: what a call writes *)

Lemma keeps_refl g : keeps_but_wl_label g g.
Proof. by split; [|split]. Qed.

Lemma keeps_trans g1 g2 g3 :
  keeps_but_wl_label g1 g2 → keeps_but_wl_label g2 g3 →
  keeps_but_wl_label g1 g3.
Proof.
  intros (Ha & Hd & Hk) (Ha' & Hd' & Hk').
  split; [congruence|]. split; [congruence|].
  intros n k Hne. by rewrite Hk', Hk.
Qed.

Lemma init_keeps g : keeps_but_wl_label g (init_wl_label g).
Proof.
  split; [done|]. split; [apply init_wl_label_dom|].
  intros n k Hk. unfold init_wl_label. simpl. rewrite lookup_fmap.
  destruct (nx.nodes g !! n) as [a|]; simpl; [|done].
  by rewrite lookup_insert_ne.
Qed.

Lemma writes_refl G1 G2 σ : writes_only_wl_label G1 G2 σ σ.
Proof.
  split; [done|]. intros G g _ E. exists g. split; [done|apply keeps_refl].
Qed.

Lemma writes_trans G1 G2 σ1 σ2 σ3 :
  writes_only_wl_label G1 G2 σ1 σ2 → writes_only_wl_label G1 G2 σ2 σ3 →
  writes_only_wl_label G1 G2 σ1 σ3.
Proof.
  intros [Ho Hg] [Ho' Hg']. split.
  - intros G H1 H2. by rewrite Ho', Ho.
  - intros G g HG E. destruct (Hg G g HG E) as (g2 & E2 & Hk).
    destruct (Hg' G g2 HG E2) as (g3 & E3 & Hk').
    exists g3. split; [done|]. by apply (keeps_trans g g2).
Qed.

Lemma on_graph_writes f G1 G2 G σ σ' :
  G = G1 ∨ G = G2 →
  (∀ g g', f g = Some g' → keeps_but_wl_label g g') →
  on_graph f G σ = Some σ' → writes_only_wl_label G1 G2 σ σ'.
Proof.
  intros HG Hf H. unfold on_graph in H.
  destruct (σ !! G) as [g|] eqn:E; [|done]. simpl in H.
  destruct (f g) as [g'|] eqn:Ef; [|done]. simpl in H. injection H as <-.
  split.
  - intros G' H1 H2. rewrite lookup_insert_ne; [done|].
    destruct HG; congruence.
  - intros G' g0 _ E0. destruct (decide (G = G')) as [<-|Hne].
    + exists g'. rewrite lookup_insert_eq. split; [done|].
      apply Hf. congruence.
    + exists g0. rewrite lookup_insert_ne by done.
      split; [done|apply keeps_refl].
Qed.

Lemma wl_rounds_writes n G1 G2 : ∀ σ H1 H2 σ' H1' H2',
  wl_rounds n G1 G2 σ H1 H2 = Some (σ', H1', H2') →
  writes_only_wl_label G1 G2 σ σ'.
Proof.
  induction n as [|n IH]; intros σ H1 H2 σ' H1' H2' H.
  - injection H as <- _ _. apply writes_refl.
  - cbn [wl_rounds] in H.
    destruct (on_graph relabel G1 σ) as [σ1|] eqn:E1; [|done]. simpl in H.
    destruct (on_graph relabel G2 σ1) as [σ2|] eqn:E2; [|done]. simpl in H.
    destruct (read_graph histogram G1 σ2) as [h1|]; [|done]. simpl in H.
    destruct (read_graph histogram G2 σ2) as [h2|]; [|done]. simpl in H.
    apply (writes_trans _ _ _ σ1);
      [by apply (on_graph_writes relabel _ _ G1);
         [left|apply relabel_keeps|]|].
    apply (writes_trans _ _ _ σ2);
      [by apply (on_graph_writes relabel _ _ G2);
         [right|apply relabel_keeps|]|].
    by apply (IH _ _ _ _ _ _ H).
Qed.

Lemma kernel_writes pow G1 G2 h σ q σ' :
  weisfeiler_lehman_kernel pow G1 G2 h σ = Some (q, σ') →
  writes_only_wl_label G1 G2 σ σ'.
Proof.
  unfold weisfeiler_lehman_kernel. intros H.
  destruct (on_graph _ G1 σ) as [σ1|] eqn:E1; [|done]. simpl in H.
  destruct (on_graph _ G2 σ1) as [σ2|] eqn:E2; [|done]. simpl in H.
  destruct (read_graph histogram G1 σ2) as [h1|]; [|done]. simpl in H.
  destruct (read_graph histogram G2 σ2) as [h2|]; [|done]. simpl in H.
  destruct (wl_rounds _ G1 G2 σ2 [h1] [h2]) as [[[σ3 L1] L2]|] eqn:E3;
    [|done]. simpl in H.
  destruct (weights pow h) as [ws|]; [|done]. simpl in H.
  destruct (similarity_loop _ _ L1 L2 (finite 0)) as [sim|]; [|done].
  simpl in H. injection H as _ <-.
  apply (writes_trans _ _ _ σ1).
  { apply (on_graph_writes _ G1 G2 G1) in E1; [done|by left|].
    intros g g' [= <-]. apply init_keeps. }
  apply (writes_trans _ _ _ σ2).
  { apply (on_graph_writes _ G1 G2 G2) in E2; [done|by right|].
    intros g g' [= <-]. apply init_keeps. }
  by apply (wl_rounds_writes _ _ _ _ _ _ _ _ _ E3).
Qed.

(** X14: what a call of the kernel writes.  When the kernel returns, every
    object of the heap other than the two graphs is as it was, and the two
    graphs have the nodes, the edges and the node attributes they had,
    except [wl_label]. *)
Theorem kernel_writes_only_wl_label
    (pow : float → Z → float)
    (G1 G2 : loc) (h : Z) (σ σ' : heap) (q : float) :
  weisfeiler_lehman_kernel pow G1 G2 h σ = Some (q, σ') →
  (∀ G, G ≠ G1 → G ≠ G2 → σ' !! G = σ !! G) ∧
  ∀ G g, G = G1 ∨ G = G2 → σ !! G = Some g →
    ∃ g', σ' !! G = Some g' ∧
          nx.adj g' = nx.adj g ∧
          dom (nx.nodes g') = dom (nx.nodes g) ∧
          ∀ n k, k ≠ "wl_label" →
                 nx.nodes g' !! n ≫= (.!! k) = nx.nodes g !! n ≫= (.!! k).
Proof. apply kernel_writes. Qed.

Lemma kernel_writes_only_wl_label_witness :
  ∃ q σ', weisfeiler_lehman_kernel pow_nearest 0 1 3 sample_heap
          = Some (q, σ') ∧
    (∀ G, G ≠ 0 → G ≠ 1 → σ' !! G = sample_heap !! G) ∧
    ∀ G g, G = 0 ∨ G = 1 → sample_heap !! G = Some g →
      ∃ g', σ' !! G = Some g' ∧
            nx.adj g' = nx.adj g ∧
            dom (nx.nodes g') = dom (nx.nodes g) ∧
            ∀ n k, k ≠ "wl_label" →
                   nx.nodes g' !! n ≫= (.!! k) = nx.nodes g !! n ≫= (.!! k).
Proof.
  destruct (kernel_spec pow_nearest false 0 1 3 sample_heap
              (run conditional_then_statement).1 (run self_increment).1)
    as (q & S & σ' & E & _); [apply pow_nearest_ok|by vm_compute|by vm_compute
                         |apply run_closed..|done|lia|].
  exists (finite q), σ'. split; [done|].
  by apply (kernel_writes_only_wl_label pow_nearest 0 1 3 sample_heap σ'
              (finite q)).
Defined.

(* ===================================================================== *)
(** * More on the scorer: what the score depends on *)

Lemma node_list_dom g g' :
  dom (nx.nodes g) = dom (nx.nodes g') → nx.node_list g = nx.node_list g'.
Proof.
  intros Hd. unfold nx.node_list.
  assert (∀ m : gmap string nx.attrs,
            (map_to_list m).*1 = (map_to_list ((λ _, ()) <$> m)).*1) as E.
  { intros m. rewrite map_to_list_fmap, <-list_fmap_compose.
    apply list_fmap_ext. by intros ? [??] ?. }
  rewrite (E (nx.nodes g)), (E (nx.nodes g')). do 2 f_equal.
  apply map_eq. intros n. rewrite !lookup_fmap.
  assert (is_Some (nx.nodes g !! n) ↔ is_Some (nx.nodes g' !! n)) as Hs
    by by rewrite <-!elem_of_dom, Hd.
  destruct (nx.nodes g !! n), (nx.nodes g' !! n); simpl; try done.
  - destruct Hs as [[? [=]] _]. by eexists.
  - destruct Hs as [_ [? [=]]]. by eexists.
Qed.

Lemma same_dom_lookup (g g' : nx.DiGraph) n :
  dom (nx.nodes g) = dom (nx.nodes g') →
  is_Some (nx.nodes g !! n) ↔ is_Some (nx.nodes g' !! n).
Proof. intros Hd. by rewrite <-!elem_of_dom, Hd. Qed.

Lemma init_same g g' :
  same_kinds g g' →
  same_kinds (init_wl_label g) (init_wl_label g') ∧
  same_wl_labels (init_wl_label g) (init_wl_label g').
Proof.
  intros (Ha & Hd & Ht).
  assert (dom (nx.nodes (init_wl_label g)) = dom (nx.nodes (init_wl_label g')))
    as Hd' by by rewrite !init_wl_label_dom.
  split; (split; [done|]; split; [done|]); intros n.
  - specialize (Ht n). unfold nx.node_type, init_wl_label in *. simpl.
    rewrite !lookup_fmap.
    destruct (nx.nodes g !! n), (nx.nodes g' !! n); simpl in *;
      by rewrite ?lookup_insert_ne.
  - specialize (Ht n). pose proof (same_dom_lookup g g' n Hd) as Hs.
    unfold wl_label, nx.node_type, init_wl_label in *. simpl.
    rewrite !lookup_fmap.
    destruct (nx.nodes g !! n), (nx.nodes g' !! n); simpl in *.
    + by rewrite !lookup_insert_eq, Ht.
    + destruct Hs as [[? [=]] _]. by eexists.
    + destruct Hs as [_ [? [=]]]. by eexists.
    + done.
Qed.

Lemma new_label_same g g' n :
  same_wl_labels g g' → new_label g n = new_label g' n.
Proof.
  intros (Ha & Hd & Hw). unfold new_label, nx.neighbors, nx.edge_type.
  rewrite Ha, Hw.
  destruct (wl_label g' n) as [curr|]; simpl; [|done].
  erewrite mapM_ext; [done|]. intros nb. simpl. by rewrite Hw.
Qed.

Lemma new_labels_same g g' :
  same_wl_labels g g' →
  mapM (λ n, lbl ← new_label g n; Some (n, lbl)) (nx.node_list g)
  = mapM (λ n, lbl ← new_label g' n; Some (n, lbl)) (nx.node_list g').
Proof.
  intros H. rewrite (node_list_dom g g') by apply H.
  apply mapM_ext. intros n. by rewrite (new_label_same g g').
Qed.

Lemma relabel_same g g' :
  same_wl_labels g g' →
  option_Forall2 same_wl_labels (relabel g) (relabel g').
Proof.
  intros H. pose proof (new_labels_same g g' H) as E.
  destruct (relabel g) as [gr|] eqn:Er, (relabel g') as [gr'|] eqn:Er'.
  - constructor. destruct H as (Ha & Hd & Hw).
    destruct (relabel_keeps _ _ Er) as (Ha1 & Hd1 & _).
    destruct (relabel_keeps _ _ Er') as (Ha2 & Hd2 & _).
    split; [congruence|]. split; [congruence|]. intros n.
    rewrite (relabel_wl_label g gr n Er), (relabel_wl_label g' gr' n Er').
    pose proof (same_dom_lookup g g' n Hd) as Hs.
    rewrite (new_label_same g g' n) by done.
    destruct (nx.nodes g !! n), (nx.nodes g' !! n); simpl; try done.
    + destruct Hs as [[? [=]] _]. by eexists.
    + destruct Hs as [_ [? [=]]]. by eexists.
  - unfold relabel in Er, Er'. rewrite E in Er.
    destruct (mapM _ (nx.node_list g')); done.
  - unfold relabel in Er, Er'. rewrite E in Er.
    destruct (mapM _ (nx.node_list g')); done.
  - constructor.
Qed.

Lemma histogram_same g g' :
  same_wl_labels g g' → histogram g = histogram g'.
Proof.
  intros (Ha & Hd & Hw). unfold histogram.
  rewrite (node_list_dom g g' Hd). by rewrite (mapM_ext _ _ _ Hw).
Qed.

Lemma on_graph_rel R (f : nx.DiGraph → option nx.DiGraph) G1 G2 G σ σ' :
  G = G1 ∨ G = G2 →
  (∀ g g', R g g' → option_Forall2 R (f g) (f g')) →
  heap_rel R G1 G2 σ σ' →
  option_Forall2 (heap_rel R G1 G2) (on_graph f G σ) (on_graph f G σ').
Proof.
  intros HG Hf [R1 R2].
  assert (option_Forall2 R (σ !! G) (σ' !! G)) as RG
    by by destruct HG as [-> | ->].
  unfold on_graph.
  destruct (σ !! G) as [g|] eqn:E, (σ' !! G) as [g'|] eqn:E';
    inversion RG as [?? Hgg|]; subst; simpl; [|constructor].
  destruct (Hf g g' Hgg) as [gr gr' Hr|]; simpl; constructor.
  split; rewrite !lookup_insert; case_decide; by try constructor.
Qed.

Lemma read_graph_rel {A} R (f : nx.DiGraph → option A) G1 G2 G σ σ' :
  G = G1 ∨ G = G2 →
  (∀ g g', R g g' → f g = f g') →
  heap_rel R G1 G2 σ σ' →
  read_graph f G σ = read_graph f G σ'.
Proof.
  intros HG Hf [R1 R2].
  assert (option_Forall2 R (σ !! G) (σ' !! G)) as RG
    by by destruct HG as [-> | ->].
  unfold read_graph.
  destruct (σ !! G) as [g|], (σ' !! G) as [g'|];
    inversion RG; subst; simpl; [|done]. by apply Hf.
Qed.

Lemma wl_rounds_rel n G1 G2 : ∀ σ σ' H1 H2,
  heap_rel same_wl_labels G1 G2 σ σ' →
  option_Forall2 (λ r r', r.1.2 = r'.1.2 ∧ r.2 = r'.2)
    (wl_rounds n G1 G2 σ H1 H2) (wl_rounds n G1 G2 σ' H1 H2).
Proof.
  induction n as [|n IH]; intros σ σ' H1 H2 Hrel; cbn [wl_rounds].
  - by constructor.
  - destruct (on_graph_rel same_wl_labels relabel G1 G2 G1 σ σ')
      as [σ1 σ1' Hrel1|]; [by left|apply relabel_same|done| |constructor].
    simpl.
    destruct (on_graph_rel same_wl_labels relabel G1 G2 G2 σ1 σ1')
      as [σ2 σ2' Hrel2|]; [by right|apply relabel_same|done| |constructor].
    simpl.
    rewrite (read_graph_rel same_wl_labels histogram G1 G2 G1 σ2 σ2');
      [|by left|apply histogram_same|done].
    rewrite (read_graph_rel same_wl_labels histogram G1 G2 G2 σ2 σ2');
      [|by right|apply histogram_same|done].
    destruct (read_graph histogram G1 σ2') as [h1|]; simpl; [|constructor].
    destruct (read_graph histogram G2 σ2') as [h2|]; simpl; [|constructor].
    by apply IH.
Qed.

Lemma init_both_rel G1 G2 σ σ' :
  heap_rel same_kinds G1 G2 σ σ' →
  option_Forall2 (heap_rel same_wl_labels G1 G2)
    (σ1 ← on_graph (λ g, Some (init_wl_label g)) G1 σ;
     on_graph (λ g, Some (init_wl_label g)) G2 σ1)
    (σ1 ← on_graph (λ g, Some (init_wl_label g)) G1 σ';
     on_graph (λ g, Some (init_wl_label g)) G2 σ1).
Proof.
  intros [R1 R2]. unfold on_graph.
  destruct (σ !! G1) as [g1|] eqn:E1, (σ' !! G1) as [g1'|] eqn:E1';
    inversion R1 as [?? Hg1|]; subst; simpl; [|constructor].
  rewrite !lookup_insert. case_decide as E; simpl.
  - subst G2. constructor.
    split; rewrite !lookup_insert_eq; constructor;
      by apply init_same, init_same.
  - destruct (σ !! G2) as [g2|] eqn:E2, (σ' !! G2) as [g2'|] eqn:E2';
      inversion R2 as [?? Hg2|]; subst; simpl; constructor.
    split.
    + rewrite !(lookup_insert_ne _ G2 G1), !lookup_insert_eq by done.
      constructor. by apply init_same.
    + rewrite !lookup_insert_eq. constructor. by apply init_same.
Qed.

Lemma kernel_rel pow G1 G2 h σ σ' :
  heap_rel same_kinds G1 G2 σ σ' →
  fst <$> weisfeiler_lehman_kernel pow G1 G2 h σ
  = fst <$> weisfeiler_lehman_kernel pow G1 G2 h σ'.
Proof.
  intros Hrel. unfold weisfeiler_lehman_kernel.
  pose proof (init_both_rel G1 G2 σ σ' Hrel) as Hi.
  destruct (on_graph _ G1 σ) as [σ1|], (on_graph _ G1 σ') as [σ1'|];
    simpl in *; try by inversion Hi.
  destruct (on_graph _ G2 σ1) as [σ2|], (on_graph _ G2 σ1') as [σ2'|];
    simpl in *; inversion Hi as [?? Hrel2|]; subst; [|done].
  rewrite (read_graph_rel same_wl_labels histogram G1 G2 G1 σ2 σ2');
      [|by left|apply histogram_same|done].
    rewrite (read_graph_rel same_wl_labels histogram G1 G2 G2 σ2 σ2');
      [|by right|apply histogram_same|done].
    destruct (read_graph histogram G1 σ2') as [h1|]; simpl; [|done].
    destruct (read_graph histogram G2 σ2') as [h2|]; simpl; [|done].
    destruct (wl_rounds_rel (Z.to_nat h) G1 G2 σ2 σ2' [h1] [h2] Hrel2)
      as [[[σ3 L1] L2] [[σ3' L1'] L2'] [E1 E2]|]; simpl in *; [|done].
    subst L1' L2'.
    destruct (weights pow h) as [ws|]; simpl; [|done].
    by destruct (similarity_loop _ _ L1 L2 (finite 0)).
Qed.

(** X15: the score depends on the kinds of the nodes and on the edges
    only.  Two calls on heaps whose graphs have the same nodes, the same
    kind on every node and the same edges give the same score (or fail
    alike): the text of the nodes is not read, and [wl_label]s found on
    the graphs are overwritten before they are read. *)
Theorem score_depends_on_kinds_and_edges
    (pow : float → Z → float) (G1 G2 : loc) (h : Z) (σ σ' : heap) :
  option_Forall2 same_kinds (σ !! G1) (σ' !! G1) →
  option_Forall2 same_kinds (σ !! G2) (σ' !! G2) →
  fst <$> weisfeiler_lehman_kernel pow G1 G2 h σ
  = fst <$> weisfeiler_lehman_kernel pow G1 G2 h σ'.
Proof. intros R1 R2. by apply kernel_rel. Qed.

Lemma keeps_same_kinds g g' : keeps_but_wl_label g g' → same_kinds g' g.
Proof.
  intros (Ha & Hd & Hk). split; [done|]. split; [done|].
  intros n. by apply Hk.
Qed.

Lemma score_depends_on_kinds_and_edges_witness :
  fst <$> weisfeiler_lehman_kernel pow_nearest 0 1 3
            (init_wl_label <$> sample_heap)
  = fst <$> weisfeiler_lehman_kernel pow_nearest 0 1 3 sample_heap.
Proof.
  apply (score_depends_on_kinds_and_edges pow_nearest 0 1 3
           (init_wl_label <$> sample_heap) sample_heap).
  - rewrite lookup_fmap.
    replace (sample_heap !! 0) with (Some (run conditional_then_statement).1)
      by by vm_compute.
    constructor. apply keeps_same_kinds, init_keeps.
  - rewrite lookup_fmap.
    replace (sample_heap !! 1) with (Some (run self_increment).1)
      by by vm_compute.
    constructor. apply keeps_same_kinds, init_keeps.
Defined.

(** X16: a call does not change the result of later calls.  After a call
    that has returned, a call on the heap it left, with any number of
    rounds, gives the score it would have given before. *)
Theorem second_call_same_score
    (pow : float → Z → float)
    (G1 G2 : loc) (h h' : Z) (σ σ' : heap) (q : float) :
  weisfeiler_lehman_kernel pow G1 G2 h σ = Some (q, σ') →
  fst <$> weisfeiler_lehman_kernel pow G1 G2 h' σ'
  = fst <$> weisfeiler_lehman_kernel pow G1 G2 h' σ.
Proof.
  intros H. destruct (kernel_writes _ _ _ _ _ _ _ H) as [_ Hg].
  apply kernel_rel.
  assert (∀ G, G = G1 ∨ G = G2 →
               option_Forall2 same_kinds (σ' !! G) (σ !! G)) as HG.
  { intros G HG. destruct (σ !! G) as [g|] eqn:E.
    - destruct (Hg G g HG E) as (g' & -> & Hk). constructor.
      by apply keeps_same_kinds.
    - exfalso. unfold weisfeiler_lehman_kernel, on_graph in H.
      destruct HG as [-> | ->].
      + by rewrite E in H.
      + destruct (σ !! G1) as [g1|] eqn:Eg; [|done]. simpl in H.
        rewrite lookup_insert in H. case_decide as E1.
        * subst. congruence.
        * by rewrite E in H. }
  split; apply HG; auto.
Qed.

Lemma second_call_same_score_witness :
  ∃ q σ', weisfeiler_lehman_kernel pow_nearest 0 1 2 sample_heap
          = Some (q, σ') ∧
    fst <$> weisfeiler_lehman_kernel pow_nearest 0 1 3 σ'
    = fst <$> weisfeiler_lehman_kernel pow_nearest 0 1 3 sample_heap.
Proof.
  destruct (weisfeiler_lehman_kernel pow_nearest 0 1 2 sample_heap)
    as [[q σ']|] eqn:E.
  - exists q, σ'. split; [done|].
    by apply (second_call_same_score pow_nearest 0 1 2 3 sample_heap σ' q).
  - exfalso. by vm_compute in E.
Defined.

(* ===================================================================== *)
(** * More on the scorer: the order of the two graphs *)

Lemma on_graph_comm {A} f G1 G2 (σ : heap) (K K' : heap → option A) :
  G1 ≠ G2 → (∀ σ2, K σ2 = K' σ2) →
  (σ1 ← on_graph f G1 σ; σ2 ← on_graph f G2 σ1; K σ2)
  = (σ1 ← on_graph f G2 σ; σ2 ← on_graph f G1 σ1; K' σ2).
Proof.
  intros Hne HK. unfold on_graph.
  destruct (σ !! G1) as [g1|] eqn:E1, (σ !! G2) as [g2|] eqn:E2; simpl.
  - destruct (f g1) as [g1'|] eqn:F1, (f g2) as [g2'|] eqn:F2; simpl;
      rewrite ?lookup_insert_ne, ?E1, ?E2 by done; simpl;
      rewrite ?F1, ?F2; simpl; try done.
    by rewrite insert_insert_ne, HK.
  - destruct (f g1) as [g1'|]; simpl; [|done].
    by rewrite lookup_insert_ne, E2 by done.
  - destruct (f g2) as [g2'|]; simpl; [|done].
    by rewrite lookup_insert_ne, E1 by done.
  - done.
Qed.

Lemma read_graph_comm {A B} (f : nx.DiGraph → option A) G1 G2 (σ : heap)
    (K K' : A → A → option B) :
  (∀ a b, K a b = K' a b) →
  (h1 ← read_graph f G1 σ; h2 ← read_graph f G2 σ; K h1 h2)
  = (h2 ← read_graph f G2 σ; h1 ← read_graph f G1 σ; K' h1 h2).
Proof.
  intros HK.
  destruct (read_graph f G1 σ), (read_graph f G2 σ); simpl; by rewrite ?HK.
Qed.

Lemma wl_rounds_swap n G1 G2 : G1 ≠ G2 → ∀ σ H1 H2,
  wl_rounds n G1 G2 σ H1 H2
  = (λ r, (r.1.1, r.2, r.1.2)) <$> wl_rounds n G2 G1 σ H2 H1.
Proof.
  intros Hne. induction n as [|n IH]; intros σ H1 H2; [done|].
  cbn [wl_rounds].
  rewrite (on_graph_comm relabel G1 G2 σ _
             (λ σ2, h1 ← read_graph histogram G1 σ2;
                    h2 ← read_graph histogram G2 σ2;
                    wl_rounds n G1 G2 σ2 (H1 ++ [h1])%list (H2 ++ [h2])%list))
    by done.
  destruct (on_graph relabel G2 σ) as [σ1|]; simpl; [|done].
  destruct (on_graph relabel G1 σ1) as [σ2|]; simpl; [|done].
  rewrite (read_graph_comm histogram G1 G2 σ2 _
             (λ h1 h2, wl_rounds n G1 G2 σ2
                         (H1 ++ [h1])%list (H2 ++ [h2])%list)) by done.
  destruct (read_graph histogram G2 σ2) as [h2|]; simpl; [|done].
  destruct (read_graph histogram G1 σ2) as [h1|]; simpl; [|done].
  apply IH.
Qed.

Lemma similarity_loop_swap (rounds : list nat) (ws : list float)
    (L1 L2 : list Counter) : ∀ acc,
  similarity_loop rounds ws L1 L2 acc = similarity_loop rounds ws L2 L1 acc.
Proof.
  induction rounds as [|i rounds IH]; intros acc; simpl; [done|].
  destruct (L1 !! i) as [h1|], (L2 !! i) as [h2|]; simpl; try done.
  destruct (ws !! i) as [w|]; simpl; [|done].
  by rewrite IH, round_similarity_comm.
Qed.

(** X17: the kernel is symmetric.  Exchanging the two graphs changes
    neither the score nor the heap the call leaves, and a call that fails
    fails both ways. *)
Theorem kernel_is_symmetric
    (pow : float → Z → float) (G1 G2 : loc) (h : Z) (σ : heap) :
  weisfeiler_lehman_kernel pow G1 G2 h σ
  = weisfeiler_lehman_kernel pow G2 G1 h σ.
Proof.
  destruct (decide (G1 = G2)) as [->|Hne]; [done|].
  unfold weisfeiler_lehman_kernel.
  apply on_graph_comm; [done|]. intros σ2.
  apply read_graph_comm. intros h1 h2.
  rewrite (wl_rounds_swap _ G1 G2 Hne).
  destruct (wl_rounds _ G2 G1 σ2 [h2] [h1]) as [[[σ3 L2] L1]|]; simpl;
    [|done].
  destruct (weights pow h) as [ws|]; simpl; [|done].
  by rewrite similarity_loop_swap.
Qed.

(* ===================================================================== *)
(** * The builder and the scorer together *)

(** X18: the graphs of the builder can always be scored.  For any two
    syntax trees and [h ≥ 0], on the graphs that two runs on newly
    constructed generators return, the kernel returns a double that is not
    negative and not above the score of a graph against itself with the
    same number of rounds; it is that score when the two trees are the
    same and a node was emitted, and that score is exactly 1.0 for up to 3
    rounds with the nearest doubles for the powers. *)
Theorem built_graphs_are_scored
    (pow : float → Z → float) (ast1 ast2 : node) (h : Z) :
  libm_pow_ok pow → (0 ≤ h)%Z →
  let σ : heap := {[ 0 := (run ast1).1; 1 := (run ast2).1 ]} in
  ∃ s S σ',
    weisfeiler_lehman_kernel pow 0 1 h σ = Some (finite s, σ') ∧
    self_score pow h = Some (finite S) ∧
    (0 <= s <= S)%Q ∧
    (ast1 = ast2 → 0 < node_id (run ast1).2 → s = S) ∧
    ((h ≤ 3)%Z → nearest_up_to 3 pow → S = 1%Q).
Proof.
  intros Hpow Hh σ.
  assert (σ !! 0 = Some (run ast1).1) as E0 by done.
  assert (σ !! 1 = Some (run ast2).1) as E1 by done.
  destruct (kernel_spec pow false 0 1 h σ _ _ Hpow E0 E1)
    as (s & S & σ' & Eq & ES & Hq & _); [apply run_closed..|done|done|].
  exists s, S, σ'. split; [done|]. split; [done|]. split; [done|]. split.
  - intros <- Hn.
    destruct (kernel_spec pow true 0 1 h σ _ _ Hpow E0 E1)
      as (s' & S' & σ'' & Eq' & ES' & _ & H1); [apply run_closed..| |done|].
    { intros _.
      assert (nonempty (run ast1).1) as Hne; [|done].
      intros E. rewrite generate_visit in E, Hn. simpl in E, Hn.
      assert (nid_of 0 ∈ dom (nx.nodes (graph (visit ast1
                (new_Visitor new_PDGGenerator))))) as Hin
        by (apply (wf_nodes _ (run_wf ast1)); by exists 0).
      rewrite E, dom_empty_L in Hin. set_solver. }
    assert (s' = s) as -> by congruence.
    assert (S' = S) as -> by congruence. by apply H1.
  - intros H3 Hn. rewrite self_score_default in ES by (done || lia).
    by injection ES as <-.
Qed.

Lemma built_graphs_are_scored_witness :
  let σ : heap := {[ 0 := (run self_increment).1;
                     1 := (run self_increment).1 ]} in
  ∃ s S σ',
    weisfeiler_lehman_kernel pow_nearest 0 1 3 σ = Some (finite s, σ') ∧
    self_score pow_nearest 3 = Some (finite S) ∧
    (0 <= s <= S)%Q ∧
    (self_increment = self_increment →
     0 < node_id (run self_increment).2 → s = S) ∧
    ((3 ≤ 3)%Z → nearest_up_to 3 pow_nearest → S = 1%Q).
Proof.
  apply (built_graphs_are_scored pow_nearest self_increment self_increment 3);
    [apply pow_nearest_ok|lia].
Defined.

(* ===================================================================== *)
(** * The two kernels on two distinct graphs *)

Lemma wl_rounds_length n G1 G2 : ∀ σ H1 H2 σ' L1 L2,
  wl_rounds n G1 G2 σ H1 H2 = Some (σ', L1, L2) →
  length L1 = length H1 + n ∧ length L2 = length H2 + n.
Proof.
  induction n as [|n IH]; intros σ H1 H2 σ' L1 L2 E; cbn [wl_rounds] in E.
  - injection E as _ <- <-. lia.
  - destruct (on_graph relabel G1 σ) as [σ1|]; simpl in E; [|done].
    destruct (on_graph relabel G2 σ1) as [σ2|]; simpl in E; [|done].
    destruct (read_graph histogram G1 σ2) as [h1|]; simpl in E; [|done].
    destruct (read_graph histogram G2 σ2) as [h2|]; simpl in E; [|done].
    apply IH in E. rewrite !length_app in E. simpl in E. lia.
Qed.

Lemma main_round_agree {A} G1 G2 (σ : heap) (K : heap → option A) :
  G1 ≠ G2 →
  (new_labels_G1 ← read_graph main.new_labels G1 σ;
   new_labels_G2 ← read_graph main.new_labels G2 σ;
   σ1 ← on_graph (λ g, Some (main.apply_labels new_labels_G1 g)) G1 σ;
   σ2 ← on_graph (λ g, Some (main.apply_labels new_labels_G2 g)) G2 σ1;
   K σ2)
  = (σ1 ← on_graph relabel G1 σ; σ2 ← on_graph relabel G2 σ1; K σ2).
Proof.
  intros Hne.
  unfold read_graph, on_graph, relabel, main.new_labels, main.apply_labels.
  destruct (σ !! G1) as [g1|] eqn:E1; simpl; [|done].
  destruct (mapM _ (nx.node_list g1)) as [nl1|]; simpl; [|done].
  rewrite !lookup_insert_ne by done.
  destruct (σ !! G2) as [g2|] eqn:E2; simpl; [|done].
  destruct (mapM _ (nx.node_list g2)) as [nl2|]; simpl; [|done].
  done.
Qed.

Lemma main_rounds_agree n G1 G2 : G1 ≠ G2 → ∀ σ H1 H2,
  main.wl_rounds n G1 G2 σ H1 H2 = wl_rounds n G1 G2 σ H1 H2.
Proof.
  intros Hne. induction n as [|n IH]; intros σ H1 H2; [done|].
  cbn [main.wl_rounds wl_rounds].
  rewrite (main_round_agree G1 G2 σ
             (λ σ2, h1 ← read_graph histogram G1 σ2;
                    h2 ← read_graph histogram G2 σ2;
                    main.wl_rounds n G1 G2 σ2
                      (H1 ++ [h1])%list (H2 ++ [h2])%list)) by done.
  destruct (on_graph relabel G1 σ) as [σ1|]; simpl; [|done].
  destruct (on_graph relabel G2 σ1) as [σ2|]; simpl; [|done].
  destruct (read_graph histogram G1 σ2) as [h1|]; simpl; [|done].
  destruct (read_graph histogram G2 σ2) as [h2|]; simpl; [|done].
  apply IH.
Qed.

Section main_weights.
Local Arguments fadd : simpl never.
Local Arguments fmul : simpl never.

(** The powers of [main.py], by repeated multiplication: doubles between
    0 and 1 after the first, which is 1.0. *)
Lemma main_raw_weights (n : nat) :
  ∃ l,
    foldl (λ weights _,
             (weights ++ [fmul (default (finite 0) (last weights)) decay])%list)
          [finite 1] (seq 0 n) = finite 1 :: l ∧
    Forall unit_float l ∧ length l = n.
Proof.
  induction n as [|n (l & E & Hu & Hl)]; [by exists []|].
  rewrite seq_S, foldl_app, E. cbn [foldl].
  exists (l ++ [fmul (default (finite 0) (last (finite 1 :: l))) decay])%list.
  split; [done|]. split; [|rewrite length_app; simpl; lia].
  apply Forall_app. split; [done|]. constructor; [|constructor].
  assert (unit_float (default (finite 0) (last (finite 1 :: l)))) as Hw.
  { destruct (last (finite 1 :: l)) as [w|] eqn:El; simpl.
    - apply last_Some in El as [l' El].
      assert (Forall unit_float (finite 1 :: l)) as Hall.
      { constructor; [|done]. exists 1%Q. split; [done|lra]. }
      rewrite El in Hall. apply Forall_app in Hall as [_ Hall].
      by apply Forall_cons in Hall as [? _].
    - exists 0%Q. split; [done|lra]. }
  rewrite decay_eq.
  destruct (fmul_unit _ (3602879701896397 # 4503599627370496) Hw)
    as [-> Hr]; [split; by vm_compute|].
  by eexists.
Qed.

(** [main.weights] returns for every [h]: no division fails. *)
Lemma main_weights_spec (h : Z) :
  ∃ ws, main.weights h = Some ws ∧ length ws = S (Z.to_nat h) ∧
        Forall unit_float ws.
Proof.
  unfold main.weights. cbv zeta.
  destruct (main_raw_weights (Z.to_nat h)) as (l & -> & Hu & Hl).
  destruct (fsum_from l 1) as (T & ET & HT); [lra|done|].
  assert (fsum (finite 1 :: l) = finite T) as ->.
  { unfold fsum. cbn [foldl].
    by change (fadd (finite 0) (finite 1)) with (finite 1). }
  assert (Forall unit_float (finite 1 :: l)) as Hall.
  { constructor; [|done]. exists 1%Q. split; [done|lra]. }
  exists ((λ w, fl (value w / T)) <$> finite 1 :: l). split; [|split].
  - apply mapM_total. eapply Forall_impl; [apply Hall|].
    intros w (q & -> & Hq). simpl.
    destruct (Qeq_bool T 0) eqn:E; [|done].
    apply Qeq_bool_iff in E. lra.
  - rewrite length_fmap. simpl. by rewrite Hl.
  - apply Forall_fmap. eapply Forall_impl; [apply Hall|].
    intros w (q & -> & Hq). simpl. apply fl_unit_float. split.
    + apply Qle_shift_div_l; lra.
    + apply Qle_shift_div_r; lra.
Qed.

(** Both loops return when every round has its histograms and its
    weight. *)
Lemma loops_return (ws ws' : list float) (L1 L2 : list Counter)
    (rounds : list nat) :
  Forall (λ i, i < length ws ∧ i < length ws' ∧
               i < length L1 ∧ i < length L2) rounds →
  ∀ a a', is_Some (main.similarity_loop rounds ws L1 L2 a) ∧
          is_Some (similarity_loop rounds ws' L1 L2 a').
Proof.
  induction 1 as [|i rounds (Hw & Hw' & H1 & H2) _ IH]; intros a a';
    cbn [main.similarity_loop similarity_loop]; [by split|].
  destruct (lookup_lt_is_Some_2 ws i Hw) as [w ->].
  destruct (lookup_lt_is_Some_2 ws' i Hw') as [w' ->].
  destruct (lookup_lt_is_Some_2 L1 i H1) as [h1 ->].
  destruct (lookup_lt_is_Some_2 L2 i H2) as [h2 ->]. simpl.
  split; [|apply (IH (finite 0))]. case_decide; apply (IH _ (finite 0)).
Qed.

(** With the same weights the two loops return the same double: a round
    with an empty union, which [main.py] skips, adds [w * 0.0 = 0.0] in
    [wl_kernel.py], and that changes no double. *)
Lemma main_loop_agree (ws : list float) (L1 L2 : list Counter) :
  Forall unit_float ws → ∀ rounds a,
  Forall (λ i, i < length ws) rounds →
  (0 <= a <= big)%Q → rnd a = a →
  main.similarity_loop rounds ws L1 L2 (finite a)
  = similarity_loop rounds ws L1 L2 (finite a).
Proof.
  intros Hws rounds. induction rounds as [|i rounds IH]; intros a Hr Ha Hg;
    cbn [main.similarity_loop similarity_loop]; [done|].
  apply Forall_cons in Hr as [Hi Hr].
  destruct (lookup_lt_is_Some_2 ws i Hi) as [w Ew].
  assert (unit_float w) as Hw.
  { rewrite Forall_forall in Hws. apply Hws.
    by eapply list_elem_of_lookup_2. }
  destruct (L1 !! i) as [h1|]; simpl; [|done].
  destruct (L2 !! i) as [h2|]; simpl; [|done].
  rewrite Ew. simpl.
  pose proof (round_similarity_range h1 h2) as Hrange.
  unfold round_similarity in *. cbv zeta in *.
  case_decide as Hu.
  - destruct (fl_unit _ Hrange) as [-> Hrange'].
    destruct (fmul_unit w _ Hw Hrange') as [-> Hp].
    destruct (fadd_bounded a _ Ha Hp) as (-> & Hb & _).
    apply IH; [done|done|]. apply rnd_idem. lra.
  - destruct Hw as (q & -> & Hq). rewrite fl_0.
    assert (fmul (finite q) (finite 0) = finite 0) as ->.
    { unfold fmul. rewrite (fl_comp (q * 0) 0); [done|]. lra. }
    assert (fadd (finite a) (finite 0) = finite a) as ->.
    { unfold fadd. rewrite (fl_comp (a + 0) a) by lra.
      rewrite fl_finite, Hg; [done|lra|]. rewrite Hg.
      change (2 ^ 60)%Q with big. lra. }
    by apply IH.
Qed.

End main_weights.

(** For up to 3 rounds, repeated multiplication and the nearest doubles of
    the powers give the same weights. *)
Lemma main_weights_default (pow : float → Z → float) (h : Z) :
  (0 ≤ h ≤ 3)%Z → nearest_up_to 3 pow → main.weights h = weights pow h.
Proof.
  intros Hh Hn.
  rewrite (weights_ext pow pow_nearest h) by (intros i Hi; apply Hn; lia).
  assert (h = 0 ∨ h = 1 ∨ h = 2 ∨ h = 3)%Z as [->|[->|[->| ->]]] by lia;
    by vm_compute.
Qed.

Lemma main_kernel_related (pow : float → Z → float)
    (G1 G2 : loc) (h : Z) (σ : heap) :
  G1 ≠ G2 → libm_pow_ok pow →
  option_Forall2
    (λ r r', r.2 = r'.2 ∧ ((h ≤ 3)%Z → nearest_up_to 3 pow → r.1 = r'.1))
    (main.weisfeiler_lehman_kernel G1 G2 h σ)
    (weisfeiler_lehman_kernel pow G1 G2 h σ).
Proof.
  intros Hne Hpow.
  unfold main.weisfeiler_lehman_kernel, weisfeiler_lehman_kernel.
  destruct (on_graph _ G1 σ) as [σ1|]; simpl; [|constructor].
  destruct (on_graph _ G2 σ1) as [σ2|]; simpl; [|constructor].
  destruct (read_graph histogram G1 σ2) as [h1|] eqn:Eh1; simpl;
    [|constructor].
  destruct (read_graph histogram G2 σ2) as [h2|] eqn:Eh2; simpl;
    [|constructor].
  rewrite main_rounds_agree by done.
  destruct (wl_rounds _ G1 G2 σ2 [h1] [h2]) as [[[σ3 L1] L2]|] eqn:Er; simpl;
    [|constructor].
  apply wl_rounds_length in Er as [Hl1 Hl2]. simpl in Hl1, Hl2.
  destruct (main_weights_spec h) as (wm & Em & Hlm & Hum).
  destruct (decide (h < 0)%Z) as [Hh|Hh].
  - rewrite Em, weights_negative by done. simpl.
    replace (Z.to_nat (h + 1)) with 0 by lia. simpl. by constructor.
  - destruct (weights_spec pow Hpow h) as (T & _ & _ & Ew & Hu); [lia|].
    pose proof (length_weights pow h _ Ew) as Hl.
    rewrite Em, Ew. simpl.
    destruct (loops_return wm ((λ w, fl (value w / T)) <$>
                map (λ i : nat, pow decay (Z.of_nat i))
                    (seq 0 (Z.to_nat (h + 1)))) L1 L2
                (seq 0 (Z.to_nat (h + 1)))) with (a := finite 0)
                (a' := finite 0) as [[qm Eqm] [q Eq]].
    { apply Forall_forall. intros i Hi%elem_of_seq. lia. }
    rewrite Eqm, Eq. simpl. constructor. split; [done|].
    intros H3 Hn. simpl.
    rewrite (main_weights_default pow h) in Em by (done || lia).
    assert (wm = (λ w, fl (value w / T)) <$>
                map (λ i : nat, pow decay (Z.of_nat i))
                    (seq 0 (Z.to_nat (h + 1)))) as -> by congruence.
    rewrite main_loop_agree in Eqm; [congruence|done| |split; by vm_compute
                                    |done].
    apply Forall_forall. intros i Hi%elem_of_seq. lia.
Qed.

(** X19: the two kernels on two distinct graph objects.  The kernel of
    [main.py] and the kernel of [wl_kernel.py] leave the same heap, and
    one fails when the other does: computing both sets of new labels
    before applying them changes nothing.  For up to 3 rounds (the
    default), with the nearest doubles for the powers, they also return
    the same double: the weights by repeated multiplication are the same,
    and the rounds with an empty union, which [main.py] skips, add 0.0.
    With more rounds the scores can differ: with 6 rounds on two graphs
    of [x = x + 1], [main.py] gives 1.0 and [wl_kernel.py]
    0.9999999999999999. *)
Theorem main_kernel_agrees
    (pow : float → Z → float) (G1 G2 : loc) (h : Z) (σ : heap) :
  G1 ≠ G2 → libm_pow_ok pow →
  (snd <$> main.weisfeiler_lehman_kernel G1 G2 h σ
   = snd <$> weisfeiler_lehman_kernel pow G1 G2 h σ) ∧
  ((h ≤ 3)%Z → nearest_up_to 3 pow →
   main.weisfeiler_lehman_kernel G1 G2 h σ
   = weisfeiler_lehman_kernel pow G1 G2 h σ) ∧
  (let σ : heap := {[ 0 := (run self_increment).1;
                      1 := (run self_increment).1 ]} in
   fst <$> main.weisfeiler_lehman_kernel 0 1 6 σ = Some (finite 1) ∧
   fst <$> weisfeiler_lehman_kernel pow_nearest 0 1 6 σ
   = Some (finite (9007199254740991 # 9007199254740992))).
Proof.
  intros Hne Hpow.
  destruct (main_kernel_related pow G1 G2 h σ Hne Hpow)
    as [[qm σm] [q σ'] [Hσ Hq]|]; simpl in *.
  - split; [by rewrite Hσ|]. split; [|split; by vm_compute].
    intros H3 Hn. by rewrite Hσ, (Hq H3 Hn).
  - split; [done|]. split; [done|]. split; by vm_compute.
Qed.

Lemma main_kernel_agrees_witness :
  (snd <$> main.weisfeiler_lehman_kernel 0 1 3 sample_heap
   = snd <$> weisfeiler_lehman_kernel pow_nearest 0 1 3 sample_heap) ∧
  ((3 ≤ 3)%Z → nearest_up_to 3 pow_nearest →
   main.weisfeiler_lehman_kernel 0 1 3 sample_heap
   = weisfeiler_lehman_kernel pow_nearest 0 1 3 sample_heap) ∧
  (let σ : heap := {[ 0 := (run self_increment).1;
                      1 := (run self_increment).1 ]} in
   fst <$> main.weisfeiler_lehman_kernel 0 1 6 σ = Some (finite 1) ∧
   fst <$> weisfeiler_lehman_kernel pow_nearest 0 1 6 σ
   = Some (finite (9007199254740991 # 9007199254740992))).
Proof.
  apply (main_kernel_agrees pow_nearest 0 1 3 sample_heap);
    [lia|apply pow_nearest_ok].
Defined.
